(** * go-mongo-generic: typed repository over a document store

    A shallow embedding of the package [mongodb] of go-mongo-generic
    (files [models.go], [impl.go] in both variants of [implCollection],
    [db.go] and [mongodb/db.go]) together with the properties stated
    about it.

    Layout:
    - Go basics: [int64] with wrap-around, [float64] through the IEEE 754
      binary64 reference implementation of the standard library
      ([SpecFloat]), errors, multiple results;
    - [Pagination] ([models.go]);
    - the driver interface: the calls the package issues against
      [*mongo.Collection], as commands of a free monad, so that every
      function of [impl.go] is a program whose issued calls can be
      observed under an arbitrary driver;
    - the two variants of [implCollection] ([V1], [V2]);
    - a reference store answering the driver calls;
    - [db.go] and the remaining calls of [impl.go], as programs over the
      calls against clients, sessions and collections (module [Rest]);
    - the theorems. *)

From Stdlib Require Import ZArith Lia Floats.SpecFloat.
From stdpp Require Import gmap strings list sorting pretty.

Open Scope Z_scope.

(** ** Go basics *)

Module Go.

(** [int64]: an integer of [Z] kept in [-2^63, 2^63) by [wrap64]. *)
Definition min_int64 : Z := - 2 ^ 63.
Definition max_int64 : Z := 2 ^ 63 - 1.

Definition in_int64 (z : Z) : Prop := min_int64 <= z <= max_int64.

Definition wrap64 (z : Z) : Z := (z + 2 ^ 63) mod 2 ^ 64 - 2 ^ 63.

Definition sub64 (a b : Z) : Z := wrap64 (a - b).
Definition mul64 (a b : Z) : Z := wrap64 (a * b).

(** [error]: the values built by [errors.New], by [fmt.Errorf] with a
    [%w] verb, and the errors handed back by the driver. *)
Inductive error : Type :=
| errors_New (msg : string)
| fmt_Errorf (prefix : string) (cause : error)
| driver_error (code : string).

(** A Go result pair [(T, error)]. *)
Inductive result (A : Type) : Type :=
| Ok (a : A)
| Err (e : error).
Global Arguments Ok {A} a.
Global Arguments Err {A} e.

(** What ends a goroutine abnormally. *)
Inductive crash : Type :=
| nil_dereference
| log_Fatalf (msg : string).

(** *** float64

    binary64 values are [spec_float]s with precision 53 and maximal
    exponent 1024. *)
Definition prec : Z := 53.
Definition emax : Z := 1024.

(** [float64(z)] for an integer [z]: rounding to nearest even. *)
Definition float64_of_int64 (z : Z) : spec_float :=
  binary_normalize prec emax z 0 false.

Definition float64_div (x y : spec_float) : spec_float :=
  SFdiv prec emax x y.

(** Ceiling of [m / 2^k] for a positive [m]. *)
Definition ceil_shr (m : Z) (k : Z) : Z := - ((- m) / 2 ^ k).

(** [math.Ceil]. A finite value with a negative exponent below [2^53]
    in magnitude has an integral ceiling of at most [2^53], which
    binary64 represents exactly. *)
Definition math_Ceil (x : spec_float) : spec_float :=
  match x with
  | S754_finite s m e =>
      if 0 <=? e then x
      else
        let n := if s then - (Z.pos m / 2 ^ (- e))
                 else ceil_shr (Z.pos m) (- e) in
        if n =? 0 then S754_zero s
        else binary_normalize prec emax n 0 s
  | _ => x
  end.

(** [int64(x)] for a float64 [x]: truncation towards zero. Go leaves
    the result implementation-dependent when the value does not fit;
    amd64 yields the smallest int64, which is what is written here. *)
Definition int64_of_float64 (x : spec_float) : Z :=
  match x with
  | S754_zero _ => 0
  | S754_finite s m e =>
      let a := if 0 <=? e then Z.pos m * 2 ^ e else Z.pos m / 2 ^ (- e) in
      let v := if s then - a else a in
      if (min_int64 <=? v) && (v <=? max_int64) then v else min_int64
  | _ => min_int64
  end.

End Go.
Export Go.

(** *** Reading the rounding of [SpecFloat]

    Where a remainder [r] of a division by [D] lies: on the quotient,
    below, at or above the half. *)
Definition loc_of (r D : Z) : location :=
  if r =? 0 then loc_Exact else loc_Inexact (2 * r ?= D).

(** The second half of [binary_round_aux]: rounding to nearest even, then
    one more shift if the mantissa has grown a digit. *)
Definition round_tail (s : bool) (mx e : Z) (lx : location) : spec_float :=
  let '(mrs'', e'') :=
    shr_fexp prec emax (round_nearest_even mx lx) e loc_Exact in
  match shr_m mrs'' with
  | Z0 => S754_zero s
  | Zpos m => if e'' <=? emax - prec then S754_finite s m e'' else S754_infinity s
  | _ => S754_nan
  end.

(** ** models.go: Pagination *)

Record Pagination : Type := mkPagination {
  PageLimit : Z;
  Offset : Z;
  PageCurrent : Z;
  TotalPage : Z;
  TotalRecord : Z
}.

(** [Init]: set limit, page, then offset. *)
Definition Init (p : Pagination) (page limit : Z) : Pagination :=
  let page := if page <? 1 then 1 else page in
  let limit := if limit >? 100 then 100 else limit in
  {| PageLimit := limit;
     Offset := mul64 limit (sub64 page 1);
     PageCurrent := page;
     TotalPage := TotalPage p;
     TotalRecord := TotalRecord p |}.

(** [SetTotalRecord]: set total record, then the number of pages,
    through float64. *)
Definition SetTotalRecord (p : Pagination) (totalRecord : Z) : Pagination :=
  {| PageLimit := PageLimit p;
     Offset := Offset p;
     PageCurrent := PageCurrent p;
     TotalPage :=
       int64_of_float64
         (math_Ceil (float64_div (float64_of_int64 totalRecord)
                                 (float64_of_int64 (PageLimit p))));
     TotalRecord := totalRecord |}.

(** The mathematical ceiling of [a / b] for [b > 0]. *)
Definition ceil_div (a b : Z) : Z := - ((- a) / b).

(** ** The driver interface

    Documents, filters and updates are [interface{}] values handed to the
    driver; they are kept as BSON-like trees. *)

#[local] Unset Elimination Schemes.
Inductive value : Type :=
| VNull
| VInt (z : Z)
| VStr (s : string)
| VDoc (fields : list (string * value)).
#[local] Set Elimination Schemes.

Fixpoint value_eqb (a b : value) : bool :=
  match a, b with
  | VNull, VNull => true
  | VInt x, VInt y => bool_decide (x = y)
  | VStr s, VStr t => bool_decide (s = t)
  | VDoc fs, VDoc gs =>
      (fix fields_eqb (fs gs : list (string * value)) : bool :=
         match fs, gs with
         | [], [] => true
         | (k, v) :: fs', (k', v') :: gs' =>
             bool_decide (k = k') && value_eqb v v' && fields_eqb fs' gs'
         | _, _ => false
         end) fs gs
  | _, _ => false
  end.

(** [bson.M{"$set": update}] *)
Definition bson_set (update : value) : value := VDoc [("$set"%string, update)].

(** The option structs of [mongo/options], with the fields this package
    reads or writes and one more to stand for the rest. *)
Record FindOptions : Type := mkFindOptions {
  Skip : option Z;
  Limit : option Z;
  Sort : option value
}.

Definition SetSkip (o : FindOptions) (i : Z) : FindOptions :=
  {| Skip := Some i; Limit := Limit o; Sort := Sort o |}.
Definition SetLimit (o : FindOptions) (i : Z) : FindOptions :=
  {| Skip := Skip o; Limit := Some i; Sort := Sort o |}.

Record FindOneOptions : Type := mkFindOneOptions {
  one_Skip : option Z;
  one_Sort : option value
}.

(** [new(options.FindOneOptions)] *)
Definition new_FindOneOptions : FindOneOptions :=
  {| one_Skip := None; one_Sort := None |}.

Record UpdateOptions : Type := mkUpdateOptions {
  Hint : option value;
  Upsert : option bool
}.

Record IndexOptions : Type := mkIndexOptions {
  Name : option string;
  Unique : option bool
}.

(** [mongo.IndexModel] *)
Record IndexModel : Type := mkIndexModel {
  Keys : value;
  Options : option IndexOptions
}.

(** An index document as the list cursor decodes it (the local struct
    [mongoIndex] of the first variant reads the name only, [MongoIndex]
    of the second the name and the keys). *)
Record MongoIndex : Type := mkMongoIndex {
  index_Name : string;
  index_Keys : value
}.

(** What [Indexes().List] hands back: the documents [Next]/[Decode] go
    through, each of which may fail to decode, and the error [Err]
    reports once [Next] has returned false. *)
Record Cursor : Type := mkCursor {
  batch : list (result MongoIndex);
  cursor_Err : option error
}.

(** The two handles of [implCollection]. *)
Inductive Conn : Type := writeCollection | readCollection.

(** The calls issued against a [*mongo.Collection]. Contexts, time-outs
    and batch sizes are left out. *)
Inductive Cmd : Type :=
| CountDocuments (c : Conn) (filter : value)
| Coll_Find (c : Conn) (filter : value) (opt : option FindOptions)
| Coll_FindOne (c : Conn) (filter : value) (opt : option FindOneOptions)
| Coll_InsertMany (c : Conn) (docs : list value)
| Coll_UpdateOne (c : Conn) (filter update : value)
                 (opts : list (option UpdateOptions))
| Indexes_List (c : Conn)
| Indexes_DropOne (c : Conn) (name : string)
| Indexes_CreateOne (c : Conn) (idx : IndexModel).

(** What each call returns. [Coll_Find] returns a cursor or an error;
    the cursor is what [cur.All] will decode, or fail with. *)
Definition Resp (c : Cmd) : Type :=
  match c with
  | CountDocuments _ _ => result Z
  | Coll_Find _ _ _ => result (result (list value))
  | Coll_FindOne _ _ _ => result value
  | Coll_InsertMany _ _ => result unit
  | Coll_UpdateOne _ _ _ _ => result unit
  | Indexes_List _ => result Cursor
  | Indexes_DropOne _ _ => result unit
  | Indexes_CreateOne _ _ => result string
  end.

(** Programs over the driver: return, crash, or issue a call and go on
    with its answer. *)
Inductive Prog (A : Type) : Type :=
| Ret (a : A)
| Crash (c : crash)
| Vis (c : Cmd) (k : Resp c -> Prog A).
Global Arguments Ret {A} a.
Global Arguments Crash {A} c.
Global Arguments Vis {A} c k.

Fixpoint bind {A B} (m : Prog A) (f : A -> Prog B) : Prog B :=
  match m with
  | Ret a => f a
  | Crash c => Crash c
  | Vis c k => Vis c (fun r => bind (k r) f)
  end.

Global Instance Prog_ret : MRet Prog := fun A a => Ret a.
Global Instance Prog_bind : MBind Prog := fun A B f m => bind m f.

Definition call (c : Cmd) : Prog (Resp c) := Vis c Ret.

(** A driver answers every call from a state of its own. *)
Record Driver : Type := mkDriver {
  State : Type;
  respond : forall c : Cmd, State -> Resp c * State
}.

Inductive outcome (A : Type) : Type :=
| Returned (a : A)
| Crashed (c : crash).
Global Arguments Returned {A} a.
Global Arguments Crashed {A} c.

(** Running a program: what it comes to, the driver's state afterwards,
    and the calls issued, in order. *)
Record Run (A S : Type) : Type := mkRun {
  out : outcome A;
  final : S;
  trace : list Cmd
}.
Global Arguments mkRun {A S} out final trace.
Global Arguments out {A S} r.
Global Arguments final {A S} r.
Global Arguments trace {A S} r.

Fixpoint run {A} (d : Driver) (p : Prog A) (s : State d) : Run A (State d) :=
  match p with
  | Ret a => mkRun (Returned a) s []
  | Crash c => mkRun (Crashed c) s []
  | Vis c k =>
      let '(r, s') := respond d c s in
      let t := run d (k r) s' in
      mkRun (out t) (final t) (c :: trace t)
  end.

(** ** impl.go, first variant *)

(** What [Find] leaves behind: the results, and the option and
    pagination objects it was handed by pointer, as it mutated them. *)
Record Found : Type := mkFound {
  results : result (list value);
  opt_after : option FindOptions;
  pagination_after : option Pagination
}.

(** The common tail of both [Find]s: query, then decode all. *)
Definition query (filter : value) (opt : option FindOptions)
    (pagination : option Pagination) : Prog Found :=
  cur ← call (Coll_Find readCollection filter opt);
  match cur with
  | Err e => mret (mkFound (Err e) opt pagination)
  | Ok all =>
      match all with
      | Err e => mret (mkFound (Err e) opt pagination)
      | Ok docs => mret (mkFound (Ok docs) opt pagination)
      end
  end.

(** [Find] is the same in both variants. *)
Definition Find (filter : value) (opt : option FindOptions)
    (pagination : option Pagination) : Prog Found :=
  match pagination with
  | Some p =>
      total ← call (CountDocuments readCollection filter);
      match total with
      | Err e => mret (mkFound (Err e) opt (Some p))
      | Ok total =>
          let p := Init p (PageCurrent p) (PageLimit p) in
          let p := SetTotalRecord p total in
          match opt with
          | None => Crash nil_dereference
          | Some o =>
              let o := SetSkip o (Offset p) in
              let o := SetLimit o (PageLimit p) in
              query filter (Some o) (Some p)
          end
      end
  | None => query filter opt None
  end.

(** [InsertMany] is the same in both variants: the documents are copied
    into a slice of [interface{}] of the same length and handed on. *)
Definition InsertMany (documents : list value) : Prog (result unit) :=
  let docs := documents in
  call (Coll_InsertMany writeCollection docs).

(** The order in which [range] goes through the keys of a map: any
    order, possibly another one on every run. *)
Record MapOrder : Type := mkMapOrder {
  range_keys : list string -> list string;
  range_keys_perm : forall l, range_keys l ≡ₚ l
}.

(** [*idx.Options.Name], when both pointers are set. *)
Definition name_of (idx : IndexModel) : option string :=
  match Options idx with
  | Some o => Name o
  | None => None
  end.

Module V1.

Definition FindOne (filter : value) (opt : option FindOneOptions)
  : Prog (result value) :=
  call (Coll_FindOne readCollection filter opt).

Definition UpdateOne (filter update : value)
    (opts : list (option UpdateOptions)) : Prog (result unit) :=
  call (Coll_UpdateOne writeCollection filter update opts).

Definition UpdateSetOne (filter update : value)
    (opts : list (option UpdateOptions)) : Prog (result unit) :=
  UpdateOne filter (bson_set update) opts.

(** Step 1: the names of the existing indexes, [_id_] left out. *)
Fixpoint existing_names (items : list (result MongoIndex))
    (existing : gset string) : result (gset string) :=
  match items with
  | [] => Ok existing
  | Err e :: _ => Err (fmt_Errorf "decode index failed: " e)
  | Ok idx :: rest =>
      existing_names rest
        (if decide (index_Name idx ≠ "_id_"%string)
         then {[ index_Name idx ]} ∪ existing
         else existing)
  end.

(** Step 2: the expected names. *)
Fixpoint expected_names (indexes : list IndexModel) (expected : gset string)
  : gset string :=
  match indexes with
  | [] => expected
  | idx :: rest =>
      expected_names rest
        (match name_of idx with
         | Some n => {[ n ]} ∪ expected
         | None => expected
         end)
  end.

(** Step 3: drop the indexes not in expected. *)
Fixpoint drop_unexpected (expected : gset string) (names : list string)
  : Prog (result unit) :=
  match names with
  | [] => mret (Ok tt)
  | name :: rest =>
      if decide (name ∈ expected) then drop_unexpected expected rest
      else
        r ← call (Indexes_DropOne writeCollection name);
        match r with
        | Err e =>
            mret (Err (fmt_Errorf ("drop index " ++ name ++ " failed: ") e))
        | Ok _ => drop_unexpected expected rest
        end
  end.

(** Step 4: create the expected indexes. *)
Fixpoint create_all (indexes : list IndexModel) : Prog (result unit) :=
  match indexes with
  | [] => mret (Ok tt)
  | idx :: rest =>
      r ← call (Indexes_CreateOne writeCollection idx);
      match r with
      | Err e => mret (Err (fmt_Errorf "create index failed: " e))
      | Ok _ => create_all rest
      end
  end.

Definition EnsureIndexes (order : MapOrder) (indexes : list IndexModel)
  : Prog (result unit) :=
  cursor ← call (Indexes_List writeCollection);
  match cursor with
  | Err e => mret (Err (fmt_Errorf "list indexes failed: " e))
  | Ok cursor =>
      match existing_names (batch cursor) ∅ with
      | Err e => mret (Err e)
      | Ok existing =>
          match cursor_Err cursor with
          | Some e => mret (Err (fmt_Errorf "cursor error: " e))
          | None =>
              let expected := expected_names indexes ∅ in
              r ← drop_unexpected expected
                    (range_keys order (elements existing));
              match r with
              | Err e => mret (Err e)
              | Ok _ => create_all indexes
              end
          end
      end
  end.

End V1.

(** ** impl.go, second variant *)

(** The comparison handed to [sort.Slice]: [<=] on the names, byte by
    byte. *)
Definition name_le (a b : IndexModel) : Prop :=
  (default ""%string (name_of a) <=? default ""%string (name_of b))%string = true.

Global Instance name_le_dec : RelDecision name_le.
Proof. intros a b. unfold name_le. apply _. Defined.

Global Instance name_le_total : Total name_le.
Proof. intros a b. apply String.leb_total. Qed.

(** What [sort.Slice] does to a slice: it only swaps elements, so the
    outcome is a permutation whatever the comparison; and the outcome is
    in order when the names are pairwise distinct, where [<=] and the
    strict order [sort.Slice] asks for agree on every pair compared. *)
Record Sorter : Type := mkSorter {
  sorted : list IndexModel -> list IndexModel;
  sorted_perm : forall l, sorted l ≡ₚ l;
  sorted_by_name : forall l, NoDup (name_of <$> l) -> Sorted name_le (sorted l)
}.

Module V2.

(** [FindOne] builds its own options and never reads [opt]. *)
Definition FindOne (filter : value) (opt : option FindOneOptions)
  : Prog (result value) :=
  let bOpt := new_FindOneOptions in
  call (Coll_FindOne readCollection filter (Some bOpt)).

Definition UpdateOne (filter update : value)
    (options : option UpdateOptions) : Prog (result unit) :=
  match options with
  | None => Crash nil_dereference
  | Some o =>
      match Hint o with
      | None => mret (Err (errors_New "miss hint index"))
      | Some _ =>
          call (Coll_UpdateOne writeCollection filter (bson_set update)
                  [Some o])
      end
  end.

(** [sort.Slice(indexes, less)] with
    [less(i, j) = *indexes[i].Options.Name <= *indexes[j].Options.Name].
    With fewer than two elements [less] is never called; from two on,
    every element is compared at least once, and a nil [Options] or
    [Name] is dereferenced. *)
Definition sort_Slice (sorter : Sorter) (indexes : list IndexModel)
  : option (list IndexModel) :=
  if decide (2 <= length indexes)%nat then
    if forallb (fun idx => bool_decide (is_Some (name_of idx))) indexes
    then Some (sorted sorter indexes)
    else None
  else Some indexes.

(** The inner loop: [isDrop] goes to false when some descriptor has the
    name; every descriptor is dereferenced, there is no [break]. *)
Fixpoint is_drop (indexes : list IndexModel) (name : string) (isDrop : bool)
  : option bool :=
  match indexes with
  | [] => Some isDrop
  | v :: rest =>
      match name_of v with
      | None => None
      | Some n =>
          is_drop rest name (if decide (n = name) then false else isDrop)
      end
  end.

(** The loop over the cursor, collecting the names to drop. *)
Fixpoint drop_candidates (items : list (result MongoIndex))
    (indexes : list IndexModel) (dropIndexes : list string)
  : Prog (result (list string)) :=
  match items with
  | [] => mret (Ok dropIndexes)
  | Err e :: _ => mret (Err e)
  | Ok index :: rest =>
      if decide (index_Name index = "_id_"%string)
      then drop_candidates rest indexes dropIndexes
      else
        match is_drop indexes (index_Name index) true with
        | None => Crash nil_dereference
        | Some true =>
            drop_candidates rest indexes (dropIndexes ++ [index_Name index])
        | Some false => drop_candidates rest indexes dropIndexes
        end
  end.

Fixpoint drop_all (dropIndexes : list string) : Prog (result unit) :=
  match dropIndexes with
  | [] => mret (Ok tt)
  | indexStr :: rest =>
      r ← call (Indexes_DropOne writeCollection indexStr);
      match r with
      | Err e => mret (Err e)
      | Ok _ => drop_all rest
      end
  end.

Fixpoint create_all (indexes : list IndexModel) : Prog (result unit) :=
  match indexes with
  | [] => mret (Ok tt)
  | index :: rest =>
      r ← call (Indexes_CreateOne writeCollection index);
      match r with
      | Err e => mret (Err e)
      | Ok _ => create_all rest
      end
  end.

Definition EnsureIndexes (sorter : Sorter) (indexes : list IndexModel)
  : Prog (result unit) :=
  cur ← call (Indexes_List writeCollection);
  match cur with
  | Err e => Crash (log_Fatalf "Something went wrong: ")
  | Ok cur =>
      match sort_Slice sorter indexes with
      | None => Crash nil_dereference
      | Some indexes =>
          dropIndexes ← drop_candidates (batch cur) indexes [];
          match dropIndexes with
          | Err e => mret (Err e)
          | Ok dropIndexes =>
              r ← drop_all dropIndexes;
              match r with
              | Err e => mret (Err e)
              | Ok _ => create_all indexes
              end
          end
      end
  end.

End V2.

(** ** A reference store

    One collection behind both handles: its documents and its indexes, in
    the order the server lists them. It answers the driver calls the way
    the document store does for the cases this package exercises. What a
    filter matches and what an update does to a document are the
    server's business and are taken as given. *)

Record Server : Type := mkServer {
  matches : value -> value -> bool;
  apply_update : value -> value -> value
}.

Record Store : Type := mkStore {
  documents : list value;
  live_indexes : list MongoIndex
}.

Module Ref.

Definition ErrEmptySlice : error :=
  driver_error "must provide at least one element in input slice".
Definition ErrNoDocuments : error :=
  driver_error "mongo: no documents in result".
Definition IndexNotFound : error := driver_error "IndexNotFound".
Definition IndexKeySpecsConflict : error :=
  driver_error "IndexKeySpecsConflict".
Definition InvalidOptions : error := driver_error "InvalidOptions".

(** The name the driver gives an index created without one:
    [field_direction], joined by underscores. *)
Definition show (v : value) : string :=
  match v with
  | VInt z => pretty z
  | VStr s => s
  | _ => ""
  end.

Definition default_index_name (keys : value) : string :=
  match keys with
  | VDoc fields =>
      String.concat "_"
        (map (fun kv => (fst kv ++ "_" ++ show (snd kv))%string) fields)
  | _ => ""
  end.

Definition index_name (idx : IndexModel) : string :=
  default (default_index_name (Keys idx)) (name_of idx).

Definition has_name (name : string) (i : MongoIndex) : bool :=
  bool_decide (index_Name i = name).

(** Creating an index that exists under the same name with the same
    keys changes nothing and succeeds; the same name with other keys is
    refused; a new name is added at the end. *)
Definition create_index (idx : IndexModel) (live : list MongoIndex)
  : result string * list MongoIndex :=
  let name := index_name idx in
  match List.find (has_name name) live with
  | Some i =>
      if value_eqb (index_Keys i) (Keys idx) then (Ok name, live)
      else (Err IndexKeySpecsConflict, live)
  | None => (Ok name, live ++ [mkMongoIndex name (Keys idx)])
  end.

(** Dropping removes the index of that name; the primary-key index
    cannot be dropped, nor can one that does not exist. *)
Definition drop_index (name : string) (live : list MongoIndex)
  : result unit * list MongoIndex :=
  if decide (name = "_id_"%string) then (Err InvalidOptions, live)
  else if existsb (has_name name) live
  then (Ok tt, List.filter (fun i => negb (has_name name i)) live)
  else (Err IndexNotFound, live).

Definition matching (srv : Server) (filter : value) (s : Store) : list value :=
  List.filter (matches srv filter) (documents s).

(** Skip, then limit; a limit of zero is no limit. *)
Definition window (opt : option FindOptions) (docs : list value) : list value :=
  match opt with
  | None => docs
  | Some o =>
      let docs := drop (Z.to_nat (default 0 (Skip o))) docs in
      match Limit o with
      | None => docs
      | Some l => if decide (l = 0) then docs else take (Z.to_nat (Z.abs l)) docs
      end
  end.

Fixpoint update_first (srv : Server) (filter update : value)
    (docs : list value) : list value :=
  match docs with
  | [] => []
  | d :: rest =>
      if matches srv filter d then apply_update srv update d :: rest
      else d :: update_first srv filter update rest
  end.

(** The answers. [InsertMany] refuses an empty slice before anything is
    sent ([ErrEmptySlice]); reads leave the store as it is. *)
Definition respond (srv : Server) (c : Cmd) (s : Store) : Resp c * Store :=
  match c return Resp c * Store with
  | CountDocuments _ filter =>
      (Ok (Z.of_nat (length (matching srv filter s))), s)
  | Coll_Find _ filter opt =>
      (Ok (Ok (window opt (matching srv filter s))), s)
  | Coll_FindOne _ filter opt =>
      (match matching srv filter s with
       | d :: _ => Ok d
       | [] => Err ErrNoDocuments
       end, s)
  | Coll_InsertMany _ docs =>
      match docs with
      | [] => (Err ErrEmptySlice, s)
      | _ => (Ok tt, mkStore (documents s ++ docs) (live_indexes s))
      end
  | Coll_UpdateOne _ filter update _ =>
      (Ok tt, mkStore (update_first srv filter update (documents s)) (live_indexes s))
  | Indexes_List _ =>
      (Ok (mkCursor (map Ok (live_indexes s)) None), s)
  | Indexes_DropOne _ name =>
      let '(r, live) := drop_index name (live_indexes s) in
      (r, mkStore (documents s) live)
  | Indexes_CreateOne _ idx =>
      let '(r, live) := create_index idx (live_indexes s) in
      (r, mkStore (documents s) live)
  end.

Definition driver (srv : Server) : Driver := mkDriver Store (respond srv).

(** Map iteration in the order of the keys as listed. *)
Definition in_order : MapOrder := mkMapOrder (fun l => l) (fun l => reflexivity l).

(** Sorting descriptors by name with a merge sort. *)
Definition by_name : Sorter :=
  mkSorter (merge_sort name_le) (merge_sort_Permutation name_le)
           (fun l _ => Sorted_merge_sort name_le l).

End Ref.

(** ** Reading traces *)

Definition dropped (c : Cmd) : option string :=
  match c with
  | Indexes_DropOne _ name => Some name
  | _ => None
  end.

Definition created (c : Cmd) : option IndexModel :=
  match c with
  | Indexes_CreateOne _ idx => Some idx
  | _ => None
  end.

(** The names dropped and the descriptors created, in the order of the
    calls. *)
Definition drops (t : list Cmd) : list string := omap dropped t.
Definition creates (t : list Cmd) : list IndexModel := omap created t.

(** The calls that only read. *)
Definition reads (c : Cmd) : bool :=
  match c with
  | CountDocuments _ _ | Coll_Find _ _ _ | Coll_FindOne _ _ _
  | Indexes_List _ => true
  | _ => false
  end.

(** The calls that may change the store. *)
Definition mutations (t : list Cmd) : list Cmd :=
  List.filter (fun c => negb (reads c)) t.

(** The shape of a run of [EnsureIndexes]: the listing, then drops,
    then creates. *)
Definition reconciles (indexes : list IndexModel) (t : list Cmd)
    (ds : list string) (cs : list IndexModel) : Prop :=
  t = Indexes_List writeCollection ::
        ((Indexes_DropOne writeCollection <$> ds) ++
         (Indexes_CreateOne writeCollection <$> cs)) /\
  ("_id_"%string ∉ ds) /\
  cs ⊆ indexes.

(** A descriptor is settled in a live set when the first index under its
    name has its keys: creating it again changes nothing. *)
Definition settled (idx : IndexModel) (live : list MongoIndex) : Prop :=
  exists i, List.find (Ref.has_name (Ref.index_name idx)) live = Some i /\
            value_eqb (index_Keys i) (Keys idx) = true.

(** ** Sample data *)

Module Sample.

Definition p0 : Pagination := mkPagination 0 0 0 0 0.

(** A server on which every filter matches every document and an
    update replaces the document. *)
Definition srv : Server := mkServer (fun _ _ => true) (fun u _ => u).

Definition key (field : string) (direction : Z) : value :=
  VDoc [(field, VInt direction)].

Definition named (name : string) (keys : value) : IndexModel :=
  mkIndexModel keys (Some (mkIndexOptions (Some name) None)).

Definition unnamed (keys : value) : IndexModel := mkIndexModel keys None.

Definition primary : MongoIndex := mkMongoIndex "_id_" (key "_id" 1).

(** The live set [{A:{field:1}, C:{field:1}}] next to the primary-key
    index, and the desired set [{A:{field:1}, B:{field:-1}}]. *)
Definition live_AC : list MongoIndex :=
  [primary; mkMongoIndex "A" (key "field" 1); mkMongoIndex "C" (key "field" 1)].

Definition desired_AB : list IndexModel :=
  [named "A" (key "field" 1); named "B" (key "field" (-1))].

Definition live_AB : list MongoIndex :=
  [primary; mkMongoIndex "A" (key "field" 1);
   mkMongoIndex "B" (key "field" (-1))].

(** Documents numbered from 1 to [n]. *)
Definition numbered (n : nat) : list value :=
  map (fun i => VDoc [("n"%string, VInt (Z.of_nat i))]) (seq 1 n).

Definition store25 : Store := mkStore (numbered 25) [primary].

End Sample.

(** ** Paging through a result *)

(** The documents [Find] hands back for one page, and the number of
    pages it reports. *)
Definition page_of (d : Driver) (s : State d) (filter : value)
    (o : FindOptions) (page limit : Z) : list value :=
  match out (run d (Find filter (Some o) (Some (mkPagination limit 0 page 0 0))) s) with
  | Returned x =>
      match results x with
      | Ok docs => docs
      | Err _ => []
      end
  | Crashed _ => []
  end.

Definition pages_of (d : Driver) (s : State d) (filter : value)
    (o : FindOptions) (limit : Z) : Z :=
  match out (run d (Find filter (Some o) (Some (mkPagination limit 0 1 0 0))) s) with
  | Returned x =>
      match pagination_after x with
      | Some p => TotalPage p
      | None => 0
      end
  | Crashed _ => 0
  end.

(** The handle a call goes to. *)
Definition conn_of (c : Cmd) : Conn :=
  match c with
  | CountDocuments c _ | Coll_Find c _ _ | Coll_FindOne c _ _
  | Coll_InsertMany c _ | Coll_UpdateOne c _ _ _
  | Indexes_List c | Indexes_DropOne c _ | Indexes_CreateOne c _ => c
  end.

(** ** Reading listings *)

(** The names a listing shows, in its order. *)
Definition listed (items : list (result MongoIndex)) : list string :=
  omap (fun item => match item with
                    | Ok i => Some (index_Name i)
                    | Err _ => None
                    end) items.

(** A live name no descriptor carries, the primary key aside: what
    reconciliation is to drop. *)
Definition stray (indexes : list IndexModel) (name : string) : Prop :=
  name <> "_id_"%string /\ Some name ∉ (name_of <$> indexes).

Global Instance stray_dec indexes name : Decision (stray indexes name).
Proof. unfold stray. apply _. Defined.

(** ** db.go and the rest of impl.go

    The calls against clients and sessions, and the collection calls not
    met so far, are the commands of a second program type of the same
    make as the first. The contexts [NewDatabase] and [New] build carry
    a time-out, kept with the calls made under them. *)

Module Rest.

Inductive ReadPref : Type := Primary | SecondaryPreferred.

(** [*event.CommandMonitor], [*mongo.Client] and [mongo.Session] are
    handles, told apart by a number. [time.Duration] counts
    nanoseconds. *)
Definition CommandMonitor : Type := nat.
Definition Client : Type := nat.
Definition Session : Type := nat.
Definition Duration : Type := Z.
Definition Second : Duration := 1000000000.

(** [*options.ClientOptions], as far as this package fills it in. *)
Record ClientOptions : Type := mkClientOptions {
  URI : string;
  ReadPreference : ReadPref;
  Monitor : option CommandMonitor
}.

(** [*mongo.Database] is [client.Database(name)], [*mongo.Collection]
    is [db.Collection(name)]. *)
Record MongoDatabase : Type := mkMongoDatabase {
  db_client : Client;
  db_name : string
}.

Record MongoCollection : Type := mkMongoCollection {
  coll_database : MongoDatabase;
  coll_name : string
}.

Record FindOneAndUpdateOptions : Type := mkFindOneAndUpdateOptions {
  ReturnAfter : option bool;
  update_Upsert : option bool
}.

Record AggregateOptions : Type := mkAggregateOptions {
  AllowDiskUse : option bool
}.

Record DeleteOptions : Type := mkDeleteOptions {
  delete_Hint : option value
}.

Record CountOptions : Type := mkCountOptions {
  count_Limit : option Z;
  count_Skip : option Z
}.

Record BulkWriteOptions : Type := mkBulkWriteOptions {
  Ordered : option bool
}.

Record BulkWriteResult : Type := mkBulkWriteResult {
  InsertedCount : Z;
  ModifiedCount : Z;
  DeletedCount : Z
}.

(** The callback of a transaction is code over the collections that
    comes to a value or an error, or panics. *)
Definition Callback : Type := Prog (result value).

Inductive Call : Type :=
| mongo_Connect (timeout : Duration) (opts : ClientOptions)
| Client_Ping (timeout : Duration) (client : Client) (rp : ReadPref)
| Client_StartSession (client : Client)
| Session_WithTransaction (session : Session) (callback : Callback)
| Session_EndSession (session : Session)
| Collection_Aggregate (coll : MongoCollection) (pipeline : list value)
                       (opts : option AggregateOptions)
| Coll_FindOneAndUpdate (c : Conn) (filter update : value)
                        (opts : list (option FindOneAndUpdateOptions))
| Coll_UpdateMany (c : Conn) (filter update : value)
                  (opts : list (option UpdateOptions))
| Coll_InsertOne (c : Conn) (document : value)
| Coll_DeleteMany (c : Conn) (filter : value) (opts : option DeleteOptions)
| Coll_CountDocuments (c : Conn) (filter : value) (opts : option CountOptions)
| Coll_BulkWrite (c : Conn) (operations : list value)
                 (opts : option BulkWriteOptions).

(** What each call returns. [Session_WithTransaction] runs the callback,
    whose panic goes through it. [Coll_FindOneAndUpdate] returns a
    [*mongo.SingleResult]: an error, or the document yet to be
    decoded. *)
Definition Answer (c : Call) : Type :=
  match c with
  | mongo_Connect _ _ => result Client
  | Client_Ping _ _ _ => result unit
  | Client_StartSession _ => result Session
  | Session_WithTransaction _ _ => outcome (result value)
  | Session_EndSession _ => unit
  | Collection_Aggregate _ _ _ => result (result (list value))
  | Coll_FindOneAndUpdate _ _ _ _ => result value
  | Coll_UpdateMany _ _ _ _ => result unit
  | Coll_InsertOne _ _ => result unit
  | Coll_DeleteMany _ _ _ => result Z
  | Coll_CountDocuments _ _ _ => result Z
  | Coll_BulkWrite _ _ _ => result BulkWriteResult
  end.

Inductive prog (A : Type) : Type :=
| ret (a : A)
| panic (c : crash)
| vis (c : Call) (k : Answer c -> prog A).
Global Arguments ret {A} a.
Global Arguments panic {A} c.
Global Arguments vis {A} c k.

Fixpoint bind {A B} (m : prog A) (f : A -> prog B) : prog B :=
  match m with
  | ret a => f a
  | panic c => panic c
  | vis c k => vis c (fun r => bind (k r) f)
  end.

Global Instance prog_ret : MRet prog := fun A a => ret a.
Global Instance prog_bind : MBind prog := fun A B f m => bind m f.

Definition call (c : Call) : prog (Answer c) := vis c ret.

Record Driver : Type := mkDriver {
  State : Type;
  respond : forall c : Call, State -> Answer c * State
}.

(** Running a program: what it comes to, the driver's state afterwards,
    and the calls issued, in order. *)
Record Ran (A S : Type) : Type := mkRan {
  came_to : outcome A;
  left : S;
  calls : list Call
}.
Global Arguments mkRan {A S} came_to left calls.
Global Arguments came_to {A S} r.
Global Arguments left {A S} r.
Global Arguments calls {A S} r.

Fixpoint run {A} (d : Driver) (p : prog A) (s : State d) : Ran A (State d) :=
  match p with
  | ret a => mkRan (Returned a) s []
  | panic c => mkRan (Crashed c) s []
  | vis c k =>
      let '(r, s') := respond d c s in
      let t := run d (k r) s' in
      mkRan (came_to t) (left t) (c :: calls t)
  end.

(** *** db.go: options *)

Record dbOptions : Type := mkDbOptions {
  writeURL : string;
  readURL : string;
  database : string;
  monitor : option CommandMonitor;
  timeout : Duration;
  separateReadWrite : bool
}.

(** An [Option] is a function value: nil ([None]), or a function that
    changes the options in place. The constructors return functions. *)
Definition Option : Type := option (dbOptions -> dbOptions).

Definition WithSingleURL (url : string) : Option := Some (fun o =>
  mkDbOptions url url (database o) (monitor o) (timeout o) false).

Definition WithMongoURLs (writeURL' readURL' : string) : Option := Some (fun o =>
  mkDbOptions writeURL'
              (if decide (readURL' = ""%string) then writeURL' else readURL')
              (database o) (monitor o) (timeout o) true).

Definition WithSeparateReadWrite (enabled : bool) : Option := Some (fun o =>
  mkDbOptions (writeURL o) (readURL o) (database o) (monitor o) (timeout o)
              enabled).

Definition WithDatabase (db : string) : Option := Some (fun o =>
  mkDbOptions (writeURL o) (readURL o) db (monitor o) (timeout o)
              (separateReadWrite o)).

Definition WithMonitor (monitor' : option CommandMonitor) : Option := Some (fun o =>
  mkDbOptions (writeURL o) (readURL o) (database o) monitor' (timeout o)
              (separateReadWrite o)).

Definition WithTimeout (timeout' : Duration) : Option := Some (fun o =>
  mkDbOptions (writeURL o) (readURL o) (database o) (monitor o) timeout'
              (separateReadWrite o)).

(** *** db.go: NewDatabase *)

Record Database : Type := mkDatabase {
  writeDB : MongoDatabase;
  readDB : MongoDatabase
}.

Definition optionsMongoClient (uri : string) (monitor : option CommandMonitor)
    (rp : ReadPref) : ClientOptions :=
  let opts := mkClientOptions uri rp None in
  match monitor with
  | Some m => mkClientOptions (URI opts) (ReadPreference opts) (Some m)
  | None => opts
  end.

(** The loop over [opts]: every option is called on the options, in
    order; the call of a nil one panics, and there is no result
    ([None]). *)
Fixpoint apply_all (opts : list Option) (options : dbOptions)
  : option dbOptions :=
  match opts with
  | [] => Some options
  | None :: _ => None
  | Some opt :: rest => apply_all rest (opt options)
  end.

(** The options as the loop leaves them, from the defaults. *)
Definition apply_options (opts : list Option) : option dbOptions :=
  apply_all opts (mkDbOptions "" "" "" None (10 * Second) true).

(** The read URL after the fallback to the write URL. *)
Definition read_fallback (options : dbOptions) : dbOptions :=
  if negb (separateReadWrite options)
  then mkDbOptions (writeURL options) (writeURL options) (database options)
                   (monitor options) (timeout options)
                   (separateReadWrite options)
  else if decide (readURL options = ""%string)
       then mkDbOptions (writeURL options) (writeURL options)
                        (database options) (monitor options)
                        (timeout options) (separateReadWrite options)
       else options.

Definition NewDatabase (opts : list Option) : prog (result Database) :=
  match apply_options opts with
  | None => panic nil_dereference
  | Some options =>
      if decide (writeURL options = ""%string)
      then mret (Err (errors_New "write URL is required"))
      else
        let options := read_fallback options in
        if decide (database options = ""%string)
        then mret (Err (errors_New "database name is required"))
        else
          let ctx := timeout options in
          let writeClientOpts :=
            optionsMongoClient (writeURL options) (monitor options) Primary in
          writeClient ← call (mongo_Connect ctx writeClientOpts);
          match writeClient with
          | Err e => mret (Err (fmt_Errorf "failed to connect to write DB: " e))
          | Ok writeClient =>
              let readClientOpts :=
                optionsMongoClient (readURL options) (monitor options)
                                   SecondaryPreferred in
              readClient ← call (mongo_Connect ctx readClientOpts);
              match readClient with
              | Err e => mret (Err (fmt_Errorf "failed to connect to read DB: " e))
              | Ok readClient =>
                  err ← call (Client_Ping ctx writeClient Primary);
                  match err with
                  | Err e => mret (Err (fmt_Errorf "write DB ping failed: " e))
                  | Ok _ =>
                      err ← call (Client_Ping ctx readClient SecondaryPreferred);
                      match err with
                      | Err e => mret (Err (fmt_Errorf "read DB ping failed: " e))
                      | Ok _ =>
                          mret (Ok (mkDatabase
                                      (mkMongoDatabase writeClient (database options))
                                      (mkMongoDatabase readClient (database options))))
                      end
                  end
              end
          end
  end.

(** *** db.go: transactions, collections, aggregation *)

(** [defer session.EndSession(ctx)] runs on every way out once the
    session is there, a panic of the callback included. *)
Definition WithTransaction (d : Database) (callback : Callback)
  : prog (result unit) :=
  session ← call (Client_StartSession (db_client (writeDB d)));
  match session with
  | Err e => mret (Err (fmt_Errorf "start session failed: " e))
  | Ok session =>
      r ← call (Session_WithTransaction session callback);
      match r with
      | Crashed c =>
          _ ← call (Session_EndSession session);
          panic c
      | Returned (Err e) =>
          _ ← call (Session_EndSession session);
          mret (Err (fmt_Errorf "transaction failed: " e))
      | Returned (Ok _) =>
          _ ← call (Session_EndSession session);
          mret (Ok tt)
      end
  end.

Definition ReadCollection (d : Database) (name : string) : MongoCollection :=
  mkMongoCollection (readDB d) name.

Definition WriteCollection (d : Database) (name : string) : MongoCollection :=
  mkMongoCollection (writeDB d) name.

Definition Aggregate (collection : MongoCollection) (pipeline : list value)
    (opts : option AggregateOptions) : prog (result (list value)) :=
  cur ← call (Collection_Aggregate collection pipeline opts);
  match cur with
  | Err e => mret (Err (fmt_Errorf "aggregate query failed: " e))
  | Ok cur =>
      match cur with
      | Err e =>
          mret (Err (fmt_Errorf "failed to decode aggregation result: " e))
      | Ok results => mret (Ok results)
      end
  end.

(** *** mongodb/db.go: the constructors from a [Config]

    The declaration of [Config] is in a file not at hand; these are the
    three fields the constructors read, [DatabaseName] standing for the
    field [Database]. *)

Module Legacy.

Record Config : Type := mkConfig {
  WriteURL : string;
  ReadURL : string;
  DatabaseName : string
}.

Definition New (config : option Config) : prog (result Database) :=
  let ctx := 10 * Second in
  match config with
  | None => panic nil_dereference
  | Some config =>
      let writeClientOpts := mkClientOptions (WriteURL config) Primary None in
      writeClient ← call (mongo_Connect ctx writeClientOpts);
      match writeClient with
      | Err e => mret (Err (fmt_Errorf "failed to connect to write DB: " e))
      | Ok writeClient =>
          let readClientOpts :=
            mkClientOptions (ReadURL config) SecondaryPreferred None in
          readClient ← call (mongo_Connect ctx readClientOpts);
          match readClient with
          | Err e => mret (Err (fmt_Errorf "failed to connect to read DB: " e))
          | Ok readClient =>
              err ← call (Client_Ping ctx writeClient Primary);
              match err with
              | Err e => mret (Err (fmt_Errorf "write DB ping failed: " e))
              | Ok _ =>
                  err ← call (Client_Ping ctx readClient SecondaryPreferred);
                  match err with
                  | Err e => mret (Err (fmt_Errorf "read DB ping failed: " e))
                  | Ok _ =>
                      if decide (DatabaseName config = ""%string)
                      then mret (Err (errors_New "no database name configured"))
                      else
                        mret (Ok (mkDatabase
                                    (mkMongoDatabase writeClient
                                                     (DatabaseName config))
                                    (mkMongoDatabase readClient
                                                     (DatabaseName config))))
                  end
              end
          end
      end
  end.

(** [SetMonitor(monitor)] is called with whatever it is handed, nil
    included. *)
Definition NewWithMonitor (config : option Config)
    (monitor : option CommandMonitor) : prog (result Database) :=
  let ctx := 10 * Second in
  match config with
  | None => panic nil_dereference
  | Some config =>
      let writeClientOpts :=
        mkClientOptions (WriteURL config) Primary monitor in
      writeClient ← call (mongo_Connect ctx writeClientOpts);
      match writeClient with
      | Err e => mret (Err (fmt_Errorf "failed to connect to write DB: " e))
      | Ok writeClient =>
          let readClientOpts :=
            mkClientOptions (ReadURL config) SecondaryPreferred monitor in
          readClient ← call (mongo_Connect ctx readClientOpts);
          match readClient with
          | Err e => mret (Err (fmt_Errorf "failed to connect to read DB: " e))
          | Ok readClient =>
              err ← call (Client_Ping ctx writeClient Primary);
              match err with
              | Err e => mret (Err (fmt_Errorf "write DB ping failed: " e))
              | Ok _ =>
                  err ← call (Client_Ping ctx readClient SecondaryPreferred);
                  match err with
                  | Err e => mret (Err (fmt_Errorf "read DB ping failed: " e))
                  | Ok _ =>
                      if decide (DatabaseName config = ""%string)
                      then mret (Err (errors_New "no database name configured"))
                      else
                        mret (Ok (mkDatabase
                                    (mkMongoDatabase writeClient
                                                     (DatabaseName config))
                                    (mkMongoDatabase readClient
                                                     (DatabaseName config))))
                  end
              end
          end
      end
  end.

End Legacy.

(** *** impl.go: NewCollection *)

Record implCollection : Type := mkImplCollection {
  impl_writeCollection : MongoCollection;
  impl_readCollection : MongoCollection;
  collectionName : string
}.

(** [collectionName] is what [CollectionName()] of the model type
    returns. *)
Definition NewCollection (collectionName : string) (db : Database)
  : implCollection :=
  mkImplCollection (mkMongoCollection (writeDB db) collectionName)
                   (mkMongoCollection (readDB db) collectionName)
                   collectionName.

Definition GetCollection (d : implCollection) : MongoCollection :=
  impl_writeCollection d.

(** *** impl.go: the calls handed on, the same in both variants *)

Definition InsertOne (document : value) : prog (result unit) :=
  call (Coll_InsertOne writeCollection document).

(** The count of deleted documents is dropped. *)
Definition Delete (filter : value) (opts : option DeleteOptions)
  : prog (result unit) :=
  r ← call (Coll_DeleteMany writeCollection filter opts);
  match r with
  | Err e => mret (Err e)
  | Ok _ => mret (Ok tt)
  end.

Definition Count (filter : value) (opts : option CountOptions)
  : prog (result Z) :=
  call (Coll_CountDocuments readCollection filter opts).

Definition BulkWrite (operations : list value)
    (opts : option BulkWriteOptions) : prog (result BulkWriteResult) :=
  call (Coll_BulkWrite writeCollection operations opts).

(** *** impl.go: FindOneAndUpdate and UpdateMany *)

Definition ErrDecodeToNil : error := driver_error "ErrDecodeToNil".

(** [Decode(v)] of a [SingleResult]: the error of the call when there
    is one; else the document is unmarshalled into [v], which the
    decoder refuses when [v] is a nil pointer. [unmarshal] is the
    decoding into the model type. *)
Definition Decode (unmarshal : value -> result value) (sr : result value)
    (v_is_nil : bool) : result value :=
  match sr with
  | Err e => Err e
  | Ok raw => if v_is_nil then Err ErrDecodeToNil else unmarshal raw
  end.

Module V1.

(** [result := new(T)]: the decoding is into a fresh value. The result
    is a pointer, [None] for nil. *)
Definition FindOneAndUpdate (unmarshal : value -> result value)
    (filter update : value) (opts : list (option FindOneAndUpdateOptions))
  : prog (result (option value)) :=
  sr ← call (Coll_FindOneAndUpdate writeCollection filter update opts);
  match Decode unmarshal sr false with
  | Err e => mret (Err e)
  | Ok result => mret (Ok (Some result))
  end.

Definition UpdateMany (filter update : value)
    (opts : list (option UpdateOptions)) : prog (result unit) :=
  call (Coll_UpdateMany writeCollection filter update opts).

End V1.

Module V2.

(** The named result [result *T] is nil when it is handed to [Decode],
    and is returned as it is. *)
Definition FindOneAndUpdate (unmarshal : value -> result value)
    (filter update : value) (opt : option FindOneAndUpdateOptions)
  : prog (result (option value)) :=
  sr ← call (Coll_FindOneAndUpdate writeCollection filter (bson_set update)
               [opt]);
  match Decode unmarshal sr true with
  | Err e => mret (Err e)
  | Ok _ => mret (Ok None)
  end.

Definition UpdateMany (filter update : value)
    (options : option UpdateOptions) : prog (result unit) :=
  match options with
  | None => panic nil_dereference
  | Some o =>
      match Hint o with
      | None => mret (Err (errors_New "miss hint index"))
      | Some _ =>
          call (Coll_UpdateMany writeCollection filter (bson_set update)
                  [Some o])
      end
  end.

End V2.

(** *** Reading options and calls *)

(** [dbOptions] is not exported: an [Option] in the hands of a caller
    is nil or comes from one of the six constructors. *)
Inductive built : Option -> Prop :=
| built_WithSingleURL url : built (WithSingleURL url)
| built_WithMongoURLs w r : built (WithMongoURLs w r)
| built_WithSeparateReadWrite enabled : built (WithSeparateReadWrite enabled)
| built_WithDatabase db : built (WithDatabase db)
| built_WithMonitor m : built (WithMonitor m)
| built_WithTimeout t : built (WithTimeout t).

(** Options that differ at most in the flag while the read URL is the
    write URL. *)
Definition alike (o1 o2 : dbOptions) : Prop :=
  writeURL o1 = writeURL o2 /\
  database o1 = database o2 /\
  monitor o1 = monitor o2 /\
  timeout o1 = timeout o2 /\
  (readURL o1 = readURL o2 /\
   separateReadWrite o1 = separateReadWrite o2 \/
   readURL o1 = writeURL o1 /\ readURL o2 = writeURL o2).

(** The handle a collection call goes to. *)
Definition conn_of (c : Call) : option Conn :=
  match c with
  | Coll_FindOneAndUpdate c _ _ _ | Coll_UpdateMany c _ _ _
  | Coll_InsertOne c _ | Coll_DeleteMany c _ _
  | Coll_CountDocuments c _ _ | Coll_BulkWrite c _ _ => Some c
  | _ => None
  end.

Definition goes_to (conn : Conn) (t : list Call) : Prop :=
  Forall (fun c => conn_of c = Some conn) t.

(** The sessions ended and the transactions run, in order. *)
Definition ended (c : Call) : option Session :=
  match c with
  | Session_EndSession session => Some session
  | _ => None
  end.

Definition transacted (c : Call) : option (Session * Callback) :=
  match c with
  | Session_WithTransaction session callback => Some (session, callback)
  | _ => None
  end.

End Rest.

(** ** A driver that is up

    Every call succeeds; clients and sessions are numbered as they
    come. The callback of a transaction is run against the reference
    store, whose state is kept when the callback comes to a value and
    dropped when it comes to an error or panics. *)

Module Up.

Definition update_all (srv : Server) (filter update : value)
    (docs : list value) : list value :=
  map (fun d => if matches srv filter d then apply_update srv update d else d)
      docs.

Definition respond (srv : Server) (c : Rest.Call) (s : nat * Store)
  : Rest.Answer c * (nat * Store) :=
  match c return Rest.Answer c * (nat * Store) with
  | Rest.mongo_Connect _ _ => (Ok (fst s), (S (fst s), snd s))
  | Rest.Client_Ping _ _ _ => (Ok tt, s)
  | Rest.Client_StartSession _ => (Ok (fst s), (S (fst s), snd s))
  | Rest.Session_WithTransaction _ callback =>
      let r := run (Ref.driver srv) callback (snd s) in
      match out r with
      | Returned (Ok v) => (Returned (Ok v), (fst s, final r))
      | Returned (Err e) => (Returned (Err e), s)
      | Crashed c => (Crashed c, s)
      end
  | Rest.Session_EndSession _ => (tt, s)
  | Rest.Collection_Aggregate _ _ _ => (Ok (Ok (documents (snd s))), s)
  | Rest.Coll_FindOneAndUpdate _ filter update _ =>
      match Ref.matching srv filter (snd s) with
      | doc :: _ =>
          (Ok doc,
           (fst s, mkStore (Ref.update_first srv filter update
                              (documents (snd s)))
                           (live_indexes (snd s))))
      | [] => (Err Ref.ErrNoDocuments, s)
      end
  | Rest.Coll_UpdateMany _ filter update _ =>
      (Ok tt,
       (fst s, mkStore (update_all srv filter update (documents (snd s)))
                       (live_indexes (snd s))))
  | Rest.Coll_InsertOne _ document =>
      (Ok tt,
       (fst s, mkStore (documents (snd s) ++ [document])
                       (live_indexes (snd s))))
  | Rest.Coll_DeleteMany _ filter _ =>
      (Ok (Z.of_nat (length (Ref.matching srv filter (snd s)))),
       (fst s, mkStore (List.filter (fun d => negb (matches srv filter d))
                                    (documents (snd s)))
                       (live_indexes (snd s))))
  | Rest.Coll_CountDocuments _ filter _ =>
      (Ok (Z.of_nat (length (Ref.matching srv filter (snd s)))), s)
  | Rest.Coll_BulkWrite _ _ _ => (Ok (Rest.mkBulkWriteResult 0 0 0), s)
  end.

Definition driver (srv : Server) : Rest.Driver :=
  Rest.mkDriver (nat * Store) (respond srv).

End Up.

(** ** A driver with a canned listing

    The listing of the indexes is answered as told, every other call
    with an error. *)

Module Canned.

Definition refused : error := driver_error "refused".

Definition respond (listing : result Cursor) (c : Cmd) (s : unit)
  : Resp c * unit :=
  (match c return Resp c with
   | CountDocuments _ _ => Err refused
   | Coll_Find _ _ _ => Err refused
   | Coll_FindOne _ _ _ => Err refused
   | Coll_InsertMany _ _ => Err refused
   | Coll_UpdateOne _ _ _ _ => Err refused
   | Indexes_List _ => listing
   | Indexes_DropOne _ _ => Err refused
   | Indexes_CreateOne _ _ => Err refused
   end, s).

Definition driver (listing : result Cursor) : Driver :=
  mkDriver unit (respond listing).

End Canned.

(** ** A cursor that ends on an error

    The driver [d], except that the cursor of a listing of the indexes,
    after the entries [d] hands out, ends on the error [e]. *)
Definition cursor_fails (e : error) (d : Driver) : Driver :=
  mkDriver (State d)
    (fun c =>
       match c return State d -> Resp c * State d with
       | Indexes_List conn => fun s =>
           let '(r, s') := respond d (Indexes_List conn) s in
           (match r with
            | Ok cur => Ok (mkCursor (batch cur) (Some e))
            | Err x => Err x
            end, s')
       | c' => respond d c'
       end).

(** * Properties *)

(** ** Running programs *)

Lemma run_bind {A B} (d : Driver) (m : Prog A) (f : A -> Prog B) (s : State d) :
  run d (m ≫= f) s =
  match out (run d m s) with
  | Returned a =>
      let t := run d (f a) (final (run d m s)) in
      mkRun (out t) (final t) (trace (run d m s) ++ trace t)
  | Crashed c => mkRun (Crashed c) (final (run d m s)) (trace (run d m s))
  end.
Proof.
  revert s. induction m as [a | c | c k IH]; intros s; simpl.
  - by destruct (run d (f a) s).
  - done.
  - destruct (respond d c s) as [r s'].
    change (bind (k r) f) with (k r ≫= f). rewrite IH. simpl.
    by destruct (out (run d (k r) s')).
Qed.

Lemma run_call (d : Driver) (c : Cmd) (s : State d) :
  run d (call c) s =
  mkRun (Returned (fst (respond d c s))) (snd (respond d c s)) [c].
Proof. simpl. by destruct (respond d c s). Qed.

(** One call: unfold the program down to the driver's answer. *)
Ltac one_call :=
  cbv zeta; simpl;
  match goal with
  | |- context [respond ?d ?c ?s] => destruct (respond d c s)
  end; simpl.

(** A program that issues no call leaves the driver's state alone. *)
Lemma run_silent {A} (d : Driver) (p : Prog A) (s : State d) :
  trace (run d p s) = [] -> final (run d p s) = s.
Proof.
  destruct p as [a | c | c k]; simpl; try done.
  by destruct (respond d c s).
Qed.

(** ** FindOne and UpdateOne *)

(** C10. The second variant's [FindOne] does not depend on the options
    it is handed: whatever [o1] and [o2], the two runs are the same, and
    the one call issued is a [FindOne] on the read collection with the
    filter and freshly built empty options. *)
Theorem V2_FindOne_ignores_options :
  forall (d : Driver) (s : State d) (filter : value)
         (o1 o2 : option FindOneOptions),
    run d (V2.FindOne filter o1) s = run d (V2.FindOne filter o2) s /\
    trace (run d (V2.FindOne filter o1) s) =
      [Coll_FindOne readCollection filter (Some new_FindOneOptions)].
Proof.
  intros d s filter o1 o2. split; [done |].
  unfold V2.FindOne. by one_call.
Qed.

(** The first variant hands the caller's options on. *)
Lemma V1_FindOne_passes_options (d : Driver) (s : State d) filter o :
  trace (run d (V1.FindOne filter o) s) = [Coll_FindOne readCollection filter o].
Proof. unfold V1.FindOne. by one_call. Qed.

(** C9, as the code has it. Under the hint-required policy (the second
    variant), [UpdateOne] with an options object that carries no hint
    returns the plain error "miss hint index", issues no call at all,
    and leaves the store as it was. *)
Theorem V2_UpdateOne_requires_hint :
  forall (d : Driver) (s : State d) (filter update : value) (o : UpdateOptions),
    Hint o = None ->
    run d (V2.UpdateOne filter update (Some o)) s =
      mkRun (Returned (Err (errors_New "miss hint index"))) s [].
Proof. intros d s filter update o Hhint. unfold V2.UpdateOne. by rewrite Hhint. Qed.

(** With a hint the write goes out, the update wrapped in [$set]. *)
Lemma V2_UpdateOne_with_hint (d : Driver) (s : State d) filter update o h :
  Hint o = Some h ->
  trace (run d (V2.UpdateOne filter update (Some o)) s) =
    [Coll_UpdateOne writeCollection filter (bson_set update) [Some o]].
Proof.
  intros Hh. unfold V2.UpdateOne. rewrite Hh. by one_call.
Qed.

(** Without options at all the second variant dereferences a nil
    pointer; no write goes out either. *)
Lemma V2_UpdateOne_nil_options (d : Driver) (s : State d) filter update :
  run d (V2.UpdateOne filter update None) s = mkRun (Crashed nil_dereference) s [].
Proof. reflexivity. Qed.

(** The first variant has no such policy: the write always goes out. *)
Lemma V1_UpdateOne_always_writes (d : Driver) (s : State d) filter update opts :
  trace (run d (V1.UpdateOne filter update opts) s) =
    [Coll_UpdateOne writeCollection filter update opts].
Proof. unfold V1.UpdateOne. by one_call. Qed.

(** ** InsertMany *)

(** C8, as the code has it. [InsertMany] has no guard for an empty
    input: it issues exactly one [InsertMany] on the write collection,
    with the slice it was given, and returns what the driver answers.
    For an empty slice the driver answers [ErrEmptySlice] and the store
    keeps its documents. *)
Theorem InsertMany_forwards :
  (forall (d : Driver) (s : State d) (documents : list value),
      run d (InsertMany documents) s =
        let a := respond d (Coll_InsertMany writeCollection documents) s in
        mkRun (Returned (fst a)) (snd a)
              [Coll_InsertMany writeCollection documents]) /\
  (forall (srv : Server) (st : Store),
      run (Ref.driver srv) (InsertMany []) st =
        mkRun (Returned (Err Ref.ErrEmptySlice)) st
              [Coll_InsertMany writeCollection []]).
Proof.
  split.
  - intros d s documents. unfold InsertMany. by one_call.
  - intros srv st. reflexivity.
Qed.

(** The claim as worded fails under the driver: the empty input is
    handed on, and the answer is an error. *)
Lemma InsertMany_empty_not_a_silent_success :
  let r := run (Ref.driver Sample.srv) (InsertMany []) Sample.store25 in
  ~ (out r = Returned (Ok tt) /\ trace r = []).
Proof. simpl. intros [H _]. discriminate H. Qed.

Lemma V2_UpdateOne_requires_hint_witness :
  run (Ref.driver Sample.srv)
      (V2.UpdateOne (VDoc []) (Sample.key "n" 7)
                    (Some (mkUpdateOptions None (Some true))))
      Sample.store25 =
    mkRun (Returned (Err (errors_New "miss hint index"))) Sample.store25 [].
Proof.
  apply (V2_UpdateOne_requires_hint (Ref.driver Sample.srv)). reflexivity.
Defined.

(** C9, as the claim words it, fails: the error returned is the plain
    error "miss hint index", whose text is not "missing required index
    hint"; and with no options object at all, which carries no hint
    either, the call does not return an error but dereferences the nil
    pointer. *)
Lemma V2_UpdateOne_error_as_coded :
  out (run (Ref.driver Sample.srv)
           (V2.UpdateOne VNull (VInt 1) (Some (mkUpdateOptions None None)))
           Sample.store25) =
    Returned (Err (errors_New "miss hint index")) /\
  errors_New "miss hint index" <> errors_New "missing required index hint" /\
  out (run (Ref.driver Sample.srv) (V2.UpdateOne VNull (VInt 1) None)
           Sample.store25) =
    Crashed nil_dereference.
Proof. split; [reflexivity | split; [discriminate | reflexivity]]. Qed.

(** ** Pagination *)

Lemma wrap64_id (z : Z) : in_int64 z -> wrap64 z = z.
Proof.
  unfold in_int64, min_int64, max_int64, wrap64. intros H.
  rewrite Z.mod_small; lia.
Qed.

(** C5, as the code has it. For [page >= 1] and [limit] in [1,100],
    [Init] stores the offset [limit * (page - 1)] as long as that product
    fits an int64; [page < 1] gives the state of [page = 1], for every
    limit; [limit > 100] gives the state of [limit = 100], for every
    page. *)
Theorem Init_offset_and_clamps :
  (forall (p : Pagination) (page limit : Z),
      1 <= page -> 1 <= limit <= 100 -> limit * (page - 1) <= max_int64 ->
      Offset (Init p page limit) = limit * (page - 1)) /\
  (forall (p : Pagination) (page limit : Z),
      page < 1 -> Init p page limit = Init p 1 limit) /\
  (forall (p : Pagination) (page limit : Z),
      limit > 100 -> Init p page limit = Init p page 100).
Proof.
  split; [| split].
  - intros p page limit Hpage Hlimit Hfits. unfold Init. simpl.
    destruct (Z.ltb_spec page 1); [lia |].
    destruct (Z.gtb_spec limit 100); [lia |].
    unfold mul64, sub64.
    rewrite (wrap64_id (page - 1)) by (unfold in_int64, min_int64, max_int64 in *; nia).
    apply wrap64_id. unfold in_int64, min_int64, max_int64 in *. nia.
  - intros p page limit Hpage. unfold Init.
    destruct (Z.ltb_spec page 1); [| lia]. reflexivity.
  - intros p page limit Hlimit. unfold Init.
    destruct (Z.gtb_spec limit 100); [| lia]. reflexivity.
Qed.

Lemma Init_offset_and_clamps_witness :
  Offset (Init Sample.p0 3 20) = 20 * (3 - 1) /\
  Init Sample.p0 (-4) 20 = Init Sample.p0 1 20 /\
  Init Sample.p0 3 250 = Init Sample.p0 3 100.
Proof.
  destruct Init_offset_and_clamps as (Hoff & Hpage & Hlimit).
  split; [| split].
  - apply Hoff; unfold max_int64; lia.
  - apply Hpage; lia.
  - apply Hlimit; lia.
Defined.

(** The product wraps around for a large page: the offset of page
    [2^62] with limit 4 is [-4]. *)
Lemma Init_offset_overflow :
  1 <= 2 ^ 62 <= max_int64 /\ 1 <= 4 <= 100 /\
  Offset (Init Sample.p0 (2 ^ 62) 4) = -4 /\
  Offset (Init Sample.p0 (2 ^ 62) 4) <> 4 * (2 ^ 62 - 1).
Proof. vm_compute. intuition congruence. Qed.

(** The limit is clamped from above only. *)
Lemma Init_keeps_small_limit (p : Pagination) (page limit : Z) :
  limit <= 100 -> PageLimit (Init p page limit) = limit.
Proof. intros H. unfold Init. simpl. destruct (Z.gtb_spec limit 100); [lia | done]. Qed.

(** ** Find *)

(** C7. With a pagination object, [Find] starts with a count of the
    filter on the read collection. When the count succeeds, the
    pagination is initialised from its own page and limit and given the
    total, skip and limit are written into the options, and the one
    other call is the query on the read collection with that filter and
    those options. On page 2 with limit 10 over 25 matching documents
    the result is the documents 11 to 20 and the pagination ends with
    limit 10, offset 10, page 2, 3 pages and 25 records. *)
Theorem Find_with_pagination :
  (forall (d : Driver) (s : State d) (filter : value)
          (opt : option FindOptions) (p : Pagination),
      exists t, trace (run d (Find filter opt (Some p)) s) =
                  CountDocuments readCollection filter :: t) /\
  (forall (d : Driver) (s s1 : State d) (filter : value) (o : FindOptions)
          (p : Pagination) (total : Z),
      respond d (CountDocuments readCollection filter) s = (Ok total, s1) ->
      let p' := SetTotalRecord (Init p (PageCurrent p) (PageLimit p)) total in
      let o' := SetLimit (SetSkip o (Offset p')) (PageLimit p') in
      let r := run d (Find filter (Some o) (Some p)) s in
      trace r = [CountDocuments readCollection filter;
                 Coll_Find readCollection filter (Some o')] /\
      exists x, out r = Returned x /\
                opt_after x = Some o' /\ pagination_after x = Some p') /\
  (forall (srv : Server) (st : Store) (filter : value) (o : FindOptions)
          (p : Pagination),
      length (Ref.matching srv filter st) = 25%nat ->
      PageCurrent p = 2 -> PageLimit p = 10 ->
      let r := run (Ref.driver srv) (Find filter (Some o) (Some p)) st in
      exists x, out r = Returned x /\
                results x = Ok (take 10 (drop 10 (Ref.matching srv filter st))) /\
                pagination_after x = Some (mkPagination 10 10 2 3 25) /\
                final r = st).
Proof.
  split; [| split].
  - intros d s filter opt p. unfold Find.
    change (Vis (CountDocuments readCollection filter) Ret ≫= ?f)
      with (Vis (CountDocuments readCollection filter) (fun r => Ret r ≫= f)).
    simpl. destruct (respond d _ s). eauto.
  - intros d s s1 filter o p total Hcount p' o' r.
    subst r. unfold Find, query. simpl. rewrite Hcount. simpl.
    destruct (respond d _ s1) as [[[docs | e] | e] s2]; simpl;
      (split; [done | eexists; split; [done | done]]).
  - intros srv st filter o p Hlen Hpage Hlimit r.
    subst r. unfold Find, query. simpl. rewrite Hlen, Hpage, Hlimit. simpl.
    eexists. split; [done |]. simpl. split; [| done].
    destruct (decide (10 = 0)); [lia | done].
Qed.

Lemma Find_with_pagination_witness :
  let r := run (Ref.driver Sample.srv)
               (Find VNull (Some (mkFindOptions None None None))
                     (Some (mkPagination 10 0 2 0 0)))
               Sample.store25 in
  trace r = [CountDocuments readCollection VNull;
             Coll_Find readCollection VNull
               (Some (mkFindOptions (Some 10) (Some 10) None))] /\
  exists x, out r = Returned x /\
            results x = Ok (drop 10 (Sample.numbered 20)) /\
            pagination_after x = Some (mkPagination 10 10 2 3 25).
Proof.
  destruct Find_with_pagination as (_ & Hsteps & Hscenario).
  split.
  - refine (proj1 (Hsteps (Ref.driver Sample.srv) Sample.store25 Sample.store25
                          VNull (mkFindOptions None None None)
                          (mkPagination 10 0 2 0 0) 25 _)).
    reflexivity.
  - destruct (Hscenario Sample.srv Sample.store25 VNull
                        (mkFindOptions None None None)
                        (mkPagination 10 0 2 0 0))
      as (x & Hout & Hres & Hpag & _); [reflexivity ..|].
    exists x. split; [exact Hout | split; [exact Hres | exact Hpag]].
Defined.

(** Without options but with a pagination object, [Find] dereferences a
    nil pointer after the count. *)
Lemma Find_nil_options (d : Driver) (s s1 : State d) filter p total :
  respond d (CountDocuments readCollection filter) s = (Ok total, s1) ->
  out (run d (Find filter None (Some p)) s) = Crashed nil_dereference.
Proof. intros H. unfold Find. simpl. by rewrite H. Qed.

(** A failing count ends [Find] before the query. *)
Lemma Find_count_fails (d : Driver) (s s1 : State d) filter opt p e :
  respond d (CountDocuments readCollection filter) s = (Err e, s1) ->
  run d (Find filter opt (Some p)) s =
    mkRun (Returned (mkFound (Err e) opt (Some p))) s1
          [CountDocuments readCollection filter].
Proof. intros H. unfold Find. simpl. by rewrite H. Qed.

(** ** EnsureIndexes: the calls issued *)

Lemma V1_existing_names_spec items acc existing :
  V1.existing_names items acc = Ok existing ->
  forall n, n ∈ existing ->
            n ∈ acc \/ (n <> "_id_"%string /\
                        exists i, Ok i ∈ items /\ index_Name i = n).
Proof.
  revert acc. induction items as [| [i | e] items IH]; intros acc H n Hn; simpl in H.
  - injection H as <-. by left.
  - destruct (IH _ H n Hn) as [Hacc | (Hne & j & Hj & Hname)].
    + destruct (decide (index_Name i ≠ "_id_"%string)) as [Hi | Hi].
      * apply elem_of_union in Hacc as [Hs | Hacc]; [| by left].
        apply elem_of_singleton in Hs. subst n.
        right. split; [done |]. exists i. split; [left | done].
      * by left.
    + right. split; [done |]. exists j. split; [by right | done].
  - discriminate.
Qed.

Lemma V1_expected_names_spec indexes acc n :
  n ∈ V1.expected_names indexes acc <->
  n ∈ acc \/ exists idx, idx ∈ indexes /\ name_of idx = Some n.
Proof.
  revert acc. induction indexes as [| idx indexes IH]; intros acc; simpl.
  - split; [by left | intros [H | (idx & H & _)]; [done | by apply elem_of_nil in H]].
  - rewrite IH. split.
    + intros [H | (j & Hj & Hname)].
      * destruct (name_of idx) as [m |] eqn:E; [| by left].
        apply elem_of_union in H as [H | H]; [| by left].
        apply elem_of_singleton in H. subst m.
        right. exists idx. split; [left | done].
      * right. exists j. split; [by right | done].
    + intros [H | (j & Hj & Hname)].
      * left. destruct (name_of idx); [apply elem_of_union; by right | done].
      * apply elem_of_cons in Hj as [-> | Hj].
        -- left. rewrite Hname. apply elem_of_union. left. by apply elem_of_singleton.
        -- right. by exists j.
Qed.

(** The drop loop of the first variant: the names dropped are, in
    order, those of the list that are not expected, up to the first
    failure. *)
Lemma V1_drop_unexpected_run (d : Driver) expected names (s : State d) :
  let r := run d (V1.drop_unexpected expected names) s in
  exists ds,
    trace r = Indexes_DropOne writeCollection <$> ds /\
    ds `prefix_of` filter (fun n => n ∉ expected) names /\
    (exists x, out r = Returned x) /\
    (out r = Returned (Ok tt) -> ds = filter (fun n => n ∉ expected) names).
Proof.
  revert s. induction names as [| name rest IH]; intros s; simpl.
  - exists []. by repeat split; eauto.
  - rewrite filter_cons. destruct (decide (name ∈ expected)) as [Hin | Hout].
    + rewrite decide_False by (intros H; by apply H). apply IH.
    + rewrite decide_True by done. simpl.
      destruct (respond d _ s) as [[[] | e] s1]; simpl.
      * destruct (IH s1) as (ds & Htr & Hpre & Hret & Hok).
        exists (name :: ds). rewrite Htr. split; [done |].
        split; [by apply prefix_cons |]. split; [done |].
        intros H. by rewrite (Hok H).
      * exists [name]. split; [done |].
        split; [apply prefix_cons, prefix_nil |]. split; [eauto |]. discriminate.
Qed.

(** The create loop of the first variant: one create per descriptor, in
    the order of the slice, up to the first failure. *)
Lemma V1_create_all_run (d : Driver) indexes (s : State d) :
  let r := run d (V1.create_all indexes) s in
  exists cs,
    trace r = Indexes_CreateOne writeCollection <$> cs /\
    cs `prefix_of` indexes /\
    (exists x, out r = Returned x) /\
    (out r = Returned (Ok tt) -> cs = indexes).
Proof.
  revert s. induction indexes as [| idx rest IH]; intros s; simpl.
  - exists []. by repeat split; eauto.
  - destruct (respond d _ s) as [[name | e] s1]; simpl.
    + destruct (IH s1) as (cs & Htr & Hpre & Hret & Hok).
      exists (idx :: cs). rewrite Htr. split; [done |].
      split; [by apply prefix_cons |]. split; [done |].
      intros H. by rewrite (Hok H).
    + exists [idx]. split; [done |].
      split; [apply prefix_cons, prefix_nil |]. split; [eauto |]. discriminate.
Qed.

Lemma drops_app t1 t2 : drops (t1 ++ t2) = drops t1 ++ drops t2.
Proof. apply omap_app. Qed.

Lemma creates_app t1 t2 : creates (t1 ++ t2) = creates t1 ++ creates t2.
Proof. apply omap_app. Qed.

Lemma drops_DropOne c ds : drops (Indexes_DropOne c <$> ds) = ds.
Proof. induction ds as [| n ds IH]; [done |]. cbn. f_equal. exact IH. Qed.

Lemma drops_CreateOne c cs : drops (Indexes_CreateOne c <$> cs) = [].
Proof. induction cs as [| n cs IH]; [done |]. cbn. exact IH. Qed.

Lemma creates_CreateOne c cs : creates (Indexes_CreateOne c <$> cs) = cs.
Proof. induction cs as [| n cs IH]; [done |]. cbn. f_equal. exact IH. Qed.

Lemma creates_DropOne c ds : creates (Indexes_DropOne c <$> ds) = [].
Proof. induction ds as [| n ds IH]; [done |]. cbn. exact IH. Qed.

Lemma reconciles_nil indexes : reconciles indexes [Indexes_List writeCollection] [] [].
Proof.
  split; [done |]. split; [apply not_elem_of_nil |].
  intros i Hi. by apply elem_of_nil in Hi.
Qed.

Lemma V1_EnsureIndexes_run (d : Driver) order indexes (s : State d) :
  let r := run d (V1.EnsureIndexes order indexes) s in
  exists ds cs,
    reconciles indexes (trace r) ds cs /\
    (forall n, n ∈ ds -> n ∉ V1.expected_names indexes ∅) /\
    (exists x, out r = Returned x) /\
    (out r = Returned (Ok tt) -> cs = indexes).
Proof.
  assert (Hnil : forall n : string, n ∈ @nil string -> n ∉ V1.expected_names indexes ∅).
  { intros n Hn. by apply elem_of_nil in Hn. }
  unfold V1.EnsureIndexes. simpl.
  destruct (respond d _ s) as [[cursor | e] s1]; simpl.
  2: { exists [], []. split; [apply reconciles_nil |]. split; [done |].
       split; [eauto | discriminate]. }
  destruct (V1.existing_names (batch cursor) ∅) as [existing | e] eqn:Hex; simpl.
  2: { exists [], []. split; [apply reconciles_nil |]. split; [done |].
       split; [eauto | discriminate]. }
  destruct (cursor_Err cursor) as [e |]; simpl.
  { exists [], []. split; [apply reconciles_nil |]. split; [done |].
    split; [eauto | discriminate]. }
  rewrite run_bind.
  set (expected := V1.expected_names indexes ∅).
  set (names := range_keys order (elements existing)).
  destruct (V1_drop_unexpected_run d expected names s1)
    as (ds & Htr & Hpre & [x Hret] & Hok).
  assert (Hds : forall n, n ∈ ds -> n ∈ existing /\ n ∉ expected).
  { intros n Hn. destruct Hpre as [k Hk].
    assert (Hf : n ∈ filter (fun n => n ∉ expected) names)
      by (rewrite Hk; apply elem_of_app; by left).
    apply list_elem_of_filter in Hf as [Hne Hin]. split; [| done].
    unfold names in Hin. rewrite (range_keys_perm order) in Hin.
    by apply elem_of_elements in Hin. }
  assert (Hid : "_id_"%string ∉ ds).
  { intros Hn. apply Hds in Hn as [Hn _].
    destruct (V1_existing_names_spec _ _ _ Hex _ Hn) as [H | [H _]]; [set_solver | done]. }
  rewrite Hret, Htr. destruct x as [[] | e]; simpl.
  - destruct (V1_create_all_run d indexes
                (final (run d (V1.drop_unexpected expected names) s1)))
      as (cs & Htc & Hpc & Hrc & Hokc).
    exists ds, cs. rewrite Htc. split; [| split; [| split]].
    + split; [done |]. split; [done |].
      intros i Hi. destruct Hpc as [k ->]. apply elem_of_app. by left.
    + intros n Hn. by apply Hds.
    + done.
    + done.
  - exists ds, []. split; [| split; [| split]].
    + split; [done |]. split; [done |].
      intros i Hi. by apply elem_of_nil in Hi.
    + intros n Hn. by apply Hds.
    + eauto.
    + discriminate.
Qed.

Lemma V2_sort_Slice_perm sorter indexes l :
  V2.sort_Slice sorter indexes = Some l -> l ≡ₚ indexes.
Proof.
  unfold V2.sort_Slice. destruct (decide _); [| by intros [= <-]].
  destruct (forallb _ _); [| done]. intros [= <-]. apply sorted_perm.
Qed.

Lemma V2_is_drop_spec indexes name b :
  V2.is_drop indexes name b = Some true ->
  b = true /\ forall idx, idx ∈ indexes -> name_of idx <> Some name.
Proof.
  revert b. induction indexes as [| v rest IH]; intros b; simpl.
  - intros [= ->]. split; [done |]. intros idx H. by apply elem_of_nil in H.
  - destruct (name_of v) as [n |] eqn:Hn; [| done].
    intros H. apply IH in H as [Hb Hrest].
    destruct (decide (n = name)) as [-> | Hne]; [done |].
    split; [done |]. intros idx Hidx.
    apply elem_of_cons in Hidx as [-> | Hidx]; [congruence | by apply Hrest].
Qed.

(** The scan of the second variant issues no call; what it collects
    leaves [_id_] out and holds live names that no descriptor carries. *)
Lemma V2_drop_candidates_run (d : Driver) items indexes acc (s : State d) :
  let r := run d (V2.drop_candidates items indexes acc) s in
  trace r = [] /\ final r = s /\
  forall l, out r = Returned (Ok l) ->
    forall n, n ∈ l ->
      n ∈ acc \/ (n <> "_id_"%string /\
                  forall idx, idx ∈ indexes -> name_of idx <> Some n).
Proof.
  revert acc. induction items as [| [i | e] items IH]; intros acc; simpl.
  - split; [done |]. split; [done |]. intros l [= <-] n Hn. by left.
  - destruct (decide (index_Name i = "_id_"%string)) as [Hid | Hid]; [apply IH |].
    destruct (V2.is_drop indexes (index_Name i) true) as [[|] |] eqn:Hdrop.
    + destruct (IH (acc ++ [index_Name i])) as (Htr & Hfin & Hl).
      split; [done |]. split; [done |]. intros l Hout n Hn.
      destruct (Hl l Hout n Hn) as [Hacc | Hnew]; [| by right].
      apply elem_of_app in Hacc as [Hacc | Hi]; [by left |].
      apply list_elem_of_singleton in Hi. subst n. right. split; [done |].
      by apply (V2_is_drop_spec _ _ _ Hdrop).
    + apply IH.
    + simpl. split; [done |]. split; [done |]. discriminate.
  - split; [done |]. split; [done |]. discriminate.
Qed.

Lemma V2_drop_all_run (d : Driver) dropIndexes (s : State d) :
  let r := run d (V2.drop_all dropIndexes) s in
  exists ds,
    trace r = Indexes_DropOne writeCollection <$> ds /\
    ds `prefix_of` dropIndexes /\
    (exists x, out r = Returned x) /\
    (out r = Returned (Ok tt) -> ds = dropIndexes).
Proof.
  revert s. induction dropIndexes as [| name rest IH]; intros s; simpl.
  - exists []. split; [done |]. split; [done |]. split; [eauto | done].
  - destruct (respond d _ s) as [[[] | e] s1]; simpl.
    + destruct (IH s1) as (ds & Htr & Hpre & Hret & Hok).
      exists (name :: ds). rewrite Htr. split; [done |].
      split; [by apply prefix_cons |]. split; [done |].
      intros H. by rewrite (Hok H).
    + exists [name]. split; [done |].
      split; [apply prefix_cons, prefix_nil |]. split; [eauto |]. discriminate.
Qed.

Lemma V2_create_all_run (d : Driver) indexes (s : State d) :
  let r := run d (V2.create_all indexes) s in
  exists cs,
    trace r = Indexes_CreateOne writeCollection <$> cs /\
    cs `prefix_of` indexes /\
    (exists x, out r = Returned x) /\
    (out r = Returned (Ok tt) -> cs = indexes).
Proof.
  revert s. induction indexes as [| idx rest IH]; intros s; simpl.
  - exists []. split; [done |]. split; [done |]. split; [eauto | done].
  - destruct (respond d _ s) as [[name | e] s1]; simpl.
    + destruct (IH s1) as (cs & Htr & Hpre & Hret & Hok).
      exists (idx :: cs). rewrite Htr. split; [done |].
      split; [by apply prefix_cons |]. split; [done |].
      intros H. by rewrite (Hok H).
    + exists [idx]. split; [done |].
      split; [apply prefix_cons, prefix_nil |]. split; [eauto |]. discriminate.
Qed.

Lemma V2_EnsureIndexes_run (d : Driver) sorter indexes (s : State d) :
  let r := run d (V2.EnsureIndexes sorter indexes) s in
  exists ds cs,
    reconciles indexes (trace r) ds cs /\
    (forall n idx, n ∈ ds -> idx ∈ indexes -> name_of idx <> Some n) /\
    (out r = Returned (Ok tt) -> cs ≡ₚ indexes).
Proof.
  assert (Hnil : forall (n : string) (idx : IndexModel),
             n ∈ @nil string -> idx ∈ indexes -> name_of idx <> Some n).
  { intros n idx Hn. by apply elem_of_nil in Hn. }
  unfold V2.EnsureIndexes. simpl.
  destruct (respond d _ s) as [[cur | e] s1]; simpl.
  2: { exists [], []. split; [apply reconciles_nil |]. split; [done | discriminate]. }
  destruct (V2.sort_Slice sorter indexes) as [ordered |] eqn:Hsort; simpl.
  2: { exists [], []. split; [apply reconciles_nil |]. split; [done | discriminate]. }
  pose proof (V2_sort_Slice_perm _ _ _ Hsort) as Hperm.
  rewrite run_bind.
  destruct (V2_drop_candidates_run d (batch cur) ordered [] s1) as (Htr & Hfin & Hl).
  rewrite Htr, Hfin.
  destruct (out (run d (V2.drop_candidates (batch cur) ordered []) s1))
    as [[dropIndexes | e] | c] eqn:Hout; simpl.
  3: { exists [], []. split; [apply reconciles_nil |]. split; [done | discriminate]. }
  2: { exists [], []. split; [apply reconciles_nil |]. split; [done | discriminate]. }
  assert (Hcand : forall n, n ∈ dropIndexes ->
            n <> "_id_"%string /\ forall idx, idx ∈ indexes -> name_of idx <> Some n).
  { intros n Hn. destruct (Hl _ eq_refl n Hn) as [H | [Hne Hidx]].
    - by apply elem_of_nil in H.
    - split; [done |]. intros idx Hi. apply Hidx. by rewrite Hperm. }
  rewrite run_bind.
  destruct (V2_drop_all_run d dropIndexes s1) as (ds & Htd & Hpd & [x Hrd] & Hokd).
  assert (Hds : forall n, n ∈ ds -> n ∈ dropIndexes).
  { intros n Hn. destruct Hpd as [k ->]. apply elem_of_app. by left. }
  rewrite Hrd, Htd. destruct x as [[] | e]; simpl.
  - destruct (V2_create_all_run d ordered (final (run d (V2.drop_all dropIndexes) s1)))
      as (cs & Htc & Hpc & Hrc & Hokc).
    exists ds, cs. rewrite Htc. split; [| split].
    + split; [done |]. split.
      * intros Hn. by destruct (Hcand _ (Hds _ Hn)).
      * intros i Hi. rewrite <- Hperm. destruct Hpc as [k ->].
        apply elem_of_app. by left.
    + intros n idx Hn. by apply (Hcand _ (Hds _ Hn)).
    + intros H. by rewrite (Hokc H).
  - exists ds, []. split; [| split].
    + split; [done |]. split.
      * intros Hn. by destruct (Hcand _ (Hds _ Hn)).
      * intros i Hi. by apply elem_of_nil in Hi.
    + intros n idx Hn. by apply (Hcand _ (Hds _ Hn)).
    + discriminate.
Qed.

(** C3. Whatever the desired descriptors, whatever the driver answers
    and whatever state it is in, neither variant of [EnsureIndexes] ever
    issues a drop of [_id_], and the only creates it issues are of the
    descriptors it was handed: the primary-key index is never dropped,
    so never created again, also when no descriptor names it. *)
Theorem EnsureIndexes_spares_primary_key :
  forall (d : Driver) (s : State d) (order : MapOrder) (sorter : Sorter)
         (indexes : list IndexModel),
    let r1 := run d (V1.EnsureIndexes order indexes) s in
    let r2 := run d (V2.EnsureIndexes sorter indexes) s in
    (("_id_"%string ∉ drops (trace r1)) /\ creates (trace r1) ⊆ indexes) /\
    (("_id_"%string ∉ drops (trace r2)) /\ creates (trace r2) ⊆ indexes).
Proof.
  intros d s order sorter indexes r1 r2.
  assert (Hshape : forall t ds cs, reconciles indexes t ds cs ->
            ("_id_"%string ∉ drops t) /\ creates t ⊆ indexes).
  { intros t ds cs (-> & Hid & Hcs).
    change (?c :: ?l) with ([c] ++ l).
    rewrite !drops_app, !creates_app, drops_DropOne, drops_CreateOne,
      creates_DropOne, creates_CreateOne, app_nil_r. simpl. done. }
  split.
  - destruct (V1_EnsureIndexes_run d order indexes s) as (ds & cs & H & _). eauto.
  - destruct (V2_EnsureIndexes_run d sorter indexes s) as (ds & cs & H & _). eauto.
Qed.

(** ** EnsureIndexes: the scenario *)

Lemma Permutation_pair {A} (l : list A) (a b : A) :
  l ≡ₚ [a; b] -> l = [a; b] \/ l = [b; a].
Proof. intros H. symmetry in H. by apply Permutation_length_2_inv in H. Qed.

Lemma value_eqb_refl : forall v, value_eqb v v = true.
Proof.
  fix IH 1. intros [| z | s | fs]; simpl.
  - done.
  - by apply bool_decide_eq_true.
  - by apply bool_decide_eq_true.
  - induction fs as [| [k v] fs IHfs]; [done |].
    rewrite IHfs, IH, andb_true_r, andb_true_r. by apply bool_decide_eq_true.
Qed.

(** C1, as the code has it. On the live set [{A, C}] next to the
    primary-key index and the desired set [{A, B}], both variants issue:
    the listing, the drop of C, a create for A and a create for B. The
    create for A finds A with the same keys and changes nothing, so the
    store ends with the primary-key index, A as it was, and B. In every
    run, whatever the input, the listing comes first and all drops come
    before all creates. *)
Theorem EnsureIndexes_scenario :
  (forall (srv : Server) (docs : list value) (order : MapOrder),
      run (Ref.driver srv) (V1.EnsureIndexes order Sample.desired_AB)
          (mkStore docs Sample.live_AC) =
        mkRun (Returned (Ok tt)) (mkStore docs Sample.live_AB)
              [Indexes_List writeCollection;
               Indexes_DropOne writeCollection "C";
               Indexes_CreateOne writeCollection
                 (Sample.named "A" (Sample.key "field" 1));
               Indexes_CreateOne writeCollection
                 (Sample.named "B" (Sample.key "field" (-1)))]) /\
  (forall (srv : Server) (docs : list value) (sorter : Sorter),
      run (Ref.driver srv) (V2.EnsureIndexes sorter Sample.desired_AB)
          (mkStore docs Sample.live_AC) =
        mkRun (Returned (Ok tt)) (mkStore docs Sample.live_AB)
              [Indexes_List writeCollection;
               Indexes_DropOne writeCollection "C";
               Indexes_CreateOne writeCollection
                 (Sample.named "A" (Sample.key "field" 1));
               Indexes_CreateOne writeCollection
                 (Sample.named "B" (Sample.key "field" (-1)))]) /\
  (forall (d : Driver) (s : State d) (order : MapOrder) (sorter : Sorter)
          (indexes : list IndexModel),
      (exists ds cs,
          trace (run d (V1.EnsureIndexes order indexes) s) =
            Indexes_List writeCollection ::
              ((Indexes_DropOne writeCollection <$> ds) ++
               (Indexes_CreateOne writeCollection <$> cs))) /\
      (exists ds cs,
          trace (run d (V2.EnsureIndexes sorter indexes) s) =
            Indexes_List writeCollection ::
              ((Indexes_DropOne writeCollection <$> ds) ++
               (Indexes_CreateOne writeCollection <$> cs)))).
Proof.
  split; [| split].
  - intros srv docs order.
    unfold V1.EnsureIndexes. simpl.
    set (existing := {["C"%string]} ∪ ({["A"%string]} ∪ ∅) : gset string).
    assert (Hnames : range_keys order (elements existing) ≡ₚ ["C"; "A"]%string).
    { rewrite (range_keys_perm order). by vm_compute. }
    apply Permutation_pair in Hnames as [-> | ->]; by vm_compute.
  - intros srv docs sorter.
    assert (Hsort : sorted sorter Sample.desired_AB = Sample.desired_AB).
    { pose proof (sorted_perm sorter Sample.desired_AB) as Hperm.
      pose proof (sorted_by_name sorter Sample.desired_AB) as Hsorted.
      apply Permutation_pair in Hperm as [-> | Hrev]; [done |].
      rewrite Hrev in Hsorted.
      assert (Hnodup : NoDup (name_of <$> Sample.desired_AB)).
      { apply (bool_decide_unpack _). by vm_compute. }
      specialize (Hsorted Hnodup).
      apply Sorted_inv in Hsorted as [_ Hhd]. apply HdRel_inv in Hhd.
      by vm_compute in Hhd. }
    vm_compute in Hsort. vm_compute. rewrite Hsort. reflexivity.
  - intros d s order sorter indexes. split.
    + destruct (V1_EnsureIndexes_run d order indexes s) as (ds & cs & (H & _) & _).
      eauto.
    + destruct (V2_EnsureIndexes_run d sorter indexes s) as (ds & cs & (H & _) & _).
      eauto.
Qed.

(** The claim as worded fails: the calls that may change the store are
    three, the create for A among them. *)
Lemma EnsureIndexes_scenario_issues_create_A :
  let expected_by_claim :=
    [Indexes_DropOne writeCollection "C";
     Indexes_CreateOne writeCollection
       (Sample.named "B" (Sample.key "field" (-1)))] in
  let s := mkStore [] Sample.live_AC in
  mutations (trace (run (Ref.driver Sample.srv)
                        (V1.EnsureIndexes Ref.in_order Sample.desired_AB) s))
    <> expected_by_claim /\
  mutations (trace (run (Ref.driver Sample.srv)
                        (V2.EnsureIndexes Ref.by_name Sample.desired_AB) s))
    <> expected_by_claim.
Proof. split; vm_compute; discriminate. Qed.

(** Drops follow the order of the listing in the second variant, and the
    order of the map iteration in the first: here Z goes before B. *)
Lemma V2_drops_in_listing_order :
  drops (trace (run (Ref.driver Sample.srv) (V2.EnsureIndexes Ref.by_name [])
                    (mkStore [] [Sample.primary;
                                 mkMongoIndex "Z" (Sample.key "z" 1);
                                 mkMongoIndex "B" (Sample.key "b" 1)]))) =
    ["Z"; "B"]%string.
Proof. vm_compute. done. Qed.

Lemma V1_drops_in_map_order :
  let st := mkStore [] [Sample.primary;
                        mkMongoIndex "Z" (Sample.key "z" 1);
                        mkMongoIndex "B" (Sample.key "b" 1)] in
  drops (trace (run (Ref.driver Sample.srv)
                    (V1.EnsureIndexes Ref.in_order []) st)) = ["Z"; "B"]%string /\
  drops (trace (run (Ref.driver Sample.srv)
                    (V1.EnsureIndexes (mkMapOrder reverse reverse_Permutation) [])
                    st)) = ["B"; "Z"]%string.
Proof. vm_compute. done. Qed.

(** ** EnsureIndexes on the reference store *)

Lemma Store_eta (s : Store) : mkStore (documents s) (live_indexes s) = s.
Proof. by destruct s. Qed.

Lemma find_app_Some {A} (f : A -> bool) (l k : list A) (x : A) :
  List.find f l = Some x -> List.find f (l ++ k) = Some x.
Proof.
  induction l as [| y l IH]; simpl; [done |].
  destruct (f y); [done | exact IH].
Qed.

Lemma find_snoc_self {A} (f : A -> bool) (l : list A) (x : A) :
  List.find f l = None -> f x = true -> List.find f (l ++ [x]) = Some x.
Proof.
  induction l as [| y l IH]; simpl; intros Hnone Hx.
  - by rewrite Hx.
  - destruct (f y); [done | by apply IH].
Qed.

(** What a create does to the reference store. *)
Lemma Ref_create_index_Ok idx live name live' :
  Ref.create_index idx live = (Ok name, live') ->
  settled idx live' /\
  (forall idx', settled idx' live -> settled idx' live') /\
  (forall i, i ∈ live' -> i ∈ live \/ index_Name i = Ref.index_name idx).
Proof.
  unfold Ref.create_index.
  destruct (List.find _ live) as [i |] eqn:Hfind.
  - destruct (value_eqb (index_Keys i) (Keys idx)) eqn:Hkeys; [| done].
    intros [= <- <-]. split; [by exists i |]. split; [done | by left].
  - intros [= <- <-]. split; [| split].
    + exists (mkMongoIndex (Ref.index_name idx) (Keys idx)). split.
      * apply find_snoc_self; [done |]. unfold Ref.has_name. simpl.
        by apply bool_decide_eq_true.
      * apply value_eqb_refl.
    + intros idx' (i & Hi & Hk). exists i. split; [by apply find_app_Some | done].
    + intros i Hi. apply elem_of_app in Hi as [Hi | Hi]; [by left |].
      apply list_elem_of_singleton in Hi. subst i. by right.
Qed.

Lemma Ref_create_index_settled idx live :
  settled idx live ->
  Ref.create_index idx live = (Ok (Ref.index_name idx), live).
Proof. intros (i & Hfind & Hkeys). unfold Ref.create_index. by rewrite Hfind, Hkeys. Qed.

(** What a drop does to the reference store. *)
Lemma Ref_drop_index_Ok name live live' :
  Ref.drop_index name live = (Ok tt, live') ->
  forall i, i ∈ live' -> i ∈ live /\ index_Name i <> name.
Proof.
  unfold Ref.drop_index. destruct (decide _); [done |].
  destruct (existsb _ live); [| done]. intros [= <-] i Hi.
  apply list_elem_of_In, filter_In in Hi as [Hi Hname].
  split; [by apply list_elem_of_In |].
  unfold Ref.has_name in Hname. apply negb_true_iff, bool_decide_eq_false in Hname.
  done.
Qed.

(** A successful drop phase leaves only indexes that were there, and
    none whose name was gone through without being expected. *)
Lemma Ref_drop_unexpected_Ok srv expected names (st : Store) :
  let r := run (Ref.driver srv) (V1.drop_unexpected expected names) st in
  out r = Returned (Ok tt) ->
  documents (final r) = documents st /\
  forall i, i ∈ live_indexes (final r) ->
            i ∈ live_indexes st /\ (index_Name i ∈ names -> index_Name i ∈ expected).
Proof.
  revert st. induction names as [| name rest IH]; intros st; simpl.
  - intros _. split; [done |]. intros i Hi. split; [done |].
    intros H. by apply elem_of_nil in H.
  - destruct (decide (name ∈ expected)) as [Hin | Hout].
    + intros Hok. destruct (IH st Hok) as [Hdocs Hlive]. split; [done |].
      intros i Hi. destruct (Hlive i Hi) as [Hst Hrest]. split; [done |].
      intros Hn. apply elem_of_cons in Hn as [-> | Hn]; [done | by apply Hrest].
    + simpl. destruct (Ref.drop_index name (live_indexes st)) as [[[] | e] live'] eqn:Hdrop;
        simpl; [| discriminate].
      intros Hok. destruct (IH _ Hok) as [Hdocs Hlive]. split; [done |].
      intros i Hi. destruct (Hlive i Hi) as [Hst Hrest]. simpl in Hst.
      destruct (Ref_drop_index_Ok _ _ _ Hdrop i Hst) as [Hi0 Hne].
      split; [done |].
      intros Hn. apply elem_of_cons in Hn as [Heq | Hn]; [done | by apply Hrest].
Qed.

(** Creates never unsettle a descriptor. *)
Lemma Ref_create_all_keeps_settled srv indexes idx (st : Store) :
  settled idx (live_indexes st) ->
  settled idx (live_indexes (final (run (Ref.driver srv) (V1.create_all indexes) st))).
Proof.
  revert st. induction indexes as [| j rest IH]; intros st Hs; simpl; [done |].
  destruct (Ref.create_index j (live_indexes st)) as [[name | e] live'] eqn:Hc; simpl.
  - apply IH. simpl. by apply (Ref_create_index_Ok _ _ _ _ Hc).
  - unfold Ref.create_index in Hc.
    destruct (List.find _ (live_indexes st)) as [i |]; [| done].
    destruct (value_eqb _ _); [done |]. by injection Hc as _ <-.
Qed.

(** A successful create phase settles every descriptor and adds only
    indexes named after a descriptor. *)
Lemma Ref_create_all_Ok srv indexes (st : Store) :
  let r := run (Ref.driver srv) (V1.create_all indexes) st in
  out r = Returned (Ok tt) ->
  documents (final r) = documents st /\
  (forall idx, idx ∈ indexes -> settled idx (live_indexes (final r))) /\
  (forall i, i ∈ live_indexes (final r) ->
             i ∈ live_indexes st \/
             exists idx, idx ∈ indexes /\ index_Name i = Ref.index_name idx).
Proof.
  revert st. induction indexes as [| j rest IH]; intros st; simpl.
  - intros _. split; [done |]. split; [| by left].
    intros idx H. by apply elem_of_nil in H.
  - destruct (Ref.create_index j (live_indexes st)) as [[name | e] live'] eqn:Hc;
      simpl; [| discriminate].
    intros Hok. destruct (IH _ Hok) as (Hdocs & Hset & Hnew).
    destruct (Ref_create_index_Ok _ _ _ _ Hc) as (Hj & Hkeep & Hadd).
    split; [done |]. split.
    + intros idx Hidx. apply elem_of_cons in Hidx as [-> | Hidx]; [| by apply Hset].
      by apply (Ref_create_all_keeps_settled srv rest j (mkStore (documents st) live')).
    + intros i Hi. destruct (Hnew i Hi) as [Hold | (idx & Hidx & Hname)].
      * simpl in Hold. destruct (Hadd i Hold) as [H | H]; [by left |].
        right. exists j. split; [left | done].
      * right. exists idx. split; [by right | done].
Qed.

(** On settled descriptors the create phase changes nothing. *)
Lemma Ref_create_all_settled srv indexes (st : Store) :
  (forall idx, idx ∈ indexes -> settled idx (live_indexes st)) ->
  run (Ref.driver srv) (V1.create_all indexes) st =
    mkRun (Returned (Ok tt)) st (Indexes_CreateOne writeCollection <$> indexes).
Proof.
  induction indexes as [| j rest IH]; intros Hall; simpl; [done |].
  rewrite (Ref_create_index_settled j (live_indexes st)) by (apply Hall; left).
  rewrite Store_eta. rewrite IH; [done |].
  intros idx Hidx. apply Hall. by right.
Qed.

(** With every name expected, the drop phase issues nothing. *)
Lemma V1_drop_unexpected_none (d : Driver) expected names (s : State d) :
  (forall n, n ∈ names -> n ∈ expected) ->
  run d (V1.drop_unexpected expected names) s = mkRun (Returned (Ok tt)) s [].
Proof.
  induction names as [| name rest IH]; intros Hall; simpl; [done |].
  rewrite decide_True by (apply Hall; left).
  apply IH. intros n Hn. apply Hall. by right.
Qed.

(** The names collected from a listing that decodes. *)
Lemma V1_existing_names_listing live acc :
  exists existing,
    V1.existing_names (Ok <$> live) acc = Ok existing /\
    forall n, n ∈ existing <->
              n ∈ acc \/ (n <> "_id_"%string /\ exists i, i ∈ live /\ index_Name i = n).
Proof.
  revert acc. induction live as [| i live IH]; intros acc; simpl.
  - exists acc. split; [done |]. intros n. split; [by left |].
    intros [H | (_ & i & Hi & _)]; [done | by apply elem_of_nil in Hi].
  - destruct (IH (if decide (index_Name i ≠ "_id_"%string)
                  then {[index_Name i]} ∪ acc else acc)) as (existing & Heq & Hspec).
    exists existing. split; [done |]. intros n. rewrite Hspec. split.
    + intros [Hacc | (Hne & j & Hj & Hname)].
      * destruct (decide (index_Name i ≠ "_id_"%string)) as [Hi | Hi]; [| by left].
        apply elem_of_union in Hacc as [Hs | Hacc]; [| by left].
        apply elem_of_singleton in Hs. subst n.
        right. split; [done |]. exists i. split; [left | done].
      * right. split; [done |]. exists j. split; [by right | done].
    + intros [Hacc | (Hne & j & Hj & Hname)].
      * left. destruct (decide _); [apply elem_of_union; by right | done].
      * apply elem_of_cons in Hj as [-> | Hj].
        -- left. subst n. rewrite decide_True by done.
           apply elem_of_union. left. by apply elem_of_singleton.
        -- right. split; [done |]. by exists j.
Qed.

(** C2. On the reference store, for descriptors that all carry a name:
    when a run of [EnsureIndexes] has returned without error, a second
    run with the same descriptors on the store as the first one left it
    returns without error too, drops nothing, and leaves the store as it
    is. The calls of the second run are the listing and one create per
    descriptor, each of which finds its index in place and changes
    nothing. The map order of the second run need not be that of the
    first. *)
Theorem V1_EnsureIndexes_idempotent :
  forall (srv : Server) (order order' : MapOrder) (indexes : list IndexModel)
         (st st1 : Store) (t1 : list Cmd),
    Forall (fun idx => is_Some (name_of idx)) indexes ->
    run (Ref.driver srv) (V1.EnsureIndexes order indexes) st =
      mkRun (Returned (Ok tt)) st1 t1 ->
    let r2 := run (Ref.driver srv) (V1.EnsureIndexes order' indexes) st1 in
    out r2 = Returned (Ok tt) /\
    final r2 = st1 /\
    drops (trace r2) = [] /\
    trace r2 = Indexes_List writeCollection ::
                 (Indexes_CreateOne writeCollection <$> indexes).
Proof.
  intros srv order order' indexes st st1 t1 Hnamed Hrun1 r2.
  set (expected := V1.expected_names indexes ∅).
  (* the first run *)
  unfold V1.EnsureIndexes in Hrun1. simpl in Hrun1.
  destruct (V1_existing_names_listing (live_indexes st) ∅)
    as (existing1 & Hex1 & Hspec1).
  change (map Ok (live_indexes st)) with (Ok <$> live_indexes st) in Hrun1.
  rewrite Hex1 in Hrun1. simpl in Hrun1. rewrite run_bind in Hrun1.
  fold expected in Hrun1.
  set (names1 := range_keys order (elements existing1)) in Hrun1.
  pose proof (Ref_drop_unexpected_Ok srv expected names1 st) as Hdrop.
  destruct (V1_drop_unexpected_run (Ref.driver srv) expected names1 st)
    as (ds & _ & _ & [x Hret] & _).
  cbv zeta in Hdrop. rewrite Hret in Hrun1, Hdrop.
  destruct x as [[] | e]; simpl in Hrun1; [| discriminate].
  destruct (Hdrop eq_refl) as [_ Hlive_d]. clear Hdrop.
  set (st_d := final (run (Ref.driver srv) (V1.drop_unexpected expected names1) st))
    in *.
  pose proof (Ref_create_all_Ok srv indexes st_d) as Hcreate. cbv zeta in Hcreate.
  assert (Hout : out (run (Ref.driver srv) (V1.create_all indexes) st_d) =
                 Returned (Ok tt)) by (by injection Hrun1).
  assert (Hfin : final (run (Ref.driver srv) (V1.create_all indexes) st_d) = st1)
    by (by injection Hrun1).
  destruct (Hcreate Hout) as (_ & Hsettled & Hlive_c). rewrite Hfin in *.
  clear Hcreate Hrun1.
  (* every live index is the primary key or is expected *)
  assert (Hexp_idx : forall idx, idx ∈ indexes -> Ref.index_name idx ∈ expected).
  { intros idx Hidx. rewrite Forall_forall in Hnamed.
    destruct (Hnamed idx Hidx) as [n Hn]. unfold Ref.index_name. rewrite Hn. simpl.
    apply V1_expected_names_spec. right. by exists idx. }
  assert (Hlive1 : forall i, i ∈ live_indexes st1 ->
            index_Name i = "_id_"%string \/ index_Name i ∈ expected).
  { intros i Hi. destruct (Hlive_c i Hi) as [Hd | (idx & Hidx & Hname)].
    - destruct (Hlive_d i Hd) as [Hst Hgone].
      destruct (decide (index_Name i = "_id_"%string)) as [Hid | Hid]; [by left |].
      right. apply Hgone. unfold names1. rewrite (range_keys_perm order).
      apply elem_of_elements, Hspec1. right. split; [done |]. by exists i.
    - right. rewrite Hname. by apply Hexp_idx. }
  (* the second run *)
  subst r2. unfold V1.EnsureIndexes. simpl.
  destruct (V1_existing_names_listing (live_indexes st1) ∅)
    as (existing2 & Hex2 & Hspec2).
  change (map Ok (live_indexes st1)) with (Ok <$> live_indexes st1).
  rewrite Hex2. simpl. rewrite run_bind. fold expected.
  rewrite V1_drop_unexpected_none.
  2: { intros n Hn. rewrite (range_keys_perm order') in Hn.
       apply elem_of_elements, Hspec2 in Hn as [Hn | (Hne & i & Hi & Hname)];
         [set_solver |].
       destruct (Hlive1 i Hi) as [Hid | Hexp]; [congruence | by rewrite <- Hname]. }
  simpl. rewrite (Ref_create_all_settled srv indexes st1 Hsettled). simpl.
  split; [done |]. split; [done |]. split; [| done].
  apply drops_CreateOne.
Qed.

Lemma V1_EnsureIndexes_idempotent_witness :
  let r2 := run (Ref.driver Sample.srv)
                (V1.EnsureIndexes Ref.in_order Sample.desired_AB)
                (mkStore [] Sample.live_AB) in
  out r2 = Returned (Ok tt) /\
  final r2 = mkStore [] Sample.live_AB /\
  drops (trace r2) = [] /\
  trace r2 = Indexes_List writeCollection ::
               (Indexes_CreateOne writeCollection <$> Sample.desired_AB).
Proof.
  apply (V1_EnsureIndexes_idempotent Sample.srv Ref.in_order Ref.in_order
           Sample.desired_AB (mkStore [] Sample.live_AC) (mkStore [] Sample.live_AB)
           [Indexes_List writeCollection;
            Indexes_DropOne writeCollection "C";
            Indexes_CreateOne writeCollection
              (Sample.named "A" (Sample.key "field" 1));
            Indexes_CreateOne writeCollection
              (Sample.named "B" (Sample.key "field" (-1)))]).
  - repeat constructor; by eexists.
  - vm_compute. reflexivity.
Defined.

(** ** EnsureIndexes: descriptors without a name *)

Lemma V1_expected_names_skips_unnamed indexes acc :
  V1.expected_names indexes acc =
  V1.expected_names (filter (fun idx => is_Some (name_of idx)) indexes) acc.
Proof.
  revert acc. induction indexes as [| idx rest IH]; intros acc; [done |].
  rewrite filter_cons. simpl. destruct (name_of idx) as [n |] eqn:Hn.
  - rewrite decide_True by eauto. simpl. rewrite Hn. apply IH.
  - rewrite decide_False by (by intros [? ?]). apply IH.
Qed.

(** C4, as the first variant has it. A descriptor with nil [Options] or
    nil [Options.Name] is neither rejected nor reported: it adds no name
    to the expected set, the run never crashes, and whenever the run
    returns without error a create has been issued for every descriptor
    handed in, the unnamed ones included, in the order of the slice. *)
Theorem V1_EnsureIndexes_tolerates_unnamed :
  forall (d : Driver) (s : State d) (order : MapOrder)
         (indexes : list IndexModel),
    let r := run d (V1.EnsureIndexes order indexes) s in
    V1.expected_names indexes ∅ =
      V1.expected_names (filter (fun idx => is_Some (name_of idx)) indexes) ∅ /\
    (exists x, out r = Returned x) /\
    (out r = Returned (Ok tt) -> creates (trace r) = indexes).
Proof.
  intros d s order indexes r.
  split; [apply V1_expected_names_skips_unnamed |].
  destruct (V1_EnsureIndexes_run d order indexes s)
    as (ds & cs & (Htr & _) & _ & Hret & Hok).
  split; [done |]. intros Hout. subst r. rewrite Htr.
  change (?c :: ?l) with ([c] ++ l).
  rewrite !creates_app, creates_DropOne, creates_CreateOne. simpl.
  by apply Hok.
Qed.

Lemma V1_EnsureIndexes_tolerates_unnamed_witness :
  let indexes := [Sample.unnamed (Sample.key "field" 1)] in
  let r := run (Ref.driver Sample.srv) (V1.EnsureIndexes Ref.in_order indexes)
               (mkStore [] [Sample.primary]) in
  creates (trace r) = indexes.
Proof.
  refine (proj2 (proj2 (V1_EnsureIndexes_tolerates_unnamed
                          (Ref.driver Sample.srv) (mkStore [] [Sample.primary])
                          Ref.in_order [Sample.unnamed (Sample.key "field" 1)])) _).
  vm_compute. reflexivity.
Defined.

(** The claim as worded fails: an unnamed descriptor goes through the
    first variant without any error and is created under the name the
    driver makes up for it. *)
Lemma V1_EnsureIndexes_unnamed_is_created :
  let unnamed := Sample.unnamed (Sample.key "field" 1) in
  let r := run (Ref.driver Sample.srv) (V1.EnsureIndexes Ref.in_order [unnamed])
               (mkStore [] [Sample.primary]) in
  name_of unnamed = None /\
  out r = Returned (Ok tt) /\
  trace r = [Indexes_List writeCollection;
             Indexes_CreateOne writeCollection unnamed] /\
  live_indexes (final r) =
    [Sample.primary; mkMongoIndex "field_1" (Sample.key "field" 1)].
Proof. vm_compute. done. Qed.

(** Run again, that index is dropped, its name not being expected, and
    created anew. *)
Lemma V1_EnsureIndexes_unnamed_is_recreated :
  let unnamed := Sample.unnamed (Sample.key "field" 1) in
  let live := [Sample.primary; mkMongoIndex "field_1" (Sample.key "field" 1)] in
  run (Ref.driver Sample.srv) (V1.EnsureIndexes Ref.in_order [unnamed])
      (mkStore [] live) =
    mkRun (Returned (Ok tt)) (mkStore [] live)
          [Indexes_List writeCollection;
           Indexes_DropOne writeCollection "field_1";
           Indexes_CreateOne writeCollection unnamed].
Proof. vm_compute. done. Qed.

(** The second variant dereferences the missing name: in the comparison
    of [sort.Slice] once there are two descriptors, ... *)
Lemma V2_EnsureIndexes_unnamed_crashes_in_sort (d : Driver) (s s1 : State d)
    sorter indexes cur :
  respond d (Indexes_List writeCollection) s = (Ok cur, s1) ->
  (2 <= length indexes)%nat ->
  Exists (fun idx => name_of idx = None) indexes ->
  run d (V2.EnsureIndexes sorter indexes) s =
    mkRun (Crashed nil_dereference) s1 [Indexes_List writeCollection].
Proof.
  intros Hlist Hlen Hex. unfold V2.EnsureIndexes. simpl. rewrite Hlist.
  unfold V2.sort_Slice. rewrite decide_True by done.
  assert (Hall : forallb (fun idx => bool_decide (is_Some (name_of idx))) indexes = false).
  { apply not_true_is_false. intros Hall. rewrite forallb_forall in Hall.
    apply Exists_exists in Hex as (idx & Hidx & Hnone).
    apply list_elem_of_In, Hall, bool_decide_eq_true in Hidx.
    rewrite Hnone in Hidx. by destruct Hidx. }
  by rewrite Hall.
Qed.

(** ... and in the scan of the live indexes with a single one. *)
Lemma V2_EnsureIndexes_unnamed_crashes_in_scan :
  run (Ref.driver Sample.srv)
      (V2.EnsureIndexes Ref.by_name [Sample.unnamed (Sample.key "field" 1)])
      (mkStore [] Sample.live_AC) =
    mkRun (Crashed nil_dereference) (mkStore [] Sample.live_AC)
          [Indexes_List writeCollection].
Proof. vm_compute. done. Qed.

(** ** SetTotalRecord: the ceiling through float64

    [int64(math.Ceil(float64(a) / float64(b)))] against the ceiling of
    [a / b] over the integers. The way there:
    - an integer below [2^53] converts to a normal float without loss,
      a larger int64 to a normal float under a positive exponent;
    - the quotient of two normal floats is the exact quotient rounded to
      nearest: a mantissa [M0] at scale [2^t] with
      [2 * |M0 * b - a * 2^t| <= b];
    - such an [M0] lies in [((c - 1) * 2^t, c * 2^t]] for [c] the
      ceiling of [a / b], because [b < 2^(t + 1)];
    - [math.Ceil] and the conversion back then give [c]. *)

(** *** Digits and shifts *)

Lemma digits2_pos_size p : digits2_pos p = Pos.size p.
Proof. induction p as [p IH | p IH |]; simpl; by rewrite ?IH. Qed.

Lemma digits2_pos_bounds p :
  2 ^ (Z.pos (digits2_pos p) - 1) <= Z.pos p < 2 ^ Z.pos (digits2_pos p).
Proof.
  rewrite digits2_pos_size. split.
  - pose proof (Pos.size_le p) as H.
    assert (H2 : 2 ^ Z.pos (Pos.size p) <= 2 * Z.pos p).
    { change 2 with (Z.pos 2) at 1. rewrite <- Pos2Z.inj_pow. 
      change (2 * Z.pos p) with (Z.pos p~0). by apply Pos2Z.pos_le_pos. }
    replace (Z.pos (Pos.size p)) with (Z.succ (Z.pos (Pos.size p) - 1)) in H2 by lia.
    rewrite Z.pow_succ_r in H2 by lia. lia.
  - pose proof (Pos.size_gt p) as H.
    change 2 with (Z.pos 2). rewrite <- Pos2Z.inj_pow. by apply Pos2Z.pos_lt_pos.
Qed.

(** The number of binary digits is fixed by the bounds. *)
Lemma digits2_pos_unique p d :
  0 < d -> 2 ^ (d - 1) <= Z.pos p < 2 ^ d -> Z.pos (digits2_pos p) = d.
Proof.
  intros Hd [Hlo Hhi]. pose proof (digits2_pos_bounds p) as [Hlo' Hhi'].
  set (d' := Z.pos (digits2_pos p)) in *.
  assert (Hd' : 0 < d') by done.
  destruct (Z.lt_trichotomy d' d) as [Hlt | [Heq | Hgt]]; [| done |].
  - assert (2 ^ d' <= 2 ^ (d - 1)) by (apply Z.pow_le_mono_r; lia). lia.
  - assert (2 ^ d <= 2 ^ (d' - 1)) by (apply Z.pow_le_mono_r; lia). lia.
Qed.

(** Shifting a mantissa to the left. *)
Lemma Pos_iter_xO m k : Z.pos (Pos.iter xO m k) = Z.pos m * 2 ^ Z.pos k.
Proof.
  revert m. induction k using Pos.peano_ind; intros m.
  - simpl. lia.
  - rewrite Pos.iter_succ. rewrite Pos2Z.inj_succ, Z.pow_succ_r by lia.
    change (Z.pos (Pos.iter xO m k)~0) with (2 * Z.pos (Pos.iter xO m k)).
    rewrite IHk. lia.
Qed.

(** *** Conversion of integers

    A normal mantissa that needs no rounding goes through
    [binary_round_aux] untouched. *)
Lemma binary_round_aux_normal s m e :
  Z.pos (digits2_pos m) = 53 -> -1074 <= e <= 971 ->
  binary_round_aux prec emax s (Z.pos m) e loc_Exact = S754_finite s m e.
Proof.
  intros Hd He. unfold binary_round_aux, shr_fexp. 
  assert (Hz : fexp prec emax (Zdigits2 (Z.pos m) + e) - e = 0).
  { unfold Zdigits2. rewrite Hd. unfold fexp, emin, prec, emax. lia. }
  rewrite Hz. simpl. rewrite Hd.
  replace (fexp prec emax (53 + e) - e) with 0 by (unfold fexp, emin, prec, emax; lia).
  simpl. destruct (Z.leb_spec e (emax - prec)); [done |]. unfold emax, prec in *. lia.
Qed.

(** [float64(a)] for [0 < a < 2^53]: the mantissa [a * 2^k] on 53
    digits, under the exponent [-k]. No bit is lost. *)
Lemma float64_of_pos (a : Z) :
  0 < a < 2 ^ 53 ->
  exists m k, float64_of_int64 a = S754_finite false m (- k) /\
              0 <= k <= 52 /\ Z.pos m = a * 2 ^ k /\
              Z.pos (digits2_pos m) = 53.
Proof.
  intros [Hpos Hlt]. destruct a as [| p |]; [lia | | lia].
  unfold float64_of_int64, binary_normalize, binary_round, shl_align.
  pose proof (digits2_pos_bounds p) as [Hlo Hhi].
  set (d := Z.pos (digits2_pos p)) in *.
  assert (Hd : 1 <= d <= 53).
  { split; [unfold d; lia |].
    destruct (Z.le_gt_cases d 53) as [H | H]; [done |].
    assert (2 ^ 53 <= 2 ^ (d - 1)) by (apply Z.pow_le_mono_r; lia). lia. }
  assert (Hf : fexp prec emax (d + 0) = d - 53).
  { unfold fexp, emin, prec, emax. lia. }
  rewrite Hf.
  destruct (d - 53 - 0) as [| q | q] eqn:Hq; [| lia |].
  - rewrite binary_round_aux_normal; [| unfold d in *; lia | lia].
    exists p, 0. replace (d - 53) with 0 by lia. split; [done |].
    split; [lia |]. split; [lia |]. unfold d in *. lia.
  - assert (Hq' : Z.pos q = 53 - d) by lia.
    assert (Hm : Z.pos (Pos.iter xO p q) = Z.pos p * 2 ^ (53 - d)).
    { rewrite Pos_iter_xO. by rewrite Hq'. }
    assert (Hdig : Z.pos (digits2_pos (Pos.iter xO p q)) = 53).
    { apply digits2_pos_unique; [lia |]. rewrite Hm.
      assert (H52 : 2 ^ (53 - 1) = 2 ^ (d - 1) * 2 ^ (53 - d)).
      { rewrite <- Z.pow_add_r by lia. f_equal. lia. }
      assert (H53 : 2 ^ 53 = 2 ^ d * 2 ^ (53 - d)).
      { rewrite <- Z.pow_add_r by lia. f_equal. lia. }
      assert (0 < 2 ^ (53 - d)) by (apply Z.pow_pos_nonneg; lia).
      rewrite H52, H53. split.
      - apply Z.mul_le_mono_nonneg_r; [lia | done].
      - apply Z.mul_lt_mono_pos_r; [done | done]. }
    rewrite binary_round_aux_normal; [| done | lia].
    exists (Pos.iter xO p q), (53 - d). replace (- (53 - d)) with (d - 53) by lia.
    split; [done |]. split; [lia |]. split; [done | done].
Qed.

(** *** Rounding to nearest even *)

Lemma new_location_loc_of D r :
  0 < D -> 0 <= r < D -> new_location D r = loc_of r D.
Proof.
  intros HD Hr. unfold new_location, loc_of.
  destruct (Z.even D) eqn:Heven; unfold new_location_even, new_location_odd.
  - done.
  - destruct (Z.eqb_spec r 0); [done |]. f_equal.
    assert (Hodd : Z.odd D = true) by (by rewrite <- Z.negb_even, Heven).
    apply Z.odd_spec in Hodd as [j Hj].
    destruct (Z.compare_spec (2 * r + 1) D), (Z.compare_spec (2 * r) D); try done; lia.
Qed.

(** Rounding a quotient [q] with remainder [r] lands within half a
    unit of the exact value [(q * D + r) / D]. *)
Lemma round_nearest_even_loc_of q r D :
  0 < D -> 0 <= r < D ->
  let M := round_nearest_even q (loc_of r D) in
  q <= M <= q + 1 /\ 2 * Z.abs (M * D - (q * D + r)) <= D.
Proof.
  intros HD Hr. unfold loc_of. destruct (Z.eqb_spec r 0) as [-> | Hne]; simpl.
  - lia.
  - destruct (Z.compare_spec (2 * r) D); simpl; [destruct (Z.even q) | |]; lia.
Qed.

Lemma binary_round_aux_tail s mx ex lx :
  binary_round_aux prec emax s mx ex lx =
  let '(mrs', e') := shr_fexp prec emax mx ex lx in
  round_tail s (shr_m mrs') e' (loc_of_shr_record mrs').
Proof. reflexivity. Qed.

Lemma Zdigits2_unique z d :
  0 < d -> 2 ^ (d - 1) <= z < 2 ^ d -> Zdigits2 z = d.
Proof.
  intros Hd Hz. assert (0 < 2 ^ (d - 1)) by (apply Z.pow_pos_nonneg; lia).
  destruct z as [| p |]; [lia | | lia]. simpl. by apply digits2_pos_unique.
Qed.

(** The tail on a 53-digit mantissa: the rounded mantissa, shifted once
    more when it has reached [2^53]. *)
Lemma round_tail_53 s q l e :
  2 ^ 52 <= q < 2 ^ 53 -> -1074 <= e <= 970 ->
  exists M E, round_tail s q e l = S754_finite s M E /\
              (E = e \/ E = e + 1) /\
              Z.pos M * 2 ^ (E - e) = round_nearest_even q l /\
              Z.pos (digits2_pos M) = 53.
Proof.
  intros Hq He. unfold round_tail, shr_fexp.
  set (M0 := round_nearest_even q l).
  assert (HM0 : M0 = q \/ M0 = q + 1).
  { unfold M0, round_nearest_even. destruct l as [| []]; try destruct (Z.even q); lia. }
  destruct (Z.lt_ge_cases M0 (2 ^ 53)) as [Hlt | Hge].
  - rewrite (Zdigits2_unique M0 53) by lia.
    replace (fexp prec emax (53 + e) - e) with 0 by (unfold fexp, emin, prec, emax; lia).
    simpl. destruct M0 as [| M |] eqn:HM; [lia | | lia].
    destruct (Z.leb_spec e (emax - prec)); [| unfold emax, prec in *; lia].
    exists M, e. split; [done |]. split; [by left |].
    split; [rewrite Z.sub_diag; simpl; lia |].
    apply digits2_pos_unique; lia.
  - assert (HM : M0 = 9007199254740992).
    { change (2 ^ 53) with 9007199254740992 in *. lia. }
    rewrite HM. change (Zdigits2 9007199254740992) with 54.
    replace (fexp prec emax (54 + e) - e) with 1 by (unfold fexp, emin, prec, emax; lia).
    simpl.
    destruct (Z.leb_spec (e + 1) (emax - prec)); [| unfold emax, prec in *; lia].
    exists 4503599627370496%positive, (e + 1). split; [done |]. split; [by right |].
    replace (e + 1 - e) with 1 by lia. done.
Qed.

(** One step of [shr] on a mantissa with its location: the mantissa is
    halved and the location is that of the remainder of the division by
    [2 * D]. *)
Lemma shr_1_loc_of q r D :
  0 < D -> 0 <= r < D -> 0 <= q ->
  let mrs := shr_1 (shr_record_of_loc q (loc_of r D)) in
  shr_m mrs = q / 2 /\
  loc_of_shr_record mrs = loc_of (q mod 2 * D + r) (2 * D).
Proof.
  intros HD Hr Hq.
  assert (Hrec : shr_record_of_loc q (loc_of r D) =
                 Build_shr_record q (negb (2 * r <? D)) (negb (r =? 0) && negb (2 * r =? D))).
  { unfold loc_of. destruct (Z.eqb_spec r 0) as [-> | Hne].
    - replace (2 * 0 <? D) with true by (symmetry; apply Z.ltb_lt; lia). done.
    - destruct (Z.compare_spec (2 * r) D) as [H | H | H]; simpl.
      + replace (2 * r <? D) with false by (symmetry; apply Z.ltb_ge; lia).
        replace (2 * r =? D) with true by (symmetry; apply Z.eqb_eq; lia). done.
      + replace (2 * r <? D) with true by (symmetry; apply Z.ltb_lt; lia).
        replace (2 * r =? D) with false by (symmetry; apply Z.eqb_neq; lia). done.
      + replace (2 * r <? D) with false by (symmetry; apply Z.ltb_ge; lia).
        replace (2 * r =? D) with false by (symmetry; apply Z.eqb_neq; lia). done. }
  rewrite Hrec. clear Hrec.
  assert (Hsticky : negb (2 * r <? D) || negb (r =? 0) && negb (2 * r =? D) = negb (r =? 0)).
  { destruct (Z.ltb_spec (2 * r) D), (Z.eqb_spec r 0), (Z.eqb_spec (2 * r) D); try done; lia. }
  assert (Hcase : forall (b : bool) (h : Z), 0 <= h ->
            loc_of_shr_record (Build_shr_record h b (negb (r =? 0))) =
            loc_of ((if b then 1 else 0) * D + r) (2 * D)).
  { intros b h Hh. unfold loc_of, loc_of_shr_record.
    destruct b; destruct (Z.eqb_spec r 0) as [-> | Hne]; cbv beta iota delta [negb].
    - destruct (Z.eqb_spec (1 * D + 0) 0); [lia |].
      f_equal. symmetry. apply Z.compare_eq_iff. lia.
    - destruct (Z.eqb_spec (1 * D + r) 0); [lia |].
      f_equal. symmetry. apply Z.compare_gt_iff. lia.
    - destruct (Z.eqb_spec (0 * D + 0) 0); [done | lia].
    - destruct (Z.eqb_spec (0 * D + r) 0); [lia |].
      f_equal. symmetry. apply Z.compare_lt_iff. lia. }
  destruct q as [| [p | p |] |]; [| | | | lia];
    unfold shr_1; cbv beta iota; rewrite Hsticky; cbn [shr_m].
  - split; [done |]. by rewrite (Hcase false) by lia.
  - (* an odd mantissa *)
    assert (Hdiv : Z.pos p~1 / 2 = Z.pos p).
    { rewrite Pos2Z.inj_xI. symmetry. apply (Z.div_unique _ _ _ 1); lia. }
    assert (Hmod : Z.pos p~1 mod 2 = 1).
    { rewrite Pos2Z.inj_xI. symmetry. apply (Z.mod_unique _ _ (Z.pos p)); lia. }
    rewrite Hdiv, Hmod. split; [done |]. by rewrite (Hcase true) by lia.
  - (* an even mantissa *)
    assert (Hdiv : Z.pos p~0 / 2 = Z.pos p).
    { rewrite Pos2Z.inj_xO. symmetry. apply (Z.div_unique _ _ _ 0); lia. }
    assert (Hmod : Z.pos p~0 mod 2 = 0).
    { rewrite Pos2Z.inj_xO. symmetry. apply (Z.mod_unique _ _ (Z.pos p)); lia. }
    rewrite Hdiv, Hmod. split; [done |]. by rewrite (Hcase false) by lia.
  - split; [done |]. by rewrite (Hcase true) by lia.
Qed.

(** *** Division *)

Lemma shr_record_of_loc_m q l : shr_m (shr_record_of_loc q l) = q.
Proof. by destruct l as [| []]. Qed.

Lemma loc_of_shr_record_of_loc q l :
  loc_of_shr_record (shr_record_of_loc q l) = l.
Proof. by destruct l as [| []]. Qed.

(** The quotient of two positive normal floats: a mantissa [M] under an
    exponent [E] which, brought to the scale [2^(e1 - e2 - j)] with [j]
    either 52 or 53, lies within half a unit of [m1 * 2^j / m2]. *)
Lemma float64_div_normal m1 e1 m2 e2 :
  Z.pos (digits2_pos m1) = 53 -> Z.pos (digits2_pos m2) = 53 ->
  -52 <= e1 <= 11 -> -52 <= e2 <= 11 ->
  exists M E j,
    float64_div (S754_finite false m1 e1) (S754_finite false m2 e2) =
      S754_finite false M E /\
    (j = 52 \/ j = 53) /\
    (E = e1 - e2 - j \/ E = e1 - e2 - j + 1) /\
    2 * Z.abs (Z.pos M * 2 ^ (E - (e1 - e2 - j)) * Z.pos m2 - Z.pos m1 * 2 ^ j)
      <= Z.pos m2.
Proof.
  intros Hd1 Hd2 He1 He2.
  pose proof (digits2_pos_bounds m1) as Hm1. rewrite Hd1 in Hm1.
  pose proof (digits2_pos_bounds m2) as Hm2. rewrite Hd2 in Hm2.
  change (53 - 1) with 52 in *.
  unfold float64_div, SFdiv, SFdiv_core_binary, Zdigits2.
  rewrite Hd1, Hd2.
  set (e' := e1 - e2 - 53).
  replace (Z.min (fexp prec emax (53 + e1 - (53 + e2))) (e1 - e2)) with e'
    by (unfold fexp, emin, prec, emax, e'; lia).
  replace (e1 - e2 - e') with 53 by (unfold e'; lia).
  rewrite Z.shiftl_mul_pow2 by lia.
  pose proof (Z_div_mod (Z.pos m1 * 2 ^ 53) (Z.pos m2) eq_refl) as Hdiv.
  destruct (Z.div_eucl (Z.pos m1 * 2 ^ 53) (Z.pos m2)) as [q r].
  destruct Hdiv as [HN Hr].
  simpl xorb.
  rewrite new_location_loc_of by lia.
  assert (Hq : 2 ^ 52 <= q < 2 ^ 54).
  { change (2 ^ 54) with (4 * 2 ^ 52). change (2 ^ 53) with (2 * 2 ^ 52) in *.
    set (c := 2 ^ 52) in *. assert (0 < c) by done. clearbody c. nia. }
  rewrite binary_round_aux_tail. unfold shr_fexp.
  destruct (Z.lt_ge_cases q (2 ^ 53)) as [Hlt | Hge].
  - rewrite (Zdigits2_unique q 53) by lia.
    replace (fexp prec emax (53 + e') - e') with 0
      by (unfold fexp, emin, prec, emax, e'; lia).
    cbn [shr]. rewrite shr_record_of_loc_m, loc_of_shr_record_of_loc.
    destruct (round_tail_53 false q (loc_of r (Z.pos m2)) e')
      as (M & E & Heq & HE & HM & _); [lia | unfold e'; lia |].
    exists M, E, 53. split; [done |]. split; [by right |].
    fold e'. split; [done |]. rewrite HM.
    destruct (round_nearest_even_loc_of q r (Z.pos m2)) as [_ Hab]; [lia | lia |].
    replace (Z.pos m1 * 2 ^ 53) with (q * Z.pos m2 + r) by lia. done.
  - rewrite (Zdigits2_unique q 54) by lia.
    replace (fexp prec emax (54 + e') - e') with 1
      by (unfold fexp, emin, prec, emax, e'; lia).
    cbn [shr].
    destruct (shr_1_loc_of q r (Z.pos m2)) as [Hm Hl]; [lia | lia | lia |].
    change (SpecFloat.iter_pos shr_1 1 ?x) with (shr_1 x).
    rewrite Hm, Hl.
    assert (Hq2 : q = 2 * (q / 2) + q mod 2) by (apply Z.div_mod; lia).
    assert (Hmod : 0 <= q mod 2 < 2) by (apply Z.mod_pos_bound; lia).
    assert (Hhalf : 2 ^ 52 <= q / 2 < 2 ^ 53).
    { change (2 ^ 54) with (2 * 2 ^ 53) in *. change (2 ^ 53) with (2 * 2 ^ 52) in *. lia. }
    destruct (round_tail_53 false (q / 2) (loc_of (q mod 2 * Z.pos m2 + r) (2 * Z.pos m2))
                (e' + 1))
      as (M & E & Heq & HE & HM & _); [lia | unfold e'; lia |].
    exists M, E, 52. split; [done |]. split; [by left |].
    replace (e1 - e2 - 52) with (e' + 1) by (unfold e'; lia).
    split; [done |]. rewrite HM.
    destruct (round_nearest_even_loc_of (q / 2) (q mod 2 * Z.pos m2 + r) (2 * Z.pos m2))
      as [_ Hab]; [lia | nia |].
    set (M0 := round_nearest_even (q / 2) (loc_of (q mod 2 * Z.pos m2 + r) (2 * Z.pos m2)))
      in *.
    change (2 ^ 53) with (2 * 2 ^ 52) in HN.
    replace (M0 * (2 * Z.pos m2) - (q / 2 * (2 * Z.pos m2) + (q mod 2 * Z.pos m2 + r)))
      with (2 * (M0 * Z.pos m2 - Z.pos m1 * 2 ^ 52)) in Hab by nia.
    lia.
Qed.

(** *** Ceilings *)

Lemma ceil_unique (m d c : Z) :
  0 < d -> (c - 1) * d < m <= c * d -> - ((- m) / d) = c.
Proof.
  intros Hd Hm. rewrite <- (Z.div_unique (- m) d (- c) (c * d - m)); lia.
Qed.

Lemma ceil_div_bounds (a b : Z) :
  0 < b -> (ceil_div a b - 1) * b < a <= ceil_div a b * b.
Proof.
  intros Hb. unfold ceil_div.
  pose proof (Z.div_mod (- a) b) as Hdm.
  pose proof (Z.mod_pos_bound (- a) b Hb) as Hmod. nia.
Qed.

(** [int64(math.Ceil(x))] for a positive finite [x = M * 2^E] whose
    ceiling is below [2^53]: the ceiling. *)
Lemma int64_Ceil_finite (M : positive) (E n : Z) :
  0 < n < 2 ^ 53 ->
  n = (if 0 <=? E then Z.pos M * 2 ^ E else ceil_shr (Z.pos M) (- E)) ->
  int64_of_float64 (math_Ceil (S754_finite false M E)) = n.
Proof.
  intros Hn Heq. unfold math_Ceil.
  assert (Hfit : (min_int64 <=? n) && (n <=? max_int64) = true).
  { apply andb_true_iff. split; apply Z.leb_le; unfold min_int64, max_int64.
    - lia.
    - change (2 ^ 63 - 1) with (1024 * 2 ^ 53 - 1). lia. }
  destruct (Z.leb_spec 0 E) as [HE | HE].
  - unfold int64_of_float64. destruct (Z.leb_spec 0 E); [| lia].
    rewrite <- Heq. by rewrite Hfit.
  - cbv zeta. rewrite <- Heq.
    destruct (Z.eqb_spec n 0); [lia |].
    destruct (float64_of_pos n Hn) as (m & k & Hf & Hk & Hm & _).
    unfold float64_of_int64 in Hf. rewrite Hf.
    unfold int64_of_float64.
    assert (Hval : (if 0 <=? - k then Z.pos m * 2 ^ (- k)
                    else Z.pos m / 2 ^ (- - k)) = n).
    { destruct (Z.leb_spec 0 (- k)).
      - replace k with 0 in * by lia. simpl. lia.
      - rewrite Z.opp_involutive, Hm. apply Z.div_mul.
        apply Z.pow_nonzero; lia. }
    rewrite Hval. by rewrite Hfit.
Qed.

(** From the rounded quotient to the ceiling. *)
Lemma ceil_of_rounded (a b M0 t c : Z) :
  0 < b -> 0 <= t -> b < 2 ^ (t + 1) ->
  (c - 1) * b < a <= c * b ->
  2 * Z.abs (M0 * b - a * 2 ^ t) <= b ->
  (c - 1) * 2 ^ t < M0 <= c * 2 ^ t.
Proof.
  intros Hb Ht Hbt Hc HR.
  rewrite Z.pow_add_r in Hbt by lia. change (2 ^ 1) with 2 in Hbt.
  assert (0 < 2 ^ t) by (apply Z.pow_pos_nonneg; lia).
  set (T := 2 ^ t) in *. clearbody T. split.
  - assert (Ha : (c - 1) * b + 1 <= a) by lia.
    assert (H1 : ((c - 1) * b + 1) * T <= a * T) by (apply Z.mul_le_mono_nonneg_r; lia).
    assert (H2 : 2 * (a * T - M0 * b) <= b) by lia.
    assert (H3 : (c - 1) * T * b < M0 * b) by nia.
    apply Z.mul_lt_mono_pos_r in H3; lia.
  - assert (H1 : a * T <= c * b * T) by (apply Z.mul_le_mono_nonneg_r; lia).
    assert (H2 : 2 * (M0 * b - a * T) <= b) by lia.
    assert (H3 : M0 * b < (c * T + 1) * b) by nia.
    apply Z.mul_lt_mono_pos_r in H3; lia.
Qed.

(** *** Int64 values above [2^53] *)

Lemma shr_1_m mrs : 0 <= shr_m mrs -> shr_m (shr_1 mrs) = shr_m mrs / 2.
Proof.
  destruct mrs as [m r s]. cbn [shr_m]. intros Hm.
  destruct m as [| [p | p |] |]; [| | | | lia]; unfold shr_1; cbn [shr_m].
  - done.
  - rewrite Pos2Z.inj_xI. apply (Z.div_unique _ _ _ 1); lia.
  - rewrite Pos2Z.inj_xO. apply (Z.div_unique _ _ _ 0); lia.
  - done.
Qed.

Lemma iter_shr_1_m n mrs :
  0 <= shr_m mrs ->
  shr_m (SpecFloat.iter_pos shr_1 n mrs) = shr_m mrs / 2 ^ Z.pos n.
Proof.
  revert mrs. induction n as [n IH | n IH |]; intros mrs Hm; cbn [SpecFloat.iter_pos].
  - assert (H1 : 0 <= shr_m (shr_1 mrs)).
    { rewrite shr_1_m by done. apply Z.div_pos; lia. }
    assert (H2 : 0 <= shr_m (SpecFloat.iter_pos shr_1 n (shr_1 mrs))).
    { rewrite IH by done. apply Z.div_pos; [done | apply Z.pow_pos_nonneg; lia]. }
    rewrite IH, IH, shr_1_m by done.
    assert (Hp : 0 < 2 ^ Z.pos n) by (apply Z.pow_pos_nonneg; lia).
    assert (HxI : 2 ^ Z.pos n~1 = 2 * 2 ^ Z.pos n * 2 ^ Z.pos n).
    { rewrite (Pos2Z.inj_xI n).
      replace (2 * Z.pos n + 1) with (1 + Z.pos n + Z.pos n) by lia.
      rewrite !Z.pow_add_r by lia. done. }
    rewrite HxI, !Z.div_div by lia. f_equal. lia.
  - assert (H2 : 0 <= shr_m (SpecFloat.iter_pos shr_1 n mrs)).
    { rewrite IH by done. apply Z.div_pos; [done | apply Z.pow_pos_nonneg; lia]. }
    rewrite IH, IH by done.
    assert (Hp : 0 < 2 ^ Z.pos n) by (apply Z.pow_pos_nonneg; lia).
    assert (HxO : 2 ^ Z.pos n~0 = 2 ^ Z.pos n * 2 ^ Z.pos n).
    { rewrite (Pos2Z.inj_xO n).
      replace (2 * Z.pos n) with (Z.pos n + Z.pos n) by lia.
      rewrite !Z.pow_add_r by lia. done. }
    rewrite HxO, !Z.div_div by lia. f_equal.
  - rewrite shr_1_m by done. done.
Qed.

(** The float of a large int64: a normal mantissa under a positive
    exponent. *)
Lemma float64_of_large (b : Z) :
  2 ^ 53 <= b <= max_int64 ->
  exists m e, float64_of_int64 b = S754_finite false m e /\
              1 <= e <= 11 /\ Z.pos (digits2_pos m) = 53.
Proof.
  intros [Hlo Hhi]. unfold max_int64 in Hhi.
  destruct b as [| p |]; [done | | done].
  unfold float64_of_int64, binary_normalize, binary_round, shl_align.
  pose proof (digits2_pos_bounds p) as [Hdlo Hdhi].
  set (d := Z.pos (digits2_pos p)) in *.
  assert (Hd : 54 <= d <= 63).
  { split.
    - destruct (Z.le_gt_cases 54 d) as [H | H]; [done |].
      assert (2 ^ d <= 2 ^ 53) by (apply Z.pow_le_mono_r; lia). lia.
    - destruct (Z.le_gt_cases d 63) as [H | H]; [done |].
      assert (2 ^ 63 <= 2 ^ (d - 1)) by (apply Z.pow_le_mono_r; lia). lia. }
  assert (Hf : fexp prec emax (d + 0) = d - 53).
  { unfold fexp, emin, prec, emax. lia. }
  rewrite Hf.
  destruct (d - 53 - 0) as [| n | n] eqn:Hn; [lia | | lia].
  rewrite binary_round_aux_tail. unfold shr_fexp, Zdigits2. fold d. rewrite Hf.
  rewrite Z.sub_0_r in *. rewrite Hn. cbn [shr].
  rewrite iter_shr_1_m by (rewrite shr_record_of_loc_m; lia).
  rewrite shr_record_of_loc_m.
  assert (Hq : 2 ^ 52 <= Z.pos p / 2 ^ Z.pos n < 2 ^ 53).
  { rewrite <- Hn.
    assert (Hp : 0 < 2 ^ (d - 53)) by (apply Z.pow_pos_nonneg; lia).
    assert (H1 : 2 ^ (d - 1) = 2 ^ 52 * 2 ^ (d - 53)).
    { rewrite <- Z.pow_add_r by lia. f_equal. lia. }
    assert (H2 : 2 ^ d = 2 ^ 53 * 2 ^ (d - 53)).
    { rewrite <- Z.pow_add_r by lia. f_equal. lia. }
    split.
    - apply Z.div_le_lower_bound; lia.
    - apply Z.div_lt_upper_bound; lia. }
  match goal with
  | |- context [round_tail false ?q ?e ?l] =>
      destruct (round_tail_53 false q l e) as (M & E & Heq & HE & _ & HdM);
        [done | lia |]
  end.
  exists M, E. split; [done |]. split; [lia | done].
Qed.

(** *** Putting it together

    From the bounds on the rounded mantissa to the integer Go gets. *)
Lemma int64_Ceil_rounded (M : positive) (E t delta c : Z) :
  0 <= t -> delta = 0 \/ delta = 1 -> E = delta - t -> 0 < c < 2 ^ 53 ->
  (c - 1) * 2 ^ t < Z.pos M * 2 ^ delta <= c * 2 ^ t ->
  int64_of_float64 (math_Ceil (S754_finite false M E)) = c.
Proof.
  intros Ht Hdelta HEt Hc HM0.
  assert (Hpt : 0 < 2 ^ t) by (apply Z.pow_pos_nonneg; lia).
  apply int64_Ceil_finite; [done |].
  destruct Hdelta as [Hd | Hd]; rewrite Hd in HM0, HEt.
  - rewrite Z.pow_0_r, Z.mul_1_r in HM0.
    destruct (Z.leb_spec 0 E).
    + replace t with 0 in * by lia. replace E with 0 by lia.
      rewrite Z.pow_0_r in *. lia.
    + unfold ceil_shr. replace (- E) with t by lia. symmetry.
      by apply ceil_unique.
  - change (2 ^ 1) with 2 in HM0.
    destruct (Z.leb_spec 0 E).
    + assert (Hcases : t = 0 \/ t = 1) by lia.
      destruct Hcases as [Ht0 | Ht1].
      * rewrite Ht0 in *. replace E with 1 by lia.
        change (2 ^ 1) with 2. rewrite Z.pow_0_r in HM0. lia.
      * rewrite Ht1 in *. replace E with 0 by lia.
        change (2 ^ 1) with 2 in HM0. rewrite Z.pow_0_r. lia.
    + unfold ceil_shr. replace (- E) with (t - 1) by lia. symmetry.
      apply ceil_unique; [apply Z.pow_pos_nonneg; lia |].
      replace (2 ^ t) with (2 * 2 ^ (t - 1)) in HM0.
      2: { rewrite <- Z.pow_succ_r by lia. f_equal. lia. }
      lia.
Qed.

(** The quotient of the float of [a] by a normal float standing for
    [bb] (up to the scaling [2^u / 2^v]), ceiled and converted. *)
Lemma int64_Ceil_div_normal (a bb : Z) (m2 : positive) (e2 u v : Z) :
  0 < a < 2 ^ 53 -> 0 < bb ->
  Z.pos (digits2_pos m2) = 53 -> -52 <= e2 <= 11 ->
  0 <= u -> 0 <= v -> e2 = u - v -> Z.pos m2 * 2 ^ u = bb * 2 ^ v ->
  int64_of_float64
    (math_Ceil (float64_div (float64_of_int64 a) (S754_finite false m2 e2))) =
  ceil_div a bb.
Proof.
  intros Ha Hbb Hd2 He2 Hu Hv Huv Hm2.
  destruct (float64_of_pos a) as (m1 & k1 & Hf1 & Hk1 & Hm1 & Hd1); [lia |].
  rewrite Hf1.
  destruct (float64_div_normal m1 (- k1) m2 e2)
    as (M & E & j & Hdiv & Hj & HE & HR); [done | done | lia | lia |].
  rewrite Hdiv.
  pose proof (ceil_div_bounds a bb Hbb) as Hc.
  set (c := ceil_div a bb) in *.
  assert (Hcpos : 0 < c < 2 ^ 53) by nia.
  set (t := j + k1 + e2).
  assert (Ht : 0 <= t) by (unfold t; lia).
  replace (- k1 - e2 - j) with (- t) in * by (unfold t; lia).
  set (delta := E - - t) in *.
  assert (Hdelta : delta = 0 \/ delta = 1) by (unfold delta; lia).
  set (M0 := Z.pos M * 2 ^ delta) in *.
  pose proof (digits2_pos_bounds m2) as Hb2. rewrite Hd2 in Hb2.
  change (53 - 1) with 52 in Hb2.
  assert (Hpu : 0 < 2 ^ u) by (apply Z.pow_pos_nonneg; lia).
  assert (Hpv : 0 < 2 ^ v) by (apply Z.pow_pos_nonneg; lia).
  assert (Hpt : 0 < 2 ^ t) by (apply Z.pow_pos_nonneg; lia).
  assert (HR' : 2 * Z.abs (M0 * bb - a * 2 ^ t) <= bb).
  { assert (Hpow : 2 ^ k1 * 2 ^ j * 2 ^ u = 2 ^ t * 2 ^ v).
    { rewrite <- !Z.pow_add_r by lia. f_equal. unfold t. lia. }
    assert (Hx : (M0 * Z.pos m2 - Z.pos m1 * 2 ^ j) * 2 ^ u =
                 (M0 * bb - a * 2 ^ t) * 2 ^ v).
    { rewrite Hm1. nia. }
    assert (Hy : Z.abs (M0 * Z.pos m2 - Z.pos m1 * 2 ^ j) * 2 ^ u =
                 Z.abs (M0 * bb - a * 2 ^ t) * 2 ^ v).
    { apply (f_equal Z.abs) in Hx. rewrite !Z.abs_mul in Hx.
      by rewrite (Z.abs_eq (2 ^ u)), (Z.abs_eq (2 ^ v)) in Hx by lia. }
    assert (Hz : 2 * (Z.abs (M0 * bb - a * 2 ^ t) * 2 ^ v) <= bb * 2 ^ v).
    { rewrite <- Hy, <- Hm2. nia. }
    nia. }
  assert (Hbt : bb < 2 ^ (t + 1)).
  { assert (H1 : 2 ^ 53 * 2 ^ u <= 2 ^ (t + 1) * 2 ^ v).
    { rewrite <- !Z.pow_add_r by lia. apply Z.pow_le_mono_r; unfold t; lia. }
    assert (H2 : bb * 2 ^ v < 2 ^ (t + 1) * 2 ^ v) by nia.
    apply Z.mul_lt_mono_pos_r in H2; lia. }
  pose proof (ceil_of_rounded a bb M0 t c Hbb Ht Hbt Hc HR') as HM0.
  apply (int64_Ceil_rounded M E t delta c); try done. unfold delta. lia.
Qed.

(** The float computation is the integer ceiling for every numerator
    below [2^53] and every positive int64 denominator. *)
Lemma int64_Ceil_div (a b : Z) :
  0 <= a < 2 ^ 53 -> 1 <= b <= max_int64 ->
  int64_of_float64
    (math_Ceil (float64_div (float64_of_int64 a) (float64_of_int64 b))) =
  ceil_div a b.
Proof.
  intros Ha Hb.
  destruct (Z.lt_ge_cases b (2 ^ 53)) as [Hsmall | Hlarge].
  - destruct (float64_of_pos b) as (m2 & k2 & Hf2 & Hk2 & Hm2 & Hd2); [lia |].
    rewrite Hf2.
    destruct (Z.eq_dec a 0) as [-> | Hne]; [done |].
    apply (int64_Ceil_div_normal a b m2 (- k2) 0 k2); try done; try lia.
  - destruct (float64_of_large b) as (m2 & e2 & Hf2 & He2 & Hd2); [lia |].
    rewrite Hf2.
    destruct (Z.eq_dec a 0) as [-> | Hne]; [done |].
    pose proof (digits2_pos_bounds m2) as Hb2. rewrite Hd2 in Hb2.
    change (53 - 1) with 52 in Hb2.
    assert (Hp : 2 <= 2 ^ e2).
    { change 2 with (2 ^ 1) at 1. apply Z.pow_le_mono_r; lia. }
    rewrite (int64_Ceil_div_normal a (Z.pos m2 * 2 ^ e2) m2 e2 e2 0);
      [| lia | nia | done | lia | lia | lia | lia | rewrite Z.pow_0_r; lia].
    unfold ceil_div. rewrite (ceil_unique a (Z.pos m2 * 2 ^ e2) 1) by nia.
    symmetry. apply ceil_unique; lia.
Qed.

(** C6, as the code has it. For [0 <= total_records < 2^53] and every
    stored limit from 1 up, [SetTotalRecord] stores the total and the
    exact ceiling of [total_records / limit] as the number of pages; 101
    records with limit 50 make 3 pages. *)
Theorem SetTotalRecord_total_pages :
  forall (p : Pagination) (totalRecord : Z),
    0 <= totalRecord < 2 ^ 53 -> 1 <= PageLimit p <= max_int64 ->
    TotalRecord (SetTotalRecord p totalRecord) = totalRecord /\
    TotalPage (SetTotalRecord p totalRecord) =
      ceil_div totalRecord (PageLimit p).
Proof.
  intros p totalRecord Htotal Hlimit. split; [done |].
  unfold SetTotalRecord. cbn [TotalPage]. by apply int64_Ceil_div.
Qed.

Lemma SetTotalRecord_total_pages_witness :
  TotalRecord (SetTotalRecord (mkPagination 50 0 1 0 0) 101) = 101 /\
  TotalPage (SetTotalRecord (mkPagination 50 0 1 0 0) 101) = 3.
Proof.
  refine (SetTotalRecord_total_pages (mkPagination 50 0 1 0 0) 101 _ _).
  - lia.
  - unfold max_int64. simpl. lia.
Defined.

(** Above [2^53] the conversion to float64 rounds: [2^53 + 1] records
    with limit 1 make [2^53] pages. *)
Lemma SetTotalRecord_inexact_above_2_53 :
  let p := mkPagination 1 0 1 0 0 in
  0 <= 2 ^ 53 + 1 <= max_int64 /\ 1 <= PageLimit p /\
  TotalPage (SetTotalRecord p (2 ^ 53 + 1)) = 2 ^ 53 /\
  TotalPage (SetTotalRecord p (2 ^ 53 + 1)) <> ceil_div (2 ^ 53 + 1) (PageLimit p).
Proof. vm_compute. intuition congruence. Qed.

(** With limit 0 the quotient is infinite or not a number, and the
    conversion to int64 is left to the platform. *)
Lemma SetTotalRecord_limit_zero :
  TotalPage (SetTotalRecord (mkPagination 0 0 1 0 0) 5) = min_int64.
Proof. reflexivity. Qed.

(** * Further properties *)

(** ** Pagination: pages as windows *)

(** X1. Initialising a pagination again from its own page and limit, as
    [Find] does on every call, changes nothing. *)
Theorem Init_again :
  forall (p : Pagination) (page limit : Z),
    let q := Init p page limit in
    Init q (PageCurrent q) (PageLimit q) = q.
Proof.
  intros p page limit. unfold Init. cbn [PageCurrent PageLimit TotalPage TotalRecord].
  destruct (Z.ltb_spec page 1) as [Hp | Hp];
    destruct (Z.gtb_spec limit 100) as [Hl | Hl].
  - reflexivity.
  - destruct (Z.gtb_spec limit 100); [lia | reflexivity].
  - destruct (Z.ltb_spec page 1); [lia | reflexivity].
  - destruct (Z.ltb_spec page 1); [lia |].
    destruct (Z.gtb_spec limit 100); [lia | reflexivity].
Qed.

(** X2. The first page starts at offset 0, whatever the limit, and each
    page starts where the one before ends, as long as the page numbers
    and the offsets fit an int64. *)
Theorem Init_windows_adjacent :
  (forall (p : Pagination) (page limit : Z),
      page <= 1 -> Offset (Init p page limit) = 0) /\
  (forall (p : Pagination) (page limit : Z),
      1 <= page < max_int64 -> 0 <= limit <= 100 ->
      limit * page <= max_int64 ->
      Offset (Init p (page + 1) limit) =
        Offset (Init p page limit) + PageLimit (Init p page limit)).
Proof.
  split.
  - intros p page limit Hpage. unfold Init. cbn [Offset].
    assert (Hone : (if page <? 1 then 1 else page) = 1).
    { destruct (Z.ltb_spec page 1); lia. }
    rewrite Hone. unfold mul64, sub64. change (wrap64 (1 - 1)) with 0.
    by rewrite Z.mul_0_r.
  - intros p page limit Hpage Hlimit Hfits. unfold Init. cbn [Offset PageLimit].
    destruct (Z.ltb_spec page 1); [lia |].
    destruct (Z.ltb_spec (page + 1) 1); [lia |].
    destruct (Z.gtb_spec limit 100); [lia |].
    unfold max_int64 in Hfits, Hpage. unfold mul64, sub64.
    rewrite (wrap64_id (page + 1 - 1))
      by (unfold in_int64, min_int64, max_int64; nia).
    rewrite (wrap64_id (page - 1))
      by (unfold in_int64, min_int64, max_int64; nia).
    rewrite !wrap64_id by (unfold in_int64, min_int64, max_int64; nia).
    lia.
Qed.

Lemma Init_windows_adjacent_witness :
  Offset (Init Sample.p0 0 20) = 0 /\
  Offset (Init Sample.p0 4 20) =
    Offset (Init Sample.p0 3 20) + PageLimit (Init Sample.p0 3 20).
Proof.
  destruct Init_windows_adjacent as [Hfirst Hnext]. split.
  - apply Hfirst. lia.
  - apply (Hnext Sample.p0 3 20); unfold max_int64; lia.
Defined.

(** X3. The pages [SetTotalRecord] counts cover the records and the last
    one is not empty: with [n] pages of [limit] records,
    [(n - 1) * limit < total <= n * limit]. No records, no pages. *)
Theorem SetTotalRecord_pages_cover :
  forall (p : Pagination) (totalRecord : Z),
    0 <= totalRecord < 2 ^ 53 -> 1 <= PageLimit p <= max_int64 ->
    let n := TotalPage (SetTotalRecord p totalRecord) in
    (n - 1) * PageLimit p < totalRecord <= n * PageLimit p /\
    (totalRecord = 0 -> n = 0).
Proof.
  intros p totalRecord Htotal Hlimit n. subst n.
  unfold SetTotalRecord. cbn [TotalPage].
  rewrite int64_Ceil_div by done.
  split; [apply ceil_div_bounds; lia |].
  intros ->. unfold ceil_div. by rewrite Z.div_0_l by lia.
Qed.

Lemma SetTotalRecord_pages_cover_witness :
  let n := TotalPage (SetTotalRecord (mkPagination 10 0 1 0 0) 25) in
  (n - 1) * 10 < 25 <= n * 10 /\ (25 = 0 -> n = 0).
Proof.
  refine (SetTotalRecord_pages_cover (mkPagination 10 0 1 0 0) 25 _ _).
  - lia.
  - unfold max_int64. simpl. lia.
Defined.

(** ** Find: paging through the reference store *)

Lemma page_of_Ref srv st filter o page limit :
  page_of (Ref.driver srv) st filter o page limit =
  let q := Init (mkPagination limit 0 page 0 0) page limit in
  Ref.window (Some (SetLimit (SetSkip o (Offset q)) (PageLimit q)))
             (Ref.matching srv filter st).
Proof. reflexivity. Qed.

Lemma page_of_Ref_window srv st filter o (page limit : Z) :
  1 <= page -> 1 <= limit <= 100 -> limit * (page - 1) <= max_int64 ->
  page_of (Ref.driver srv) st filter o page limit =
  take (Z.to_nat limit)
       (drop (Z.to_nat (limit * (page - 1))) (Ref.matching srv filter st)).
Proof.
  intros Hpage Hlimit Hfits. rewrite page_of_Ref. cbv zeta.
  unfold Ref.window, SetLimit, SetSkip, Init. cbn [Skip Limit Offset PageLimit].
  destruct (Z.ltb_spec page 1); [lia |].
  destruct (Z.gtb_spec limit 100); [lia |].
  unfold max_int64 in Hfits. unfold mul64, sub64.
  rewrite (wrap64_id (page - 1)) by (unfold in_int64, min_int64, max_int64; nia).
  rewrite wrap64_id by (unfold in_int64, min_int64, max_int64; nia).
  cbn [default]. rewrite decide_False by lia. by rewrite Z.abs_eq by lia.
Qed.

(** Windows of [L] elements laid end to end. *)
Lemma concat_windows {A} (L : nat) (l : list A) (K : nat) :
  concat (map (fun i => take L (drop (L * (i - 1)) l)) (seq 1 K)) =
  take (L * K) l.
Proof.
  induction K as [| K IH].
  - by rewrite Nat.mul_0_r.
  - rewrite seq_S, map_app, concat_app, IH. cbn [map concat].
    rewrite app_nil_r. replace (1 + K - 1)%nat with K by lia.
    rewrite take_take_drop. f_equal. lia.
Qed.

(** X4. Going through the pages [Find] reports, from the first to the last,
    with a limit between 1 and 100, hands back every matching document
    once, in the order of the store. *)
Theorem Find_pages_partition :
  forall (srv : Server) (st : Store) (filter : value) (o : FindOptions)
         (limit : Z),
    1 <= limit <= 100 ->
    Z.of_nat (length (Ref.matching srv filter st)) < 2 ^ 53 ->
    concat (map (fun page : nat =>
                   page_of (Ref.driver srv) st filter o (Z.of_nat page) limit)
                (seq 1 (Z.to_nat (pages_of (Ref.driver srv) st filter o limit)))) =
    Ref.matching srv filter st.
Proof.
  intros srv st filter o limit Hlimit Hlen.
  set (docs := Ref.matching srv filter st) in *.
  set (n := Z.of_nat (length docs)) in *.
  assert (Hpages : pages_of (Ref.driver srv) st filter o limit = ceil_div n limit).
  { unfold pages_of. cbn -[SetTotalRecord Init].
    unfold SetTotalRecord. cbn [TotalPage PageLimit Init].
    destruct (Z.gtb_spec limit 100); [lia |].
    apply int64_Ceil_div; [unfold n; lia | unfold max_int64; lia]. }
  rewrite Hpages.
  pose proof (ceil_div_bounds n limit ltac:(lia)) as Hc.
  set (K := ceil_div n limit) in *.
  assert (HK : 0 <= K <= n) by (unfold n in *; nia).
  rewrite (map_ext_in _ (fun i => take (Z.to_nat limit)
                                    (drop (Z.to_nat limit * (i - 1)) docs))).
  - rewrite concat_windows. apply take_ge. unfold n in *. nia.
  - intros i Hi. apply in_seq in Hi.
    rewrite page_of_Ref_window; [| lia | lia | unfold max_int64; nia].
    fold docs. do 2 f_equal. nia.
Qed.

Lemma Find_pages_partition_witness :
  concat (map (fun page : nat =>
                 page_of (Ref.driver Sample.srv) Sample.store25 VNull
                         (mkFindOptions None None None) (Z.of_nat page) 10)
              (seq 1 (Z.to_nat (pages_of (Ref.driver Sample.srv) Sample.store25
                                         VNull (mkFindOptions None None None) 10)))) =
  Ref.matching Sample.srv VNull Sample.store25.
Proof.
  apply (Find_pages_partition Sample.srv Sample.store25 VNull
           (mkFindOptions None None None) 10).
  - lia.
  - vm_compute. reflexivity.
Defined.

(** X5. Whatever limit from 1 up is asked for, and whatever the page, a page
    holds at most 100 documents, and at most the limit. *)
Theorem Find_page_size :
  forall (srv : Server) (st : Store) (filter : value) (o : FindOptions)
         (page limit : Z),
    1 <= limit ->
    (length (page_of (Ref.driver srv) st filter o page limit) <= 100)%nat /\
    Z.of_nat (length (page_of (Ref.driver srv) st filter o page limit)) <= limit.
Proof.
  intros srv st filter o page limit Hlimit. rewrite page_of_Ref. cbv zeta.
  unfold Ref.window, SetLimit, SetSkip. cbn [Skip Limit].
  set (q := Init (mkPagination limit 0 page 0 0) page limit).
  assert (Hq : 1 <= PageLimit q <= 100 /\ PageLimit q <= limit).
  { unfold q, Init. cbn [PageLimit]. destruct (Z.gtb_spec limit 100); lia. }
  rewrite decide_False by lia. rewrite length_take. lia.
Qed.

Lemma Find_page_size_witness :
  (length (page_of (Ref.driver Sample.srv) Sample.store25 VNull
                   (mkFindOptions None None None) 1 500) <= 100)%nat /\
  Z.of_nat (length (page_of (Ref.driver Sample.srv) Sample.store25 VNull
                            (mkFindOptions None None None) 1 500)) <= 500.
Proof.
  apply (Find_page_size Sample.srv Sample.store25 VNull
           (mkFindOptions None None None) 1 500). lia.
Defined.

(** ** Which handle the calls go to *)

(** X6. [Find] only ever talks to the read collection, [EnsureIndexes] only
    to the write collection, whatever they are handed and whatever the
    driver answers. *)
Theorem reads_and_writes_are_routed :
  (forall (d : Driver) (s : State d) (filter : value)
          (opt : option FindOptions) (pagination : option Pagination),
      Forall (fun c => conn_of c = readCollection)
             (trace (run d (Find filter opt pagination) s))) /\
  (forall (d : Driver) (s : State d) (order : MapOrder) (sorter : Sorter)
          (indexes : list IndexModel),
      Forall (fun c => conn_of c = writeCollection)
             (trace (run d (V1.EnsureIndexes order indexes) s)) /\
      Forall (fun c => conn_of c = writeCollection)
             (trace (run d (V2.EnsureIndexes sorter indexes) s))).
Proof.
  split.
  - intros d s filter opt pagination.
    assert (Hquery : forall s' o p,
               Forall (fun c => conn_of c = readCollection)
                      (trace (run d (query filter o p) s'))).
    { intros s' o p. unfold query. simpl.
      destruct (respond d _ s') as [[[docs | e] | e] s2]; simpl;
        by repeat constructor. }
    destruct pagination as [p |]; [| apply Hquery].
    unfold Find. simpl.
    destruct (respond d _ s) as [[total | e] s1]; simpl;
      [| by repeat constructor].
    destruct opt as [o |]; simpl; [| by repeat constructor].
    constructor; [done | apply Hquery].
  - intros d s order sorter indexes.
    assert (Hshape : forall t ds cs, reconciles indexes t ds cs ->
              Forall (fun c => conn_of c = writeCollection) t).
    { intros t ds cs (-> & _ & _). constructor; [done |].
      apply Forall_app. split; apply Forall_fmap, Forall_forall; by intros. }
    split.
    + destruct (V1_EnsureIndexes_run d order indexes s) as (ds & cs & H & _). eauto.
    + destruct (V2_EnsureIndexes_run d sorter indexes s) as (ds & cs & H & _). eauto.
Qed.

(** ** EnsureIndexes: what is dropped *)

Lemma listed_cons_Ok i items :
  listed (Ok i :: items) = index_Name i :: listed items.
Proof. reflexivity. Qed.

Lemma V1_existing_names_iff items acc existing :
  V1.existing_names items acc = Ok existing ->
  forall n, n ∈ existing <->
            n ∈ acc \/ (n <> "_id_"%string /\ n ∈ listed items).
Proof.
  revert acc. induction items as [| [i | e] items IH]; intros acc H n; simpl in H.
  - injection H as <-. split; [by left |].
    intros [H | [_ H]]; [done | by apply elem_of_nil in H].
  - rewrite (IH _ H n), listed_cons_Ok, elem_of_cons.
    destruct (decide (index_Name i ≠ "_id_"%string)) as [Hi | Hi].
    + rewrite elem_of_union, elem_of_singleton. split.
      * intros [[-> | H1] | [Hne H2]]; [right | left | right]; tauto.
      * intros [H1 | [Hne [-> | H2]]]; tauto.
    + split.
      * intros [H1 | [Hne H2]]; tauto.
      * intros [H1 | [Hne [-> | H2]]]; [tauto | | tauto]. by destruct Hi.
  - discriminate.
Qed.

Lemma stray_expected indexes n :
  n ∉ V1.expected_names indexes ∅ <-> Some n ∉ (name_of <$> indexes).
Proof.
  rewrite V1_expected_names_spec, list_elem_of_fmap. split.
  - intros H (idx & Hname & Hidx). apply H. right. by exists idx.
  - intros H [Hempty | (idx & Hidx & Hname)]; [by apply not_elem_of_empty in Hempty |].
    apply H. by exists idx.
Qed.

(** X7. When the first variant returns without error, it has dropped, each
    once, exactly the listed indexes that no descriptor names, the
    primary key aside, and it has issued a create for every descriptor,
    in the order of the slice. *)
Theorem V1_EnsureIndexes_drops_the_strays :
  forall (d : Driver) (s s1 : State d) (order : MapOrder)
         (indexes : list IndexModel) (cursor : Cursor),
    respond d (Indexes_List writeCollection) s = (Ok cursor, s1) ->
    let r := run d (V1.EnsureIndexes order indexes) s in
    out r = Returned (Ok tt) ->
    NoDup (drops (trace r)) /\
    (forall n, n ∈ drops (trace r) <->
               n ∈ listed (batch cursor) /\ stray indexes n) /\
    creates (trace r) = indexes.
Proof.
  intros d s s1 order indexes cursor Hlist r. subst r.
  unfold V1.EnsureIndexes. simpl. rewrite Hlist. simpl.
  destruct (V1.existing_names (batch cursor) ∅) as [existing | e] eqn:Hex;
    simpl; [| discriminate].
  destruct (cursor_Err cursor) as [e |]; simpl; [discriminate |].
  rewrite run_bind.
  set (expected := V1.expected_names indexes ∅).
  set (names := range_keys order (elements existing)).
  destruct (V1_drop_unexpected_run d expected names s1)
    as (ds & Htr & _ & [x Hret] & Hok).
  rewrite Hret, Htr. destruct x as [[] | e]; simpl; [| discriminate].
  destruct (V1_create_all_run d indexes
              (final (run d (V1.drop_unexpected expected names) s1)))
    as (cs & Htc & _ & _ & Hokc).
  rewrite Htc. intros Hout.
  rewrite (Hok Hret), (Hokc Hout).
  change (?c :: ?l) with ([c] ++ l).
  rewrite !drops_app, !creates_app, drops_DropOne, drops_CreateOne,
    creates_DropOne, creates_CreateOne, app_nil_r. simpl.
  split; [| split; [| done]].
  - apply NoDup_filter. unfold names. rewrite (range_keys_perm order).
    apply NoDup_elements.
  - intros n. rewrite list_elem_of_filter. unfold names.
    rewrite (range_keys_perm order), elem_of_elements.
    rewrite (V1_existing_names_iff _ _ _ Hex). unfold expected, stray.
    rewrite stray_expected. split.
    + intros [H3 [H | [H1 H2]]]; [by apply not_elem_of_empty in H | tauto].
    + tauto.
Qed.

Lemma V1_EnsureIndexes_drops_the_strays_witness :
  let r := run (Ref.driver Sample.srv)
               (V1.EnsureIndexes Ref.in_order Sample.desired_AB)
               (mkStore [] Sample.live_AC) in
  NoDup (drops (trace r)) /\
  (forall n, n ∈ drops (trace r) <->
             n ∈ listed (Ok <$> Sample.live_AC) /\ stray Sample.desired_AB n) /\
  creates (trace r) = Sample.desired_AB.
Proof.
  exact (V1_EnsureIndexes_drops_the_strays (Ref.driver Sample.srv)
           (mkStore [] Sample.live_AC) (mkStore [] Sample.live_AC)
           Ref.in_order Sample.desired_AB
           (mkCursor (Ok <$> Sample.live_AC) None)
           eq_refl ltac:(vm_compute; reflexivity)).
Defined.

Lemma V2_is_drop_value indexes name b r :
  V2.is_drop indexes name b = Some r ->
  r = b && bool_decide (Some name ∉ (name_of <$> indexes)).
Proof.
  revert b. induction indexes as [| v rest IH]; intros b; simpl.
  - intros [= <-]. by destruct b.
  - destruct (name_of v) as [n |] eqn:Hn; [| done].
    intros H. apply IH in H. rewrite H.
    destruct (decide (n = name)) as [-> | Hne].
    + rewrite (bool_decide_eq_false_2 (Some name ∉ Some name :: _));
        [by rewrite andb_false_r |].
      intros Hnot. apply Hnot. left.
    + f_equal. apply bool_decide_ext. rewrite not_elem_of_cons.
      split; [intros H'; split; [congruence | done] | by intros [_ H']].
Qed.

Lemma stray_Permutation l1 l2 n : l1 ≡ₚ l2 -> stray l1 n <-> stray l2 n.
Proof. intros Hperm. unfold stray. by rewrite Hperm. Qed.

(** What the scan of the second variant collects when it gets through:
    the strays of the listing, in its order. *)
Lemma V2_drop_candidates_Ok (d : Driver) items indexes acc (s : State d) l :
  out (run d (V2.drop_candidates items indexes acc) s) = Returned (Ok l) ->
  l = acc ++ filter (stray indexes) (listed items).
Proof.
  revert acc. induction items as [| [i | e] items IH]; intros acc.
  - simpl. intros [= <-]. by rewrite app_nil_r.
  - rewrite listed_cons_Ok, filter_cons. cbn [V2.drop_candidates].
    destruct (decide (index_Name i = "_id_"%string)) as [Hid | Hid].
    + rewrite decide_False by (intros [Hne _]; done). apply IH.
    + destruct (V2.is_drop indexes (index_Name i) true) as [r |] eqn:Hdrop;
        [| discriminate].
      apply V2_is_drop_value in Hdrop. rewrite andb_true_l in Hdrop. subst r.
      destruct (decide (Some (index_Name i) ∉ (name_of <$> indexes))) as [Hs | Hs].
      * rewrite bool_decide_eq_true_2 by done.
        rewrite decide_True by done.
        intros H. rewrite (IH _ H). by rewrite <- app_assoc.
      * rewrite bool_decide_eq_false_2 by done.
        rewrite decide_False by (intros [_ Hn]; done). apply IH.
  - discriminate.
Qed.

(** X8. When the second variant returns without error, it has dropped the
    listed indexes that no descriptor names, the primary key aside, in
    the order of the listing, and it has issued a create for every
    descriptor. *)
Theorem V2_EnsureIndexes_drops_the_strays :
  forall (d : Driver) (s s1 : State d) (sorter : Sorter)
         (indexes : list IndexModel) (cur : Cursor),
    respond d (Indexes_List writeCollection) s = (Ok cur, s1) ->
    let r := run d (V2.EnsureIndexes sorter indexes) s in
    out r = Returned (Ok tt) ->
    drops (trace r) = filter (stray indexes) (listed (batch cur)) /\
    creates (trace r) ≡ₚ indexes.
Proof.
  intros d s s1 sorter indexes cur Hlist r. subst r.
  unfold V2.EnsureIndexes. simpl. rewrite Hlist. simpl.
  destruct (V2.sort_Slice sorter indexes) as [ordered |] eqn:Hsort;
    simpl; [| discriminate].
  pose proof (V2_sort_Slice_perm _ _ _ Hsort) as Hperm.
  rewrite run_bind.
  destruct (V2_drop_candidates_run d (batch cur) ordered [] s1) as (Htr & Hfin & _).
  rewrite Htr, Hfin.
  destruct (out (run d (V2.drop_candidates (batch cur) ordered []) s1))
    as [[dropIndexes | e] | c] eqn:Hout; simpl; [| discriminate | discriminate].
  apply V2_drop_candidates_Ok in Hout. simpl in Hout.
  rewrite run_bind.
  destruct (V2_drop_all_run d dropIndexes s1) as (ds & Htd & _ & [x Hrd] & Hokd).
  rewrite Hrd, Htd. destruct x as [[] | e]; simpl; [| discriminate].
  destruct (V2_create_all_run d ordered (final (run d (V2.drop_all dropIndexes) s1)))
    as (cs & Htc & _ & _ & Hokc).
  rewrite Htc. intros Hok. rewrite (Hokd Hrd), (Hokc Hok).
  change (?c :: ?l) with ([c] ++ l).
  rewrite !drops_app, !creates_app, drops_DropOne, drops_CreateOne,
    creates_DropOne, creates_CreateOne, app_nil_r. simpl.
  split; [| done]. rewrite Hout. apply list_filter_iff.
  intros n. by apply stray_Permutation.
Qed.

Lemma V2_EnsureIndexes_drops_the_strays_witness :
  let r := run (Ref.driver Sample.srv)
               (V2.EnsureIndexes Ref.by_name Sample.desired_AB)
               (mkStore [] Sample.live_AC) in
  drops (trace r) = filter (stray Sample.desired_AB) (listed (Ok <$> Sample.live_AC)) /\
  creates (trace r) ≡ₚ Sample.desired_AB.
Proof.
  exact (V2_EnsureIndexes_drops_the_strays (Ref.driver Sample.srv)
           (mkStore [] Sample.live_AC) (mkStore [] Sample.live_AC)
           Ref.by_name Sample.desired_AB
           (mkCursor (Ok <$> Sample.live_AC) None)
           eq_refl ltac:(vm_compute; reflexivity)).
Defined.

(** ** EnsureIndexes on the reference store: where it ends *)

Lemma listed_Ok live : listed (Ok <$> live) = index_Name <$> live.
Proof. induction live as [| i live IH]; [done |]. cbn. by rewrite <- IH. Qed.

Lemma settled_present idx live :
  settled idx live ->
  exists i, i ∈ live /\ index_Name i = Ref.index_name idx /\
            value_eqb (index_Keys i) (Keys idx) = true.
Proof.
  intros (i & Hfind & Hkeys). apply find_some in Hfind as [Hin Hname].
  exists i. split; [by apply list_elem_of_In |]. split; [| done].
  unfold Ref.has_name in Hname. by apply bool_decide_eq_true in Hname.
Qed.

Lemma named_index_name idx n : name_of idx = Some n -> Ref.index_name idx = n.
Proof. intros H. unfold Ref.index_name. by rewrite H. Qed.

(** The second variant's loops against the first's: the same calls and
    the same store, and success together; only the errors differ. *)
Lemma V2_create_all_like_V1 (d : Driver) indexes (s : State d) :
  trace (run d (V2.create_all indexes) s) = trace (run d (V1.create_all indexes) s) /\
  final (run d (V2.create_all indexes) s) = final (run d (V1.create_all indexes) s) /\
  (out (run d (V2.create_all indexes) s) = Returned (Ok tt) <->
   out (run d (V1.create_all indexes) s) = Returned (Ok tt)).
Proof.
  revert s. induction indexes as [| idx rest IH]; intros s; simpl; [done |].
  destruct (respond d _ s) as [[name | e] s1]; simpl.
  - destruct (IH s1) as (Ht & Hf & Ho). by rewrite Ht.
  - done.
Qed.

Lemma V2_drop_all_like_V1 (d : Driver) names (s : State d) :
  trace (run d (V2.drop_all names) s) =
    trace (run d (V1.drop_unexpected ∅ names) s) /\
  final (run d (V2.drop_all names) s) =
    final (run d (V1.drop_unexpected ∅ names) s) /\
  (out (run d (V2.drop_all names) s) = Returned (Ok tt) <->
   out (run d (V1.drop_unexpected ∅ names) s) = Returned (Ok tt)).
Proof.
  revert s. induction names as [| name rest IH]; intros s; simpl; [done |].
  rewrite decide_False by apply not_elem_of_empty. simpl.
  destruct (respond d _ s) as [[[] | e] s1]; simpl.
  - destruct (IH s1) as (Ht & Hf & Ho). by rewrite Ht.
  - done.
Qed.

(** Where a successful run of the first variant leaves the reference
    store. *)
Lemma Ref_V1_EnsureIndexes_Ok srv order indexes (st st1 : Store) t1 :
  Forall (fun idx => is_Some (name_of idx)) indexes ->
  run (Ref.driver srv) (V1.EnsureIndexes order indexes) st =
    mkRun (Returned (Ok tt)) st1 t1 ->
  documents st1 = documents st /\
  (forall idx, idx ∈ indexes -> settled idx (live_indexes st1)) /\
  (forall i, i ∈ live_indexes st1 ->
             index_Name i = "_id_"%string \/
             Some (index_Name i) ∈ (name_of <$> indexes)).
Proof.
  intros Hnamed Hrun1.
  set (expected := V1.expected_names indexes ∅).
  unfold V1.EnsureIndexes in Hrun1. simpl in Hrun1.
  destruct (V1_existing_names_listing (live_indexes st) ∅)
    as (existing1 & Hex1 & Hspec1).
  change (map Ok (live_indexes st)) with (Ok <$> live_indexes st) in Hrun1.
  rewrite Hex1 in Hrun1. simpl in Hrun1. rewrite run_bind in Hrun1.
  fold expected in Hrun1.
  set (names1 := range_keys order (elements existing1)) in Hrun1.
  pose proof (Ref_drop_unexpected_Ok srv expected names1 st) as Hdrop.
  destruct (V1_drop_unexpected_run (Ref.driver srv) expected names1 st)
    as (ds & _ & _ & [x Hret] & _).
  cbv zeta in Hdrop. rewrite Hret in Hrun1, Hdrop.
  destruct x as [[] | e]; simpl in Hrun1; [| discriminate].
  destruct (Hdrop eq_refl) as [Hdocs_d Hlive_d]. clear Hdrop.
  set (st_d := final (run (Ref.driver srv) (V1.drop_unexpected expected names1) st))
    in *.
  pose proof (Ref_create_all_Ok srv indexes st_d) as Hcreate. cbv zeta in Hcreate.
  assert (Hout : out (run (Ref.driver srv) (V1.create_all indexes) st_d) =
                 Returned (Ok tt)) by (by injection Hrun1).
  assert (Hfin : final (run (Ref.driver srv) (V1.create_all indexes) st_d) = st1)
    by (by injection Hrun1).
  destruct (Hcreate Hout) as (Hdocs_c & Hsettled & Hlive_c). rewrite Hfin in *.
  split; [congruence |]. split; [done |].
  intros i Hi. destruct (Hlive_c i Hi) as [Hd | (idx & Hidx & Hname)].
  - destruct (Hlive_d i Hd) as [Hst Hgone].
    destruct (decide (index_Name i = "_id_"%string)) as [Hid | Hid]; [by left |].
    right. apply dec_stable. intros Hnot.
    apply (proj2 (stray_expected indexes (index_Name i))) in Hnot.
    apply Hnot, Hgone. unfold names1. rewrite (range_keys_perm order).
    apply elem_of_elements, Hspec1. right. split; [done |]. by exists i.
  - right. rewrite Forall_forall in Hnamed.
    destruct (Hnamed idx Hidx) as [n Hn].
    rewrite Hname, (named_index_name idx n Hn), <- Hn.
    by apply list_elem_of_fmap_2.
Qed.

Lemma V2_sort_Slice_named sorter indexes :
  Forall (fun idx => is_Some (name_of idx)) indexes ->
  exists ordered, V2.sort_Slice sorter indexes = Some ordered /\ ordered ≡ₚ indexes.
Proof.
  intros Hnamed. unfold V2.sort_Slice. destruct (decide _); [| by exists indexes].
  assert (Hall : forallb (fun idx => bool_decide (is_Some (name_of idx))) indexes = true).
  { apply forallb_forall. intros idx Hidx. apply bool_decide_eq_true.
    rewrite Forall_forall in Hnamed. by apply Hnamed, list_elem_of_In. }
  rewrite Hall. exists (sorted sorter indexes). split; [done | apply sorted_perm].
Qed.

Lemma V2_is_drop_named indexes name b :
  Forall (fun idx => is_Some (name_of idx)) indexes ->
  is_Some (V2.is_drop indexes name b).
Proof.
  intros Hnamed. revert b. induction Hnamed as [| idx rest [n Hn] _ IH]; intros b; simpl.
  - by eexists.
  - rewrite Hn. apply IH.
Qed.

(** On a listing that decodes, with named descriptors, the scan gets
    through. *)
Lemma V2_drop_candidates_named (d : Driver) live indexes acc (s : State d) :
  Forall (fun idx => is_Some (name_of idx)) indexes ->
  out (run d (V2.drop_candidates (Ok <$> live) indexes acc) s) =
    Returned (Ok (acc ++ filter (stray indexes) (index_Name <$> live))).
Proof.
  intros Hnamed.
  assert (Hsome : exists l, out (run d (V2.drop_candidates (Ok <$> live) indexes acc) s)
                            = Returned (Ok l)).
  { revert acc. induction live as [| i live IH]; intros acc; simpl; [by eexists |].
    destruct (decide _); [apply IH |].
    destruct (V2_is_drop_named indexes (index_Name i) true Hnamed) as [[|] ->];
      apply IH. }
  destruct Hsome as [l Hl]. rewrite Hl.
  apply V2_drop_candidates_Ok in Hl. by rewrite Hl, listed_Ok.
Qed.

(** Where a successful run of the second variant leaves the reference
    store. *)
Lemma Ref_V2_EnsureIndexes_Ok srv sorter indexes (st st1 : Store) t1 :
  Forall (fun idx => is_Some (name_of idx)) indexes ->
  run (Ref.driver srv) (V2.EnsureIndexes sorter indexes) st =
    mkRun (Returned (Ok tt)) st1 t1 ->
  documents st1 = documents st /\
  (forall idx, idx ∈ indexes -> settled idx (live_indexes st1)) /\
  (forall i, i ∈ live_indexes st1 ->
             index_Name i = "_id_"%string \/
             Some (index_Name i) ∈ (name_of <$> indexes)).
Proof.
  intros Hnamed Hrun1.
  destruct (V2_sort_Slice_named sorter indexes Hnamed) as (ordered & Hsort & Hperm).
  assert (Hnamed' : Forall (fun idx => is_Some (name_of idx)) ordered)
    by (by rewrite Hperm).
  unfold V2.EnsureIndexes in Hrun1. simpl in Hrun1. rewrite Hsort in Hrun1.
  change (map Ok (live_indexes st)) with (Ok <$> live_indexes st) in Hrun1.
  rewrite run_bind in Hrun1.
  destruct (V2_drop_candidates_run (Ref.driver srv) (Ok <$> live_indexes st)
              ordered [] st) as (Htr & Hfin & _).
  rewrite Htr, Hfin, V2_drop_candidates_named in Hrun1 by done.
  simpl in Hrun1. rewrite run_bind in Hrun1.
  set (strays := filter (stray ordered) (index_Name <$> live_indexes st)) in *.
  destruct (V2_drop_all_like_V1 (Ref.driver srv) strays st) as (Htd & Hfd & Hod).
  pose proof (Ref_drop_unexpected_Ok srv ∅ strays st) as Hdrop. cbv zeta in Hdrop.
  destruct (V2_drop_all_run (Ref.driver srv) strays st) as (ds & _ & _ & [x Hrd] & _).
  rewrite Hrd in Hrun1, Hod. destruct x as [[] | e]; simpl in Hrun1; [| discriminate].
  destruct (Hdrop (proj1 Hod eq_refl)) as [Hdocs_d Hlive_d]. clear Hdrop.
  rewrite <- Hfd in Hdocs_d, Hlive_d.
  set (st_d := final (run (Ref.driver srv) (V2.drop_all strays) st)) in *.
  destruct (V2_create_all_like_V1 (Ref.driver srv) ordered st_d) as (Htc & Hfc & Hoc).
  pose proof (Ref_create_all_Ok srv ordered st_d) as Hcreate. cbv zeta in Hcreate.
  assert (Hout : out (run (Ref.driver srv) (V2.create_all ordered) st_d) =
                 Returned (Ok tt)) by (by injection Hrun1).
  assert (Hfin1 : final (run (Ref.driver srv) (V2.create_all ordered) st_d) = st1)
    by (by injection Hrun1).
  destruct (Hcreate (proj1 Hoc Hout)) as (Hdocs_c & Hsettled & Hlive_c).
  rewrite <- Hfc, Hfin1 in *.
  split; [congruence |]. split.
  - intros idx Hidx. apply Hsettled. by rewrite Hperm.
  - intros i Hi. destruct (Hlive_c i Hi) as [Hd | (idx & Hidx & Hname)].
    + destruct (Hlive_d i Hd) as [Hst Hgone].
      destruct (decide (index_Name i = "_id_"%string)) as [Hid | Hid]; [by left |].
      right. apply dec_stable. intros Hnot.
      apply (not_elem_of_empty (C := gset string) (index_Name i)), Hgone.
      unfold strays. apply list_elem_of_filter. split.
      * split; [done |]. by rewrite Hperm.
      * by apply list_elem_of_fmap_2.
    + right. rewrite Forall_forall in Hnamed'.
      destruct (Hnamed' idx Hidx) as [n Hn].
      rewrite Hname, (named_index_name idx n Hn), <- Hn, <- Hperm.
      by apply list_elem_of_fmap_2.
Qed.

Lemma converged_names indexes live :
  Forall (fun idx => is_Some (name_of idx)) indexes ->
  (forall idx, idx ∈ indexes -> settled idx live) ->
  (forall i, i ∈ live -> index_Name i = "_id_"%string \/
                         Some (index_Name i) ∈ (name_of <$> indexes)) ->
  forall n, n <> "_id_"%string ->
            n ∈ (index_Name <$> live) <-> Some n ∈ (name_of <$> indexes).
Proof.
  intros Hnamed Hsettled Hlive n Hn. split.
  - intros Hin. apply list_elem_of_fmap in Hin as (i & -> & Hi).
    destruct (Hlive i Hi); [done | done].
  - intros Hin. apply list_elem_of_fmap in Hin as (idx & Hname & Hidx).
    destruct (settled_present idx live (Hsettled idx Hidx)) as (i & Hi & Hiname & _).
    rewrite (named_index_name idx n) in Hiname by done.
    rewrite <- Hiname. by apply list_elem_of_fmap_2.
Qed.

(** X9. On the reference store, a run of either variant that returns
    without error, for descriptors that all carry a name, ends on the
    desired set: the documents are untouched, every descriptor has its
    index in place with its keys, and the names of the live indexes,
    the primary key aside, are those of the descriptors. *)
Theorem EnsureIndexes_converges :
  forall (srv : Server) (order : MapOrder) (sorter : Sorter)
         (indexes : list IndexModel) (st st1 : Store) (t1 : list Cmd),
    Forall (fun idx => is_Some (name_of idx)) indexes ->
    run (Ref.driver srv) (V1.EnsureIndexes order indexes) st =
      mkRun (Returned (Ok tt)) st1 t1 \/
    run (Ref.driver srv) (V2.EnsureIndexes sorter indexes) st =
      mkRun (Returned (Ok tt)) st1 t1 ->
    documents st1 = documents st /\
    (forall idx, idx ∈ indexes -> settled idx (live_indexes st1)) /\
    (forall n, n <> "_id_"%string ->
               n ∈ (index_Name <$> live_indexes st1) <->
               Some n ∈ (name_of <$> indexes)).
Proof.
  intros srv order sorter indexes st st1 t1 Hnamed Hrun.
  assert (H : documents st1 = documents st /\
              (forall idx, idx ∈ indexes -> settled idx (live_indexes st1)) /\
              (forall i, i ∈ live_indexes st1 ->
                         index_Name i = "_id_"%string \/
                         Some (index_Name i) ∈ (name_of <$> indexes))).
  { destruct Hrun as [Hrun | Hrun].
    - by apply (Ref_V1_EnsureIndexes_Ok srv order indexes st st1 t1).
    - by apply (Ref_V2_EnsureIndexes_Ok srv sorter indexes st st1 t1). }
  destruct H as (Hdocs & Hsettled & Hlive).
  split; [done |]. split; [done |]. by apply converged_names.
Qed.

Lemma EnsureIndexes_converges_witness :
  documents (mkStore (Sample.numbered 3) Sample.live_AB) = Sample.numbered 3 /\
  (forall idx, idx ∈ Sample.desired_AB -> settled idx Sample.live_AB) /\
  (forall n, n <> "_id_"%string ->
             n ∈ (index_Name <$> Sample.live_AB) <->
             Some n ∈ (name_of <$> Sample.desired_AB)).
Proof.
  apply (EnsureIndexes_converges Sample.srv Ref.in_order Ref.by_name
           Sample.desired_AB (mkStore (Sample.numbered 3) Sample.live_AC)
           (mkStore (Sample.numbered 3) Sample.live_AB)
           [Indexes_List writeCollection;
            Indexes_DropOne writeCollection "C";
            Indexes_CreateOne writeCollection
              (Sample.named "A" (Sample.key "field" 1));
            Indexes_CreateOne writeCollection
              (Sample.named "B" (Sample.key "field" (-1)))]).
  - repeat constructor; by eexists.
  - left. vm_compute. reflexivity.
Defined.

(** X10. The second variant is idempotent on the reference store as the
    first is: after a run that returned without error, for descriptors
    that all carry a name, a second run returns without error, drops
    nothing, issues one create per descriptor and leaves the store as it
    is, whatever the two sorts do with equal names. *)
Theorem V2_EnsureIndexes_idempotent :
  forall (srv : Server) (sorter sorter' : Sorter) (indexes : list IndexModel)
         (st st1 : Store) (t1 : list Cmd),
    Forall (fun idx => is_Some (name_of idx)) indexes ->
    run (Ref.driver srv) (V2.EnsureIndexes sorter indexes) st =
      mkRun (Returned (Ok tt)) st1 t1 ->
    let r2 := run (Ref.driver srv) (V2.EnsureIndexes sorter' indexes) st1 in
    out r2 = Returned (Ok tt) /\
    final r2 = st1 /\
    drops (trace r2) = [] /\
    creates (trace r2) ≡ₚ indexes.
Proof.
  intros srv sorter sorter' indexes st st1 t1 Hnamed Hrun1 r2.
  destruct (Ref_V2_EnsureIndexes_Ok srv sorter indexes st st1 t1 Hnamed Hrun1)
    as (_ & Hsettled & Hlive).
  destruct (V2_sort_Slice_named sorter' indexes Hnamed) as (ordered & Hsort & Hperm).
  assert (Hnamed' : Forall (fun idx => is_Some (name_of idx)) ordered)
    by (by rewrite Hperm).
  subst r2. unfold V2.EnsureIndexes. simpl. rewrite Hsort.
  change (map Ok (live_indexes st1)) with (Ok <$> live_indexes st1).
  rewrite run_bind.
  destruct (V2_drop_candidates_run (Ref.driver srv) (Ok <$> live_indexes st1)
              ordered [] st1) as (Htr & Hfin & _).
  rewrite Htr, Hfin, V2_drop_candidates_named by done.
  assert (Hnone : filter (stray ordered) (index_Name <$> live_indexes st1) = []).
  { apply elem_of_nil_inv. intros n Hn.
    apply list_elem_of_filter in Hn as [[Hne Hnot] Hin].
    apply list_elem_of_fmap in Hin as (i & -> & Hi).
    destruct (Hlive i Hi) as [Hid | Hd]; [done |].
    apply Hnot. by rewrite Hperm. }
  rewrite Hnone. simpl.
  destruct (V2_create_all_like_V1 (Ref.driver srv) ordered st1) as (Htc & Hfc & Hoc).
  assert (Hv1 : run (Ref.driver srv) (V1.create_all ordered) st1 =
                mkRun (Returned (Ok tt)) st1
                      (Indexes_CreateOne writeCollection <$> ordered)).
  { apply Ref_create_all_settled. intros idx Hidx. apply Hsettled.
    by rewrite <- Hperm. }
  rewrite Hv1 in Htc, Hfc, Hoc. simpl in Htc, Hfc, Hoc.
  destruct (V2_create_all_run (Ref.driver srv) ordered st1) as (_ & _ & _ & [x Hx] & _).
  rewrite Htc, Hfc.
  split; [by apply Hoc |]. split; [done |].
  split; [apply drops_CreateOne |].
  change (creates (Indexes_CreateOne writeCollection <$> ordered) ≡ₚ indexes).
  by rewrite creates_CreateOne.
Qed.

Lemma V2_EnsureIndexes_idempotent_witness :
  let r2 := run (Ref.driver Sample.srv)
                (V2.EnsureIndexes Ref.by_name Sample.desired_AB)
                (mkStore [] Sample.live_AB) in
  out r2 = Returned (Ok tt) /\
  final r2 = mkStore [] Sample.live_AB /\
  drops (trace r2) = [] /\
  creates (trace r2) ≡ₚ Sample.desired_AB.
Proof.
  apply (V2_EnsureIndexes_idempotent Sample.srv Ref.by_name Ref.by_name
           Sample.desired_AB (mkStore [] Sample.live_AC) (mkStore [] Sample.live_AB)
           [Indexes_List writeCollection;
            Indexes_DropOne writeCollection "C";
            Indexes_CreateOne writeCollection
              (Sample.named "A" (Sample.key "field" 1));
            Indexes_CreateOne writeCollection
              (Sample.named "B" (Sample.key "field" (-1)))]).
  - repeat constructor; by eexists.
  - vm_compute. reflexivity.
Defined.

(** ** NewDatabase *)

Lemma optionsMongoClient_eq uri monitor rp :
  Rest.optionsMongoClient uri monitor rp = Rest.mkClientOptions uri rp monitor.
Proof. by destruct monitor. Qed.

Lemma read_fallback_keeps options :
  Rest.writeURL (Rest.read_fallback options) = Rest.writeURL options /\
  Rest.database (Rest.read_fallback options) = Rest.database options /\
  Rest.monitor (Rest.read_fallback options) = Rest.monitor options /\
  Rest.timeout (Rest.read_fallback options) = Rest.timeout options.
Proof.
  unfold Rest.read_fallback.
  destruct (Rest.separateReadWrite options); simpl; [| done].
  by destruct (decide (Rest.readURL options = ""%string)).
Qed.

Lemma read_fallback_readURL options :
  Rest.readURL (Rest.read_fallback options) =
    if Rest.separateReadWrite options
    then if decide (Rest.readURL options = ""%string)
         then Rest.writeURL options else Rest.readURL options
    else Rest.writeURL options.
Proof.
  unfold Rest.read_fallback.
  destruct (Rest.separateReadWrite options); simpl; [| done].
  by destruct (decide (Rest.readURL options = ""%string)).
Qed.

Lemma read_fallback_nonempty options :
  Rest.writeURL options <> ""%string ->
  Rest.readURL (Rest.read_fallback options) <> ""%string.
Proof.
  intros Hw. rewrite read_fallback_readURL.
  destruct (Rest.separateReadWrite options); [| done].
  by destruct (decide (Rest.readURL options = ""%string)).
Qed.

(** The calls [NewDatabase] sets out to make once the options are
    accepted, and what it comes to. *)

(** With a nil option among them the loop over the options panics, and
    otherwise it gets through. *)
Lemma apply_all_nil opts options :
  None ∈ opts <-> Rest.apply_all opts options = None.
Proof.
  revert options. induction opts as [| [opt |] rest IH]; intros options; simpl.
  - split; [intros H; by apply elem_of_nil in H | done].
  - rewrite <- IH. split.
    + intros H. apply elem_of_cons in H as [H | H]; [done | exact H].
    + intros H. by right.
  - split; [done | intros _; by left].
Qed.

Lemma NewDatabase_nil_option (d : Rest.Driver) (s : Rest.State d) opts :
  None ∈ opts ->
  Rest.run d (Rest.NewDatabase opts) s = Rest.mkRan (Crashed nil_dereference) s [].
Proof.
  intros H. unfold Rest.NewDatabase, Rest.apply_options.
  by rewrite (proj1 (apply_all_nil opts _) H).
Qed.

(** The calls [NewDatabase] sets out to make once the options are
    accepted, and what it comes to. *)
Lemma NewDatabase_run (d : Rest.Driver) (s : Rest.State d) opts applied :
  Rest.apply_options opts = Some applied ->
  let options := Rest.read_fallback applied in
  let ctx := Rest.timeout options in
  let c1 := Rest.mongo_Connect ctx
              (Rest.mkClientOptions (Rest.writeURL options) Rest.Primary
                                    (Rest.monitor options)) in
  let c2 := Rest.mongo_Connect ctx
              (Rest.mkClientOptions (Rest.readURL options)
                                    Rest.SecondaryPreferred
                                    (Rest.monitor options)) in
  Rest.writeURL applied <> ""%string ->
  Rest.database applied <> ""%string ->
  let r := Rest.run d (Rest.NewDatabase opts) s in
  match Rest.respond d c1 s with
  | (Err e, s1) =>
      r = Rest.mkRan (Returned (Err (fmt_Errorf "failed to connect to write DB: " e)))
                     s1 [c1]
  | (Ok writeClient, s1) =>
      match Rest.respond d c2 s1 with
      | (Err e, s2) =>
          r = Rest.mkRan (Returned (Err (fmt_Errorf "failed to connect to read DB: " e)))
                         s2 [c1; c2]
      | (Ok readClient, s2) =>
          let c3 := Rest.Client_Ping ctx writeClient Rest.Primary in
          let c4 := Rest.Client_Ping ctx readClient Rest.SecondaryPreferred in
          match Rest.respond d c3 s2 with
          | (Err e, s3) =>
              r = Rest.mkRan (Returned (Err (fmt_Errorf "write DB ping failed: " e)))
                             s3 [c1; c2; c3]
          | (Ok _, s3) =>
              match Rest.respond d c4 s3 with
              | (Err e, s4) =>
                  r = Rest.mkRan (Returned (Err (fmt_Errorf "read DB ping failed: " e)))
                                 s4 [c1; c2; c3; c4]
              | (Ok _, s4) =>
                  r = Rest.mkRan
                        (Returned (Ok (Rest.mkDatabase
                                         (Rest.mkMongoDatabase writeClient
                                            (Rest.database options))
                                         (Rest.mkMongoDatabase readClient
                                            (Rest.database options)))))
                        s4 [c1; c2; c3; c4]
              end
          end
      end
  end.
Proof.
  intros Happ options ctx c1 c2 Hw Hd r. subst r. unfold Rest.NewDatabase.
  rewrite Happ.
  destruct (read_fallback_keeps applied) as (_ & Hd' & _).
  fold options in Hd'. cbv zeta.
  destruct (decide (Rest.writeURL applied = ""%string)) as [E | _];
    [contradiction |].
  fold options.
  destruct (decide (Rest.database options = ""%string)) as [E | _];
    [rewrite Hd' in E; contradiction |].
  rewrite !optionsMongoClient_eq. fold ctx c1 c2.
  simpl.
  destruct (Rest.respond d c1 s) as [[writeClient | e] s1]; simpl; [| done].
  destruct (Rest.respond d c2 s1) as [[readClient | e] s2]; simpl; [| done].
  destruct (Rest.respond d (Rest.Client_Ping ctx writeClient Rest.Primary) s2)
    as [[[] | e] s3]; simpl; [| done].
  destruct (Rest.respond d (Rest.Client_Ping ctx readClient Rest.SecondaryPreferred) s3)
    as [[[] | e] s4]; simpl; done.
Qed.

(** Without a write URL, and then without a database name, nothing is
    tried. *)
Lemma NewDatabase_rejects (d : Rest.Driver) (s : Rest.State d) opts options :
  Rest.apply_options opts = Some options ->
  let r := Rest.run d (Rest.NewDatabase opts) s in
  (Rest.writeURL options = ""%string ->
   r = Rest.mkRan (Returned (Err (errors_New "write URL is required"))) s []) /\
  (Rest.writeURL options <> ""%string -> Rest.database options = ""%string ->
   r = Rest.mkRan (Returned (Err (errors_New "database name is required"))) s []).
Proof.
  intros Happ r.
  destruct (read_fallback_keeps options) as (_ & Hd & _). split.
  - intros E. subst r. unfold Rest.NewDatabase. rewrite Happ. cbv zeta.
    by destruct (decide (Rest.writeURL options = ""%string)).
  - intros E1 E2. subst r. unfold Rest.NewDatabase. rewrite Happ. cbv zeta.
    destruct (decide (Rest.writeURL options = ""%string)); [done |].
    rewrite Hd. by destruct (decide (Rest.database options = ""%string)).
Qed.

(** With both, the first call is the connection of the write client. *)
Lemma NewDatabase_connects (d : Rest.Driver) (s : Rest.State d) opts options :
  Rest.apply_options opts = Some options ->
  Rest.writeURL options <> ""%string -> Rest.database options <> ""%string ->
  exists t,
    Rest.calls (Rest.run d (Rest.NewDatabase opts) s) =
      Rest.mongo_Connect (Rest.timeout options)
        (Rest.mkClientOptions (Rest.writeURL options) Rest.Primary
                              (Rest.monitor options)) :: t.
Proof.
  intros Happ E1 E2.
  destruct (read_fallback_keeps options) as (Hw & Hd & Hm & Ht).
  pose proof (NewDatabase_run d s opts options Happ E1 E2) as Hrun.
  cbv zeta in Hrun. rewrite Hw, Hm, Ht in Hrun.
  destruct (Rest.respond d _ s) as [[writeClient | e] s1];
    [| rewrite Hrun; simpl; eauto].
  destruct (Rest.respond d _ s1) as [[readClient | e] s2];
    [| rewrite Hrun; simpl; eauto].
  destruct (Rest.respond d _ s2) as [[[] | e] s3];
    [| rewrite Hrun; simpl; eauto].
  destruct (Rest.respond d _ s3) as [[[] | e] s4];
    rewrite Hrun; simpl; eauto.
Qed.

(** X11. [NewDatabase] looks at its options before it reaches for the
    network: once the options are applied, without a write URL, and then
    without a database name, it returns the error that says so and makes
    no call; with both, the first thing it does is to connect to the
    write URL. *)
Theorem NewDatabase_validates_first :
  forall (d : Rest.Driver) (s : Rest.State d) (opts : list Rest.Option)
         (options : Rest.dbOptions),
    Rest.apply_options opts = Some options ->
    let r := Rest.run d (Rest.NewDatabase opts) s in
    (Rest.writeURL options = ""%string ->
     r = Rest.mkRan (Returned (Err (errors_New "write URL is required"))) s []) /\
    (Rest.writeURL options <> ""%string -> Rest.database options = ""%string ->
     r = Rest.mkRan (Returned (Err (errors_New "database name is required"))) s []) /\
    (Rest.writeURL options <> ""%string -> Rest.database options <> ""%string ->
     exists t, Rest.calls r =
       Rest.mongo_Connect (Rest.timeout options)
         (Rest.mkClientOptions (Rest.writeURL options) Rest.Primary
                               (Rest.monitor options)) :: t).
Proof.
  intros d s opts options Happ r.
  destruct (NewDatabase_rejects d s opts options Happ) as (H1 & H2).
  split; [exact H1 | split; [exact H2 |]].
  by apply NewDatabase_connects.
Qed.

Lemma NewDatabase_validates_first_witness :
  Rest.run (Up.driver Sample.srv) (Rest.NewDatabase []) (0%nat, Sample.store25) =
    Rest.mkRan (Returned (Err (errors_New "write URL is required")))
               (0%nat, Sample.store25) [] /\
  Rest.run (Up.driver Sample.srv)
           (Rest.NewDatabase [Rest.WithSingleURL "mongodb://db"])
           (0%nat, Sample.store25) =
    Rest.mkRan (Returned (Err (errors_New "database name is required")))
               (0%nat, Sample.store25) [] /\
  exists t,
    Rest.calls (Rest.run (Up.driver Sample.srv)
                  (Rest.NewDatabase [Rest.WithSingleURL "mongodb://db";
                                     Rest.WithDatabase "app"])
                  (0%nat, Sample.store25)) =
      Rest.mongo_Connect (10 * Rest.Second)
        (Rest.mkClientOptions "mongodb://db" Rest.Primary None) :: t.
Proof.
  split; [| split].
  - apply (NewDatabase_validates_first (Up.driver Sample.srv)
             (0%nat, Sample.store25) [] _ eq_refl). reflexivity.
  - apply (NewDatabase_validates_first (Up.driver Sample.srv)
             (0%nat, Sample.store25) [Rest.WithSingleURL "mongodb://db"]
             _ eq_refl).
    + discriminate.
    + reflexivity.
  - apply (NewDatabase_validates_first (Up.driver Sample.srv)
             (0%nat, Sample.store25)
             [Rest.WithSingleURL "mongodb://db"; Rest.WithDatabase "app"]
             _ eq_refl);
      discriminate.
Defined.

(** X12. When [NewDatabase] hands out a database, no option was nil and
    both clients have been connected and both have answered a ping, in
    that order and under one time-out: the write handle is on the client
    connected to the write URL with the primary as read preference, the
    read handle on the client connected to the read URL with a
    preference for secondaries, neither URL nor the database name is
    empty, both handles carry that name, and with read/write separation
    off the two URLs are the same. *)
Theorem NewDatabase_Ok :
  forall (d : Rest.Driver) (s : Rest.State d) (opts : list Rest.Option)
         (db : Rest.Database),
    Rest.came_to (Rest.run d (Rest.NewDatabase opts) s) = Returned (Ok db) ->
    exists applied,
      Rest.apply_options opts = Some applied /\
      let options := Rest.read_fallback applied in
      let ctx := Rest.timeout options in
      let c1 := Rest.mongo_Connect ctx
                  (Rest.mkClientOptions (Rest.writeURL options) Rest.Primary
                                        (Rest.monitor options)) in
      let c2 := Rest.mongo_Connect ctx
                  (Rest.mkClientOptions (Rest.readURL options)
                                        Rest.SecondaryPreferred
                                        (Rest.monitor options)) in
      Rest.writeURL options <> ""%string /\
      Rest.readURL options <> ""%string /\
      Rest.database options <> ""%string /\
      (Rest.separateReadWrite applied = false ->
       Rest.readURL options = Rest.writeURL options) /\
      Rest.db_name (Rest.writeDB db) = Rest.database options /\
      Rest.db_name (Rest.readDB db) = Rest.database options /\
      Rest.calls (Rest.run d (Rest.NewDatabase opts) s) =
        [c1; c2;
         Rest.Client_Ping ctx (Rest.db_client (Rest.writeDB db)) Rest.Primary;
         Rest.Client_Ping ctx (Rest.db_client (Rest.readDB db))
                          Rest.SecondaryPreferred] /\
      exists s1 s2,
        Rest.respond d c1 s = (Ok (Rest.db_client (Rest.writeDB db)), s1) /\
        Rest.respond d c2 s1 = (Ok (Rest.db_client (Rest.readDB db)), s2).
Proof.
  intros d s opts db Hok.
  destruct (Rest.apply_options opts) as [applied |] eqn:Happ.
  2: { unfold Rest.NewDatabase in Hok. rewrite Happ in Hok. discriminate. }
  exists applied. split; [done |]. intros options ctx c1 c2.
  destruct (read_fallback_keeps applied) as (Hw & Hd & _).
  fold options in Hw, Hd.
  destruct (NewDatabase_rejects d s opts applied Happ) as (H1 & H2).
  cbv zeta in H1, H2.
  assert (E1 : Rest.writeURL applied <> ""%string).
  { intros E. rewrite (H1 E) in Hok. discriminate. }
  assert (E2 : Rest.database applied <> ""%string).
  { intros E. rewrite (H2 E1 E) in Hok. discriminate. }
  assert (E3 : Rest.readURL options <> ""%string).
  { by apply read_fallback_nonempty. }
  assert (E4 : Rest.separateReadWrite applied = false ->
               Rest.readURL options = Rest.writeURL options).
  { intros E. unfold options. rewrite read_fallback_readURL, E.
    fold options. by rewrite Hw. }
  pose proof (NewDatabase_run d s opts applied Happ E1 E2) as Hrun.
  cbv zeta in Hrun.
  fold options in Hrun. fold ctx in Hrun. fold c1 c2 in Hrun.
  rewrite <- Hw in E1. rewrite <- Hd in E2.
  destruct (Rest.respond d c1 s) as [[writeClient | e] s1];
    [| rewrite Hrun in Hok; discriminate].
  destruct (Rest.respond d c2 s1) as [[readClient | e] s2] eqn:R2;
    [| rewrite Hrun in Hok; discriminate].
  destruct (Rest.respond d _ s2) as [[[] | e] s3];
    [| rewrite Hrun in Hok; discriminate].
  destruct (Rest.respond d _ s3) as [[[] | e] s4];
    [| rewrite Hrun in Hok; discriminate].
  rewrite Hrun in Hok. simpl in Hok.
  injection Hok as <-. rewrite Hrun. simpl.
  repeat (split; [done |]). exists s1, s2. split; [done | exact R2].
Qed.

Lemma NewDatabase_Ok_witness :
  let opts := [Rest.WithMongoURLs "mongodb://primary" "mongodb://replica";
               Rest.WithDatabase "app"] in
  let r := Rest.run (Up.driver Sample.srv) (Rest.NewDatabase opts)
                    (0%nat, Sample.store25) in
  Rest.calls r =
    [Rest.mongo_Connect (10 * Rest.Second)
       (Rest.mkClientOptions "mongodb://primary" Rest.Primary None);
     Rest.mongo_Connect (10 * Rest.Second)
       (Rest.mkClientOptions "mongodb://replica" Rest.SecondaryPreferred None);
     Rest.Client_Ping (10 * Rest.Second) 0%nat Rest.Primary;
     Rest.Client_Ping (10 * Rest.Second) 1%nat Rest.SecondaryPreferred].
Proof.
  intros opts r.
  destruct (NewDatabase_Ok (Up.driver Sample.srv) (0%nat, Sample.store25) opts
              (Rest.mkDatabase (Rest.mkMongoDatabase 0%nat "app")
                               (Rest.mkMongoDatabase 1%nat "app")))
    as (applied & Happ & _ & _ & _ & _ & _ & _ & Hcalls & _); [reflexivity |].
  injection Happ as <-. exact Hcalls.
Defined.

(** X13. [NewDatabase] panics when it is handed a nil option, and only
    then: the nil function is called in the loop over the options,
    before anything is looked at and before any call. Otherwise an error
    tells how far it got: the two errors of the options come before any
    call, and each error of the network names its step, wraps what the
    driver said, and is returned after as many calls as that step
    counts, with no call after the one that failed. *)
Theorem NewDatabase_fails_fast :
  forall (d : Rest.Driver) (s : Rest.State d) (opts : list Rest.Option),
    let r := Rest.run d (Rest.NewDatabase opts) s in
    (None ∈ opts -> r = Rest.mkRan (Crashed nil_dereference) s []) /\
    (forall c, Rest.came_to r = Crashed c -> None ∈ opts) /\
    (forall e, Rest.came_to r = Returned (Err e) ->
       (Rest.calls r = [] /\
        (e = errors_New "write URL is required" \/
         e = errors_New "database name is required")) \/
       (exists e', e = fmt_Errorf "failed to connect to write DB: " e' /\
                   length (Rest.calls r) = 1%nat) \/
       (exists e', e = fmt_Errorf "failed to connect to read DB: " e' /\
                   length (Rest.calls r) = 2%nat) \/
       (exists e', e = fmt_Errorf "write DB ping failed: " e' /\
                   length (Rest.calls r) = 3%nat) \/
       (exists e', e = fmt_Errorf "read DB ping failed: " e' /\
                   length (Rest.calls r) = 4%nat)).
Proof.
  intros d s opts r. split; [apply NewDatabase_nil_option |].
  destruct (Rest.apply_options opts) as [applied |] eqn:Happ.
  2: { assert (Hnil : None ∈ opts) by exact (proj2 (apply_all_nil opts _) Happ).
       unfold r. rewrite (NewDatabase_nil_option d s opts Hnil). simpl.
       split; [done | discriminate]. }
  destruct (NewDatabase_rejects d s opts applied Happ) as (H1 & H2).
  cbv zeta in H1, H2. fold r in H1, H2.
  destruct (decide (Rest.writeURL applied = ""%string)) as [E1 | E1].
  { rewrite (H1 E1). split; [done |]. intros e [= <-]. left. split; [done | by left]. }
  destruct (decide (Rest.database applied = ""%string)) as [E2 | E2].
  { rewrite (H2 E1 E2). split; [done |]. intros e [= <-]. left. split; [done | by right]. }
  pose proof (NewDatabase_run d s opts applied Happ E1 E2) as Hrun.
  cbv zeta in Hrun. fold r in Hrun.
  destruct (Rest.respond d _ s) as [[writeClient | e1] s1].
  2: { rewrite Hrun. split; [done |]. intros e [= <-]. right; left. eauto. }
  destruct (Rest.respond d _ s1) as [[readClient | e2] s2].
  2: { rewrite Hrun. split; [done |]. intros e [= <-]. do 2 right; left. eauto. }
  destruct (Rest.respond d _ s2) as [[[] | e3] s3].
  2: { rewrite Hrun. split; [done |]. intros e [= <-]. do 3 right; left. eauto. }
  destruct (Rest.respond d _ s3) as [[[] | e4] s4].
  2: { rewrite Hrun. split; [done |]. intros e [= <-]. do 4 right. eauto. }
  rewrite Hrun. split; [done |]. intros e [=].
Qed.

Lemma NewDatabase_fails_fast_witness :
  Rest.run (Up.driver Sample.srv)
           (Rest.NewDatabase [Rest.WithSingleURL "mongodb://db"; None])
           (0%nat, Sample.store25) =
    Rest.mkRan (Crashed nil_dereference) (0%nat, Sample.store25) [] /\
  Rest.calls (Rest.run (Up.driver Sample.srv)
                (Rest.NewDatabase [Rest.WithDatabase "app"])
                (0%nat, Sample.store25)) = [].
Proof.
  split.
  - apply (NewDatabase_fails_fast (Up.driver Sample.srv) (0%nat, Sample.store25)
             [Rest.WithSingleURL "mongodb://db"; None]).
    right. left.
  - destruct (NewDatabase_fails_fast (Up.driver Sample.srv) (0%nat, Sample.store25)
                [Rest.WithDatabase "app"]) as (_ & _ & Herr).
    destruct (Herr (errors_New "write URL is required") eq_refl)
      as [(Hcalls & _) | [(e' & He & _) | [(e' & He & _) | [(e' & He & _) | (e' & He & _)]]]];
      [exact Hcalls | discriminate He ..].
Defined.
(** ** The options of NewDatabase *)

Lemma apply_all_app pre post options :
  Rest.apply_all (pre ++ post) options =
  match Rest.apply_all pre options with
  | Some applied => Rest.apply_all post applied
  | None => None
  end.
Proof.
  revert options. induction pre as [| [opt |] pre IH]; intros options; simpl;
    [done | apply IH | done].
Qed.

(** Two option lists that come to the same URLs, name, monitor and
    time-out make the same program. *)
Lemma NewDatabase_ext opts1 opts2 o1 o2 :
  Rest.apply_options opts1 = Some o1 ->
  Rest.apply_options opts2 = Some o2 ->
  Rest.writeURL (Rest.read_fallback o1) = Rest.writeURL (Rest.read_fallback o2) ->
  Rest.readURL (Rest.read_fallback o1) = Rest.readURL (Rest.read_fallback o2) ->
  Rest.database (Rest.read_fallback o1) = Rest.database (Rest.read_fallback o2) ->
  Rest.monitor (Rest.read_fallback o1) = Rest.monitor (Rest.read_fallback o2) ->
  Rest.timeout (Rest.read_fallback o1) = Rest.timeout (Rest.read_fallback o2) ->
  Rest.NewDatabase opts1 = Rest.NewDatabase opts2.
Proof.
  intros H1 H2 Hw Hr Hd Hm Ht. unfold Rest.NewDatabase. rewrite H1, H2. cbv zeta.
  rewrite <- (proj1 (read_fallback_keeps o1)).
  rewrite <- (proj1 (read_fallback_keeps o2)).
  by rewrite Hw, Hr, Hd, Hm, Ht.
Qed.

Lemma alike_built opt :
  Rest.built opt ->
  exists f, opt = Some f /\
            forall o1 o2, Rest.alike o1 o2 -> Rest.alike (f o1) (f o2).
Proof.
  intros Hopt. destruct Hopt; (eexists; split; [reflexivity |]);
    intros o1 o2 (Hw & Hd & Hm & Ht & Hr); unfold Rest.alike; simpl;
    repeat (split; [done |]); tauto.
Qed.

Lemma alike_all post o1 o2 :
  Forall Rest.built post -> Rest.alike o1 o2 ->
  exists a1 a2, Rest.apply_all post o1 = Some a1 /\
                Rest.apply_all post o2 = Some a2 /\ Rest.alike a1 a2.
Proof.
  intros Hpost. revert o1 o2.
  induction Hpost as [| opt post Hopt _ IH]; intros o1 o2 H; simpl.
  - by exists o1, o2.
  - destruct (alike_built opt Hopt) as (f & -> & Hf). apply IH. by apply Hf.
Qed.

Lemma alike_read_fallback o1 o2 :
  Rest.alike o1 o2 ->
  Rest.writeURL (Rest.read_fallback o1) = Rest.writeURL (Rest.read_fallback o2) /\
  Rest.readURL (Rest.read_fallback o1) = Rest.readURL (Rest.read_fallback o2) /\
  Rest.database (Rest.read_fallback o1) = Rest.database (Rest.read_fallback o2) /\
  Rest.monitor (Rest.read_fallback o1) = Rest.monitor (Rest.read_fallback o2) /\
  Rest.timeout (Rest.read_fallback o1) = Rest.timeout (Rest.read_fallback o2).
Proof.
  intros (Hw & Hd & Hm & Ht & Hr).
  destruct (read_fallback_keeps o1) as (-> & -> & -> & ->).
  destruct (read_fallback_keeps o2) as (-> & -> & -> & ->).
  repeat (split; [done |]). split; [| done].
  rewrite !read_fallback_readURL.
  destruct Hr as [[Hr Hs] | [Hr1 Hr2]].
  - rewrite Hr, Hs, Hw. done.
  - rewrite Hr1, Hr2.
    destruct (Rest.separateReadWrite o1), (Rest.separateReadWrite o2);
      repeat case_decide; congruence.
Qed.

(** X14. Where [WithSeparateReadWrite] counts. After [WithSingleURL] it makes
    no difference, whatever options follow; and before [WithSingleURL]
    or [WithMongoURLs] it makes no difference either, as both set the
    flag themselves: the connections made are the same with and without
    it. *)
Theorem WithSeparateReadWrite_where_it_counts :
  forall (pre post : list Rest.Option) (enabled : bool) (url w r : string),
    (Forall Rest.built post ->
     Rest.NewDatabase (pre ++ [Rest.WithSingleURL url;
                               Rest.WithSeparateReadWrite enabled] ++ post) =
     Rest.NewDatabase (pre ++ [Rest.WithSingleURL url] ++ post)) /\
    Rest.NewDatabase (pre ++ [Rest.WithSeparateReadWrite enabled;
                              Rest.WithSingleURL url] ++ post) =
    Rest.NewDatabase (pre ++ [Rest.WithSingleURL url] ++ post) /\
    Rest.NewDatabase (pre ++ [Rest.WithSeparateReadWrite enabled;
                              Rest.WithMongoURLs w r] ++ post) =
    Rest.NewDatabase (pre ++ [Rest.WithMongoURLs w r] ++ post).
Proof.
  intros pre post enabled url w r. split; [| split].
  - intros Hpost.
    destruct (Rest.apply_options pre) as [a |] eqn:Hpre.
    + unfold Rest.apply_options in Hpre.
      set (o1 := Rest.mkDbOptions url url (Rest.database a) (Rest.monitor a)
                                  (Rest.timeout a) enabled).
      set (o2 := Rest.mkDbOptions url url (Rest.database a) (Rest.monitor a)
                                  (Rest.timeout a) false).
      assert (Halike : Rest.alike o1 o2).
      { unfold Rest.alike. simpl. repeat (split; [done |]). by right. }
      destruct (alike_all post o1 o2 Hpost Halike) as (a1 & a2 & H1 & H2 & Ha).
      apply alike_read_fallback in Ha as (Hw & Hr & Hd & Hm & Ht).
      apply (NewDatabase_ext _ _ a1 a2); try done.
      * unfold Rest.apply_options. rewrite apply_all_app, Hpre. exact H1.
      * unfold Rest.apply_options. rewrite apply_all_app, Hpre. exact H2.
    + unfold Rest.NewDatabase, Rest.apply_options in *.
      by rewrite !apply_all_app, Hpre.
  - unfold Rest.NewDatabase, Rest.apply_options. rewrite !apply_all_app.
    by destruct (Rest.apply_all pre _).
  - unfold Rest.NewDatabase, Rest.apply_options. rewrite !apply_all_app.
    by destruct (Rest.apply_all pre _).
Qed.

Lemma WithSeparateReadWrite_where_it_counts_witness :
  Rest.NewDatabase ([] ++ [Rest.WithSingleURL "mongodb://db";
                           Rest.WithSeparateReadWrite true] ++
                    [Rest.WithDatabase "app"]) =
  Rest.NewDatabase ([] ++ [Rest.WithSingleURL "mongodb://db"] ++
                    [Rest.WithDatabase "app"]).
Proof.
  refine (proj1 (WithSeparateReadWrite_where_it_counts
                   [] [Rest.WithDatabase "app"] true "mongodb://db"
                   ""%string ""%string) _).
  repeat constructor.
Defined.

(** ** The constructors from a Config *)

(** X15. [New] and [NewWithMonitor] look at the database name last. Without
    a name they never hand out a database, yet they look at nothing
    before they connect: the first call is the connection of the write
    client, whatever the configuration holds, and the error for the
    missing name comes only after both connections and both pings have
    been made. [New] is [NewWithMonitor] without a monitor. *)
Theorem Legacy_New_checks_the_name_last :
  forall (d : Rest.Driver) (s : Rest.State d) (config : Rest.Legacy.Config)
         (monitor : option Rest.CommandMonitor),
    Rest.Legacy.DatabaseName config = ""%string ->
    let r := Rest.run d (Rest.Legacy.NewWithMonitor (Some config) monitor) s in
    Rest.Legacy.New (Some config) =
      Rest.Legacy.NewWithMonitor (Some config) None /\
    (forall db, Rest.came_to r <> Returned (Ok db)) /\
    (exists t, Rest.calls r =
       Rest.mongo_Connect (10 * Rest.Second)
         (Rest.mkClientOptions (Rest.Legacy.WriteURL config) Rest.Primary
                               monitor) :: t) /\
    (Rest.came_to r = Returned (Err (errors_New "no database name configured")) ->
     exists writeClient readClient,
       Rest.calls r =
         [Rest.mongo_Connect (10 * Rest.Second)
            (Rest.mkClientOptions (Rest.Legacy.WriteURL config) Rest.Primary
                                  monitor);
          Rest.mongo_Connect (10 * Rest.Second)
            (Rest.mkClientOptions (Rest.Legacy.ReadURL config)
                                  Rest.SecondaryPreferred monitor);
          Rest.Client_Ping (10 * Rest.Second) writeClient Rest.Primary;
          Rest.Client_Ping (10 * Rest.Second) readClient
                           Rest.SecondaryPreferred]).
Proof.
  intros d s config monitor Hname r. split; [reflexivity |].
  subst r. unfold Rest.Legacy.NewWithMonitor. cbv zeta. rewrite Hname. simpl.
  destruct (Rest.respond d _ s) as [[writeClient | e1] s1]; simpl.
  2: { split; [done |]. split; [eauto | done]. }
  destruct (Rest.respond d _ s1) as [[readClient | e2] s2]; simpl.
  2: { split; [done |]. split; [eauto | done]. }
  destruct (Rest.respond d _ s2) as [[[] | e3] s3]; simpl.
  2: { split; [done |]. split; [eauto | done]. }
  destruct (Rest.respond d _ s3) as [[[] | e4] s4]; simpl.
  2: { split; [done |]. split; [eauto | done]. }
  split; [done |]. split; [eauto |]. intros _. by exists writeClient, readClient.
Qed.

Lemma Legacy_New_checks_the_name_last_witness :
  let config := Rest.Legacy.mkConfig "mongodb://primary" "mongodb://replica" "" in
  let r := Rest.run (Up.driver Sample.srv)
             (Rest.Legacy.NewWithMonitor (Some config) None)
             (0%nat, Sample.store25) in
  exists writeClient readClient,
    Rest.calls r =
      [Rest.mongo_Connect (10 * Rest.Second)
         (Rest.mkClientOptions "mongodb://primary" Rest.Primary None);
       Rest.mongo_Connect (10 * Rest.Second)
         (Rest.mkClientOptions "mongodb://replica" Rest.SecondaryPreferred None);
       Rest.Client_Ping (10 * Rest.Second) writeClient Rest.Primary;
       Rest.Client_Ping (10 * Rest.Second) readClient Rest.SecondaryPreferred].
Proof.
  intros config r.
  destruct (Legacy_New_checks_the_name_last (Up.driver Sample.srv)
              (0%nat, Sample.store25) config None eq_refl)
    as (_ & _ & _ & Hlast).
  apply Hlast. reflexivity.
Defined.

(** X16. Once its options are accepted, and with the time-out left at its
    default, [NewDatabase] does what [NewWithMonitor] does on the
    configuration the options come to: the same calls, the same
    outcome, the same state of the driver. *)
Theorem NewDatabase_like_Legacy :
  forall (d : Rest.Driver) (s : Rest.State d) (opts : list Rest.Option)
         (applied : Rest.dbOptions),
    Rest.apply_options opts = Some applied ->
    let options := Rest.read_fallback applied in
    Rest.writeURL options <> ""%string ->
    Rest.database options <> ""%string ->
    Rest.timeout options = 10 * Rest.Second ->
    Rest.run d (Rest.NewDatabase opts) s =
    Rest.run d (Rest.Legacy.NewWithMonitor
                  (Some (Rest.Legacy.mkConfig (Rest.writeURL options)
                                              (Rest.readURL options)
                                              (Rest.database options)))
                  (Rest.monitor options)) s.
Proof.
  intros d s opts applied Happ options Hw Hd Ht.
  destruct (read_fallback_keeps applied) as (Hw' & Hd' & _).
  fold options in Hw', Hd'.
  assert (E1 : Rest.writeURL applied <> ""%string) by (by rewrite <- Hw').
  assert (E2 : Rest.database applied <> ""%string) by (by rewrite <- Hd').
  pose proof (NewDatabase_run d s opts applied Happ E1 E2) as Hrun.
  cbv zeta in Hrun. fold options in Hrun. rewrite Ht in Hrun.
  unfold Rest.Legacy.NewWithMonitor. cbv zeta. simpl.
  destruct (decide (Rest.database options = ""%string)); [done |].
  destruct (Rest.respond d _ s) as [[writeClient | e1] s1]; simpl; [| done].
  destruct (Rest.respond d _ s1) as [[readClient | e2] s2]; simpl; [| done].
  destruct (Rest.respond d _ s2) as [[[] | e3] s3]; simpl; [| done].
  destruct (Rest.respond d _ s3) as [[[] | e4] s4]; simpl; done.
Qed.

Lemma NewDatabase_like_Legacy_witness :
  Rest.run (Up.driver Sample.srv)
           (Rest.NewDatabase [Rest.WithMongoURLs "mongodb://primary" "";
                              Rest.WithDatabase "app"; Rest.WithMonitor (Some 7%nat)])
           (0%nat, Sample.store25) =
  Rest.run (Up.driver Sample.srv)
           (Rest.Legacy.NewWithMonitor
              (Some (Rest.Legacy.mkConfig "mongodb://primary"
                                          "mongodb://primary" "app"))
              (Some 7%nat))
           (0%nat, Sample.store25).
Proof.
  apply (NewDatabase_like_Legacy (Up.driver Sample.srv) (0%nat, Sample.store25)
           [Rest.WithMongoURLs "mongodb://primary" "";
            Rest.WithDatabase "app"; Rest.WithMonitor (Some 7%nat)]
           _ eq_refl).
  - discriminate.
  - discriminate.
  - reflexivity.
Defined.

(** ** WithTransaction *)

(** X17. [WithTransaction] starts its session on the write client. A session
    that was started is ended, once, as the last call, whether the
    transaction came to a value, to an error, or the callback panicked;
    the callback is handed to the driver once, with that session. When
    the session does not start nothing else is called. The result is
    nil exactly when the transaction came to a value, which is dropped;
    the errors name their step. *)
Theorem WithTransaction_ends_its_session :
  forall (d : Rest.Driver) (s : Rest.State d) (db : Rest.Database)
         (callback : Rest.Callback),
    let start := Rest.Client_StartSession (Rest.db_client (Rest.writeDB db)) in
    let r := Rest.run d (Rest.WithTransaction db callback) s in
    (exists t, Rest.calls r = start :: t) /\
    (forall e s1, Rest.respond d start s = (Err e, s1) ->
       r = Rest.mkRan (Returned (Err (fmt_Errorf "start session failed: " e)))
                      s1 [start]) /\
    (forall session s1, Rest.respond d start s = (Ok session, s1) ->
       omap Rest.ended (Rest.calls r) = [session] /\
       last (Rest.calls r) = Some (Rest.Session_EndSession session) /\
       omap Rest.transacted (Rest.calls r) = [(session, callback)] /\
       Rest.came_to r =
         match fst (Rest.respond d (Rest.Session_WithTransaction session callback) s1) with
         | Returned (Ok _) => Returned (Ok tt)
         | Returned (Err e) =>
             Returned (Err (fmt_Errorf "transaction failed: " e))
         | Crashed c => Crashed c
         end).
Proof.
  intros d s db callback start r. subst r. unfold Rest.WithTransaction.
  fold start. simpl.
  destruct (Rest.respond d start s) as [[session | e] s1] eqn:Hstart; simpl.
  - split; [eauto |]. split; [intros ? ? [=] |].
    intros session' s1' [= <- <-].
    destruct (Rest.respond d (Rest.Session_WithTransaction session callback) s1)
      as [[[v | e] | c] s2]; simpl;
      destruct (Rest.respond d (Rest.Session_EndSession session) s2) as [[] s3];
      simpl; done.
  - split; [eauto |]. split; [| intros ? ? [=]].
    by intros e' s1' [= <- <-].
Qed.

Lemma WithTransaction_ends_its_session_witness :
  let db := Rest.mkDatabase (Rest.mkMongoDatabase 0%nat "app")
                            (Rest.mkMongoDatabase 1%nat "app") in
  let callback := V1.FindOne VNull None in
  let r := Rest.run (Up.driver Sample.srv) (Rest.WithTransaction db callback)
                    (2%nat, mkStore [] []) in
  omap Rest.ended (Rest.calls r) = [2%nat] /\
  Rest.came_to r =
    Returned (Err (fmt_Errorf "transaction failed: " Ref.ErrNoDocuments)).
Proof.
  intros db callback r.
  destruct (WithTransaction_ends_its_session (Up.driver Sample.srv)
              (2%nat, mkStore [] []) db callback) as (_ & _ & Hstarted).
  destruct (Hstarted 2%nat (3%nat, mkStore [] []) eq_refl)
    as (Hended & _ & _ & Hcame).
  split; [exact Hended | exact Hcame].
Defined.

(** ** FindOneAndUpdate and UpdateMany, second variant *)

(** X18. The second variant's [FindOneAndUpdate] never hands back a
    document. It sends the update, wrapped in [$set], to the write
    collection, and then decodes into a nil pointer: when the driver
    found and updated a document the caller still gets an error,
    [ErrDecodeToNil], and the driver is left in the state the update
    put it in. *)
Theorem V2_FindOneAndUpdate_never_returns_a_document :
  forall (d : Rest.Driver) (s : Rest.State d)
         (unmarshal : value -> result value) (filter update : value)
         (opt : option Rest.FindOneAndUpdateOptions),
    let c := Rest.Coll_FindOneAndUpdate writeCollection filter
               (bson_set update) [opt] in
    let r := Rest.run d (Rest.V2.FindOneAndUpdate unmarshal filter update opt) s in
    Rest.calls r = [c] /\
    Rest.left r = snd (Rest.respond d c s) /\
    (exists e, Rest.came_to r = Returned (Err e)) /\
    (forall raw s1, Rest.respond d c s = (Ok raw, s1) ->
       Rest.came_to r = Returned (Err Rest.ErrDecodeToNil)).
Proof.
  intros d s unmarshal filter update opt c r. subst r.
  unfold Rest.V2.FindOneAndUpdate. fold c. simpl.
  destruct (Rest.respond d c s) as [[raw | e] s1]; simpl.
  - repeat (split; [done |]). split; [eauto | done].
  - repeat (split; [done |]). split; [eauto |]. intros ? ? [=].
Qed.

Lemma V2_FindOneAndUpdate_never_returns_a_document_witness :
  let r := Rest.run (Up.driver Sample.srv)
             (Rest.V2.FindOneAndUpdate Ok VNull (VInt 1) None)
             (0%nat, Sample.store25) in
  Rest.came_to r = Returned (Err Rest.ErrDecodeToNil).
Proof.
  intros r.
  destruct (V2_FindOneAndUpdate_never_returns_a_document
              (Up.driver Sample.srv) (0%nat, Sample.store25) Ok VNull (VInt 1) None)
    as (_ & _ & _ & Hfound).
  eapply Hfound. vm_compute. reflexivity.
Defined.

(** X19. The second variant's [UpdateMany] asks for a hint as its
    [UpdateOne] does: with options that carry none it returns the
    error and nothing is sent; and every call it does send goes to the
    write collection, carries the options it was handed, with a hint,
    and has the update wrapped in [$set]. *)
Theorem V2_UpdateMany_requires_hint :
  forall (d : Rest.Driver) (s : Rest.State d) (filter update : value),
    (forall o, Hint o = None ->
       Rest.run d (Rest.V2.UpdateMany filter update (Some o)) s =
         Rest.mkRan (Returned (Err (errors_New "miss hint index"))) s []) /\
    (forall options,
       Forall (fun c => exists o, options = Some o /\ is_Some (Hint o) /\
                 c = Rest.Coll_UpdateMany writeCollection filter
                       (bson_set update) [Some o])
              (Rest.calls (Rest.run d (Rest.V2.UpdateMany filter update options) s))).
Proof.
  intros d s filter update. split.
  - intros o Hhint. unfold Rest.V2.UpdateMany. by rewrite Hhint.
  - intros [o |]; [| by constructor]. unfold Rest.V2.UpdateMany.
    destruct (Hint o) as [h |] eqn:Hhint; [| by constructor].
    simpl. destruct (Rest.respond d _ s) as [a s1]. simpl.
    constructor; [| done]. exists o. by rewrite Hhint.
Qed.

Lemma V2_UpdateMany_requires_hint_witness :
  Rest.run (Up.driver Sample.srv)
           (Rest.V2.UpdateMany VNull (VInt 1) (Some (mkUpdateOptions None None)))
           (0%nat, Sample.store25) =
    Rest.mkRan (Returned (Err (errors_New "miss hint index")))
               (0%nat, Sample.store25) [].
Proof.
  apply (V2_UpdateMany_requires_hint (Up.driver Sample.srv)
           (0%nat, Sample.store25) VNull (VInt 1)).
  reflexivity.
Defined.

(** ** Find short of a page *)

(** X20. What [Find] does when it does not get to a page. With a pagination
    object, a count that fails ends it there: the error is handed back,
    no query is made, and options and pagination are as they were
    handed in. With a pagination object but nil options, it panics
    right after the count. Without a pagination object it makes one
    call, the query on the read collection with the options as given,
    and touches neither options nor pagination. *)
Theorem Find_short_of_a_page :
  forall (d : Driver) (s : State d) (filter : value),
    let count := CountDocuments readCollection filter in
    (forall opt p e s1,
       respond d count s = (Err e, s1) ->
       run d (Find filter opt (Some p)) s =
         mkRun (Returned (mkFound (Err e) opt (Some p))) s1 [count]) /\
    (forall p total s1,
       respond d count s = (Ok total, s1) ->
       run d (Find filter None (Some p)) s =
         mkRun (Crashed nil_dereference) s1 [count]) /\
    (forall opt,
       let r := run d (Find filter opt None) s in
       trace r = [Coll_Find readCollection filter opt] /\
       exists x, out r = Returned x /\
                 opt_after x = opt /\ pagination_after x = None).
Proof.
  intros d s filter count. split; [| split].
  - intros opt p e s1 H. unfold Find. simpl. fold count. by rewrite H.
  - intros p total s1 H. unfold Find. simpl. fold count. by rewrite H.
  - intros opt r. subst r. unfold Find, query. simpl.
    destruct (respond d _ s) as [[[docs | e] | e] s1]; simpl;
      (split; [done |]); eexists; (split; [done |]); done.
Qed.

Lemma Find_short_of_a_page_witness :
  run (Ref.driver Sample.srv) (Find VNull None (Some (mkPagination 10 0 2 0 0)))
      Sample.store25 =
    mkRun (Crashed nil_dereference) Sample.store25
          [CountDocuments readCollection VNull].
Proof.
  refine (proj1 (proj2 (Find_short_of_a_page (Ref.driver Sample.srv)
                          Sample.store25 VNull))
                (mkPagination 10 0 2 0 0) 25 Sample.store25 _).
  reflexivity.
Defined.

(** ** EnsureIndexes: a listing that does not come through *)

Lemma V1_existing_names_broken items acc :
  Exists (fun item => exists e, item = Err e) items ->
  exists e, V1.existing_names items acc = Err e.
Proof.
  intros H. revert acc.
  induction H as [item items (e & ->) | [i | e] items _ IH]; intros acc; simpl;
    eauto.
Qed.

Lemma V1_existing_names_whole items acc :
  Forall (fun item => exists i, item = Ok i) items ->
  exists existing, V1.existing_names items acc = Ok existing.
Proof.
  intros H. revert acc.
  induction H as [| item items (i & ->) _ IH]; intros acc; simpl; eauto.
Qed.

Lemma V2_drop_candidates_broken (d : Driver) items indexes acc (s : State d) :
  Exists (fun item => exists e, item = Err e) items ->
  forall l, out (run d (V2.drop_candidates items indexes acc) s) <> Returned (Ok l).
Proof.
  intros H. revert acc.
  induction H as [item items (e & ->) | [i | e] items _ IH]; intros acc l; simpl;
    try done.
  destruct (decide (index_Name i = "_id_"%string)); [apply IH |].
  destruct (V2.is_drop indexes (index_Name i) true) as [[|] |];
    [apply IH | apply IH | done].
Qed.

(** The scan of the second variant makes no call: it comes to the same
    under every driver. *)
Lemma V2_drop_candidates_any_driver (d d' : Driver) items indexes acc
    (s : State d) (s' : State d') :
  out (run d (V2.drop_candidates items indexes acc) s) =
  out (run d' (V2.drop_candidates items indexes acc) s').
Proof.
  revert acc. induction items as [| [i | e] items IH]; intros acc; simpl;
    [done | | done].
  destruct (decide (index_Name i = "_id_"%string)); [apply IH |].
  destruct (V2.is_drop indexes (index_Name i) true) as [[|] |];
    [apply IH | apply IH | done].
Qed.

(** A cursor that ends on an error changes nothing for the drops and
    the creates. *)
Lemma cursor_fails_drop_all e (d : Driver) names (s : State d) :
  run (cursor_fails e d) (V2.drop_all names) s = run d (V2.drop_all names) s.
Proof.
  revert s. induction names as [| name rest IH]; intros s; simpl; [done |].
  destruct (respond d (Indexes_DropOne writeCollection name) s) as [[[] | x] s1];
    simpl; [| done].
  by rewrite IH.
Qed.

Lemma cursor_fails_create_all e (d : Driver) indexes (s : State d) :
  run (cursor_fails e d) (V2.create_all indexes) s =
  run d (V2.create_all indexes) s.
Proof.
  revert s. induction indexes as [| idx rest IH]; intros s; simpl; [done |].
  destruct (respond d (Indexes_CreateOne writeCollection idx) s)
    as [[name | x] s1]; simpl; [| done].
  by rewrite IH.
Qed.

(** X21. What [EnsureIndexes] does when the listing does not come
    through. When the listing call fails, the first variant returns the
    error, wrapped, and the second ends the process ([log.Fatalf]); when
    an entry of the listing does not decode, neither variant returns
    nil; in both cases the listing is the only call made, and nothing is
    dropped or created. When the cursor ends on an error after entries
    that decode, the first variant returns that error, wrapped, and
    again makes no other call; the second variant never looks at the
    error of the cursor: it does just what it does when the cursor ends
    well after the same entries, drops and creates included. *)
Theorem EnsureIndexes_when_the_listing_breaks :
  forall (d : Driver) (s s1 : State d) (order : MapOrder) (sorter : Sorter)
         (indexes : list IndexModel),
    let listing := Indexes_List writeCollection in
    let r1 := run d (V1.EnsureIndexes order indexes) s in
    let r2 := run d (V2.EnsureIndexes sorter indexes) s in
    (forall e, respond d listing s = (Err e, s1) ->
       r1 = mkRun (Returned (Err (fmt_Errorf "list indexes failed: " e))) s1
                  [listing] /\
       r2 = mkRun (Crashed (log_Fatalf "Something went wrong: ")) s1 [listing]) /\
    (forall cursor, respond d listing s = (Ok cursor, s1) ->
       Exists (fun item => exists e, item = Err e) (batch cursor) ->
       (trace r1 = [listing] /\ final r1 = s1 /\ out r1 <> Returned (Ok tt)) /\
       (trace r2 = [listing] /\ final r2 = s1 /\ out r2 <> Returned (Ok tt))) /\
    (forall cursor e, respond d listing s = (Ok cursor, s1) ->
       Forall (fun item => exists i, item = Ok i) (batch cursor) ->
       cursor_Err cursor = Some e ->
       r1 = mkRun (Returned (Err (fmt_Errorf "cursor error: " e))) s1 [listing]) /\
    (forall e,
       run (cursor_fails e d) (V2.EnsureIndexes sorter indexes) s = r2).
Proof.
  intros d s s1 order sorter indexes listing r1 r2. split; [| split; [| split]].
  - intros e H. subst r1 r2. unfold V1.EnsureIndexes, V2.EnsureIndexes. simpl.
    fold listing. by rewrite H.
  - intros cursor H Hbroken. split.
    + subst r1. unfold V1.EnsureIndexes. simpl. fold listing. rewrite H.
      destruct (V1_existing_names_broken _ ∅ Hbroken) as (e & ->). by simpl.
    + subst r2. unfold V2.EnsureIndexes. simpl. fold listing. rewrite H.
      destruct (V2.sort_Slice sorter indexes) as [ordered |]; [| by simpl].
      change (bind ?m ?f) with (m ≫= f). rewrite run_bind.
      destruct (V2_drop_candidates_run d (batch cursor) ordered [] s1)
        as (Htr & Hfin & _).
      pose proof (V2_drop_candidates_broken d (batch cursor) ordered [] s1 Hbroken)
        as Hnot.
      destruct (out (run d (V2.drop_candidates (batch cursor) ordered []) s1))
        as [[l | e] | c] eqn:Hout; simpl.
      * by destruct (Hnot l).
      * by rewrite Htr, Hfin.
      * by rewrite Htr, Hfin.
  - intros cursor e H Hwhole Herr. subst r1. unfold V1.EnsureIndexes. simpl.
    fold listing. rewrite H.
    destruct (V1_existing_names_whole _ ∅ Hwhole) as (existing & ->).
    by rewrite Herr.
  - intros e. subst r2. unfold V2.EnsureIndexes. simpl. fold listing.
    destruct (respond d listing s) as [[cursor | x] s2]; simpl; [| done].
    destruct (V2.sort_Slice sorter indexes) as [ordered |]; [| done].
    change (bind ?m ?f) with (m ≫= f). rewrite !run_bind.
    destruct (V2_drop_candidates_run d (batch cursor) ordered [] s2)
      as (Htr & Hfin & _).
    destruct (V2_drop_candidates_run (cursor_fails e d) (batch cursor) ordered [] s2)
      as (Htr' & Hfin' & _).
    rewrite Htr, Hfin, Htr', Hfin'.
    rewrite (V2_drop_candidates_any_driver (cursor_fails e d) d (batch cursor)
               ordered [] s2 s2).
    destruct (out (run d (V2.drop_candidates (batch cursor) ordered []) s2))
      as [[l | x] | c]; simpl; [| done | done].
    rewrite !run_bind, cursor_fails_drop_all.
    change (State (cursor_fails e d)) with (State d).
    destruct (out (run d (V2.drop_all l) s2)) as [[[] | x] | c]; simpl;
      [| done | done].
    by rewrite cursor_fails_create_all.
Qed.

Lemma EnsureIndexes_when_the_listing_breaks_witness :
  let cursor := mkCursor [Ok Sample.primary; Err Canned.refused] None in
  let r1 := run (Canned.driver (Ok cursor))
                (V1.EnsureIndexes Ref.in_order Sample.desired_AB) tt in
  let r2 := run (Canned.driver (Ok cursor))
                (V2.EnsureIndexes Ref.by_name Sample.desired_AB) tt in
  trace r1 = [Indexes_List writeCollection] /\
  trace r2 = [Indexes_List writeCollection].
Proof.
  intros cursor r1 r2.
  destruct (EnsureIndexes_when_the_listing_breaks (Canned.driver (Ok cursor))
              tt tt Ref.in_order Ref.by_name Sample.desired_AB)
    as (_ & Hbroken & _).
  destruct (Hbroken cursor eq_refl) as ((H1 & _) & (H2 & _)).
  - apply Exists_cons_tl, Exists_cons_hd. by exists Canned.refused.
  - split; [exact H1 | exact H2].
Defined.

(** On the reference store, with a cursor that ends on an error after
    the whole listing, the second variant goes on to drop and create
    and returns nil. *)
Lemma V2_EnsureIndexes_goes_on_after_a_cursor_error :
  run (cursor_fails Canned.refused (Ref.driver Sample.srv))
      (V2.EnsureIndexes Ref.by_name Sample.desired_AB)
      (mkStore [] Sample.live_AC) =
    mkRun (Returned (Ok tt)) (mkStore [] Sample.live_AB)
          [Indexes_List writeCollection;
           Indexes_DropOne writeCollection "C";
           Indexes_CreateOne writeCollection
             (Sample.named "A" (Sample.key "field" 1));
           Indexes_CreateOne writeCollection
             (Sample.named "B" (Sample.key "field" (-1)))].
Proof. vm_compute. reflexivity. Qed.

(** ** Which handle the other calls go to *)

(** X22. Reads and writes keep to their handles over the whole interface.
    Every call made by [InsertOne], [InsertMany], [UpdateOne],
    [UpdateSetOne], [UpdateMany], [FindOneAndUpdate], [Delete] and
    [BulkWrite] goes to the write collection, every call made by
    [FindOne] and [Count] to the read collection, in both variants and
    whatever the driver answers; [GetCollection] hands out the write
    handle, and the two handles of a collection are those of
    [WriteCollection] and [ReadCollection] for its name. *)
Theorem calls_keep_to_their_handles :
  (forall (d : Driver) (s : State d),
     (forall documents,
        Forall (fun c => conn_of c = writeCollection)
               (trace (run d (InsertMany documents) s))) /\
     (forall filter update opts,
        Forall (fun c => conn_of c = writeCollection)
               (trace (run d (V1.UpdateOne filter update opts) s)) /\
        Forall (fun c => conn_of c = writeCollection)
               (trace (run d (V1.UpdateSetOne filter update opts) s))) /\
     (forall filter update options,
        Forall (fun c => conn_of c = writeCollection)
               (trace (run d (V2.UpdateOne filter update options) s))) /\
     (forall filter opt,
        Forall (fun c => conn_of c = readCollection)
               (trace (run d (V1.FindOne filter opt) s)) /\
        Forall (fun c => conn_of c = readCollection)
               (trace (run d (V2.FindOne filter opt) s)))) /\
  (forall (d : Rest.Driver) (s : Rest.State d),
     (forall document,
        Rest.goes_to writeCollection
          (Rest.calls (Rest.run d (Rest.InsertOne document) s))) /\
     (forall filter opts,
        Rest.goes_to writeCollection
          (Rest.calls (Rest.run d (Rest.Delete filter opts) s))) /\
     (forall operations opts,
        Rest.goes_to writeCollection
          (Rest.calls (Rest.run d (Rest.BulkWrite operations opts) s))) /\
     (forall filter update opts options,
        Rest.goes_to writeCollection
          (Rest.calls (Rest.run d (Rest.V1.UpdateMany filter update opts) s)) /\
        Rest.goes_to writeCollection
          (Rest.calls (Rest.run d (Rest.V2.UpdateMany filter update options) s))) /\
     (forall unmarshal filter update opts opt,
        Rest.goes_to writeCollection
          (Rest.calls (Rest.run d (Rest.V1.FindOneAndUpdate unmarshal filter
                                     update opts) s)) /\
        Rest.goes_to writeCollection
          (Rest.calls (Rest.run d (Rest.V2.FindOneAndUpdate unmarshal filter
                                     update opt) s))) /\
     (forall filter opts,
        Rest.goes_to readCollection
          (Rest.calls (Rest.run d (Rest.Count filter opts) s)))) /\
  (forall (name : string) (db : Rest.Database),
     Rest.GetCollection (Rest.NewCollection name db) =
       Rest.WriteCollection db name /\
     Rest.impl_readCollection (Rest.NewCollection name db) =
       Rest.ReadCollection db name).
Proof.
  split; [| split].
  - intros d s. repeat split.
    + intros documents. unfold InsertMany. one_call. by repeat constructor.
    + unfold V1.UpdateOne. one_call. by repeat constructor.
    + unfold V1.UpdateSetOne, V1.UpdateOne. one_call. by repeat constructor.
    + intros filter update [o |]; [| by constructor]. unfold V2.UpdateOne.
      destruct (Hint o); [| by constructor]. one_call. by repeat constructor.
    + unfold V1.FindOne. one_call. by repeat constructor.
    + unfold V2.FindOne. one_call. by repeat constructor.
  - intros d s. unfold Rest.goes_to. repeat split.
    + intros document. unfold Rest.InsertOne. simpl.
      destruct (Rest.respond d _ s). by repeat constructor.
    + intros filter opts. unfold Rest.Delete. simpl.
      destruct (Rest.respond d _ s) as [[n | e] s1]; by repeat constructor.
    + intros operations opts. unfold Rest.BulkWrite. simpl.
      destruct (Rest.respond d _ s). by repeat constructor.
    + unfold Rest.V1.UpdateMany. simpl.
      destruct (Rest.respond d _ s). by repeat constructor.
    + destruct options as [o |]; [| by constructor]. unfold Rest.V2.UpdateMany.
      destruct (Hint o); [| by constructor]. simpl.
      destruct (Rest.respond d _ s). by repeat constructor.
    + unfold Rest.V1.FindOneAndUpdate. simpl.
      destruct (Rest.respond d _ s) as [[raw | e] s1]; simpl;
        [destruct (unmarshal raw) |]; by repeat constructor.
    + unfold Rest.V2.FindOneAndUpdate. simpl.
      destruct (Rest.respond d _ s) as [[raw | e] s1]; by repeat constructor.
    + intros filter opts. unfold Rest.Count. simpl.
      destruct (Rest.respond d _ s). by repeat constructor.
  - done.
Qed.

(** [Aggregate] makes one call, on the collection it is handed, and
    tells a failing query from results that do not decode. *)
Lemma Aggregate_run (d : Rest.Driver) (s : Rest.State d) collection pipeline opts :
  let c := Rest.Collection_Aggregate collection pipeline opts in
  let r := Rest.run d (Rest.Aggregate collection pipeline opts) s in
  Rest.calls r = [c] /\
  Rest.came_to r =
    Returned (match fst (Rest.respond d c s) with
              | Err e => Err (fmt_Errorf "aggregate query failed: " e)
              | Ok (Err e) =>
                  Err (fmt_Errorf "failed to decode aggregation result: " e)
              | Ok (Ok results) => Ok results
              end).
Proof.
  intros c r. subst r. unfold Rest.Aggregate. fold c. simpl.
  by destruct (Rest.respond d c s) as [[[results | e] | e] s1].
Qed.

(** ** EnsureIndexes: keys under a name that is taken *)

Lemma find_filter_keeps {A} (f g : A -> bool) (l : list A) :
  (forall x, f x = true -> g x = true) ->
  List.find f (List.filter g l) = List.find f l.
Proof.
  intros Hfg. induction l as [| x l IH]; simpl; [done |].
  destruct (g x) eqn:Hg; simpl.
  - destruct (f x); [done | exact IH].
  - destruct (f x) eqn:Hf; [| exact IH]. apply Hfg in Hf. congruence.
Qed.

(** A drop leaves the indexes of the other names where they are. *)
Lemma Ref_drop_index_keeps n name live :
  name <> n ->
  List.find (Ref.has_name n) (Ref.drop_index name live).2 =
  List.find (Ref.has_name n) live.
Proof.
  intros Hne. unfold Ref.drop_index. destruct (decide _); [done |].
  destruct (existsb _ live); [| done]. simpl.
  apply find_filter_keeps. intros i Hi. unfold Ref.has_name in *.
  apply bool_decide_eq_true in Hi. apply negb_true_iff, bool_decide_eq_false.
  congruence.
Qed.

(** No create moves or changes an index that is there. *)
Lemma Ref_create_index_keeps n i idx live :
  List.find (Ref.has_name n) live = Some i ->
  List.find (Ref.has_name n) (Ref.create_index idx live).2 = Some i.
Proof.
  intros Hfind. unfold Ref.create_index.
  destruct (List.find (Ref.has_name (Ref.index_name idx)) live) as [j |]; simpl.
  - by destruct (value_eqb _ _).
  - by apply find_app_Some.
Qed.

Lemma Ref_drop_unexpected_keeps srv expected names n (st : Store) :
  (n ∈ names -> n ∈ expected) ->
  List.find (Ref.has_name n)
    (live_indexes (final (run (Ref.driver srv)
                            (V1.drop_unexpected expected names) st))) =
  List.find (Ref.has_name n) (live_indexes st).
Proof.
  revert st. induction names as [| name rest IH]; intros st Hn; simpl; [done |].
  assert (Hrest : n ∈ rest -> n ∈ expected) by (intros H; apply Hn; by right).
  destruct (decide (name ∈ expected)) as [Hin | Hout]; [by apply IH |].
  assert (Hne : name <> n) by (intros ->; apply Hout, Hn; by left).
  simpl.
  pose proof (Ref_drop_index_keeps n name (live_indexes st) Hne) as Hkeep.
  destruct (Ref.drop_index name (live_indexes st)) as [[[] | e] live'];
    simpl in *; [| done].
  by rewrite IH.
Qed.

Lemma Ref_create_all_keeps srv indexes n i (st : Store) :
  List.find (Ref.has_name n) (live_indexes st) = Some i ->
  List.find (Ref.has_name n)
    (live_indexes (final (run (Ref.driver srv) (V1.create_all indexes) st))) =
  Some i.
Proof.
  revert st. induction indexes as [| j rest IH]; intros st Hfind; simpl; [done |].
  pose proof (Ref_create_index_keeps n i j (live_indexes st) Hfind) as Hkeep.
  destruct (Ref.create_index j (live_indexes st)) as [[name | e] live'];
    simpl in *; [| done].
  by apply IH.
Qed.

(** The create phase fails on a descriptor whose name is taken by an
    index with other keys. *)
Lemma Ref_create_all_conflict srv indexes idx n i (st : Store) :
  idx ∈ indexes -> name_of idx = Some n ->
  List.find (Ref.has_name n) (live_indexes st) = Some i ->
  value_eqb (index_Keys i) (Keys idx) = false ->
  out (run (Ref.driver srv) (V1.create_all indexes) st) <> Returned (Ok tt).
Proof.
  intros Hidx Hname. revert st.
  induction indexes as [| j rest IH]; intros st Hfind Hkeys; simpl;
    [by apply elem_of_nil in Hidx |].
  pose proof (Ref_create_index_keeps n i j (live_indexes st) Hfind) as Hkeep.
  apply elem_of_cons in Hidx as [<- | Hidx].
  - unfold Ref.create_index. rewrite (named_index_name idx n Hname), Hfind, Hkeys.
    by simpl.
  - destruct (Ref.create_index j (live_indexes st)) as [[name | e] live'];
      simpl in *; [| done].
    by apply IH.
Qed.

(** X23. Neither variant can change the keys of an index. A descriptor whose
    name is that of a live index with other keys is compared by name
    only: the index is not dropped, its create is refused by the store,
    and the run does not return nil; the index is still there with the
    keys it had. *)
Theorem EnsureIndexes_cannot_change_keys :
  forall (srv : Server) (order : MapOrder) (sorter : Sorter)
         (indexes : list IndexModel) (st : Store) (idx : IndexModel)
         (n : string) (i : MongoIndex),
    Forall (fun idx => is_Some (name_of idx)) indexes ->
    idx ∈ indexes -> name_of idx = Some n ->
    List.find (Ref.has_name n) (live_indexes st) = Some i ->
    value_eqb (index_Keys i) (Keys idx) = false ->
    let r1 := run (Ref.driver srv) (V1.EnsureIndexes order indexes) st in
    let r2 := run (Ref.driver srv) (V2.EnsureIndexes sorter indexes) st in
    (out r1 <> Returned (Ok tt) /\
     List.find (Ref.has_name n) (live_indexes (final r1)) = Some i) /\
    (out r2 <> Returned (Ok tt) /\
     List.find (Ref.has_name n) (live_indexes (final r2)) = Some i).
Proof.
  intros srv order sorter indexes st idx n i Hnamed Hidx Hname Hfind Hkeys r1 r2.
  split.
  - subst r1 r2. unfold V1.EnsureIndexes. simpl.
    destruct (V1_existing_names_listing (live_indexes st) ∅)
      as (existing & Hex & _).
    change (map Ok (live_indexes st)) with (Ok <$> live_indexes st).
    rewrite Hex. simpl. rewrite run_bind.
    set (expected := V1.expected_names indexes ∅).
    set (names := range_keys order (elements existing)).
    assert (Hexp : n ∈ expected).
    { apply V1_expected_names_spec. right. by exists idx. }
    pose proof (Ref_drop_unexpected_keeps srv expected names n st (fun _ => Hexp))
      as Hdrop. rewrite Hfind in Hdrop.
    set (st_d := final (run (Ref.driver srv) (V1.drop_unexpected expected names) st))
      in *.
    destruct (out (run (Ref.driver srv) (V1.drop_unexpected expected names) st))
      as [[[] | e] | c]; simpl; [| done | done].
    split.
    + by apply (Ref_create_all_conflict srv indexes idx n i).
    + by apply Ref_create_all_keeps.
  - subst r1 r2.
    destruct (V2_sort_Slice_named sorter indexes Hnamed) as (ordered & Hsort & Hperm).
    assert (Hnamed' : Forall (fun idx => is_Some (name_of idx)) ordered)
      by (by rewrite Hperm).
    assert (Hidx' : idx ∈ ordered) by (by rewrite Hperm).
    unfold V2.EnsureIndexes. simpl. rewrite Hsort.
    change (map Ok (live_indexes st)) with (Ok <$> live_indexes st).
    rewrite run_bind.
    destruct (V2_drop_candidates_run (Ref.driver srv) (Ok <$> live_indexes st)
                ordered [] st) as (Htr & Hfin & _).
    rewrite Htr, Hfin, V2_drop_candidates_named by done.
    simpl. rewrite run_bind.
    set (strays := filter (stray ordered) (index_Name <$> live_indexes st)).
    destruct (V2_drop_all_like_V1 (Ref.driver srv) strays st) as (_ & Hfd & _).
    assert (Hnot : n ∈ strays -> n ∈ (∅ : gset string)).
    { intros Hin. apply list_elem_of_filter in Hin as [[_ Hstray] _].
      exfalso. apply Hstray. rewrite <- Hname. by apply list_elem_of_fmap_2. }
    pose proof (Ref_drop_unexpected_keeps srv ∅ strays n st Hnot) as Hdrop.
    rewrite <- Hfd, Hfind in Hdrop.
    set (st_d := final (run (Ref.driver srv) (V2.drop_all strays) st)) in *.
    destruct (out (run (Ref.driver srv) (V2.drop_all strays) st))
      as [[[] | e] | c]; simpl; [| done | done].
    destruct (V2_create_all_like_V1 (Ref.driver srv) ordered st_d)
      as (_ & Hfc & Hoc).
    split.
    + intros Hok. apply Hoc in Hok.
      by apply (Ref_create_all_conflict srv ordered idx n i st_d).
    + pose proof (Ref_create_all_keeps srv ordered n i st_d Hdrop) as Hkeep.
      by rewrite <- Hfc in Hkeep.
Qed.

Lemma EnsureIndexes_cannot_change_keys_witness :
  let wanted := [Sample.named "A" (Sample.key "field" (-1))] in
  let r1 := run (Ref.driver Sample.srv) (V1.EnsureIndexes Ref.in_order wanted)
                (mkStore [] Sample.live_AC) in
  out r1 <> Returned (Ok tt) /\
  List.find (Ref.has_name "A") (live_indexes (final r1)) =
    Some (mkMongoIndex "A" (Sample.key "field" 1)).
Proof.
  intros wanted r1.
  refine (proj1 (EnsureIndexes_cannot_change_keys Sample.srv Ref.in_order
                   Ref.by_name wanted (mkStore [] Sample.live_AC)
                   (Sample.named "A" (Sample.key "field" (-1))) "A"
                   (mkMongoIndex "A" (Sample.key "field" 1)) _ _ _ _ _)).
  - repeat constructor. by eexists.
  - by left.
  - reflexivity.
  - reflexivity.
  - reflexivity.
Defined.

(** ** Find: past the last page, and without a page size *)

Lemma pages_of_Ref srv st filter o (limit : Z) :
  1 <= limit <= 100 ->
  Z.of_nat (length (Ref.matching srv filter st)) < 2 ^ 53 ->
  pages_of (Ref.driver srv) st filter o limit =
  ceil_div (Z.of_nat (length (Ref.matching srv filter st))) limit.
Proof.
  intros Hlimit Hcount. unfold pages_of. cbn -[SetTotalRecord Init].
  unfold SetTotalRecord. cbn [TotalPage PageLimit Init].
  destruct (Z.gtb_spec limit 100); [lia |].
  apply int64_Ceil_div; [lia | unfold max_int64; lia].
Qed.

(** X24. On the reference store, a page past the last one [Find] counts is
    empty; and a limit of zero, which [Init] lets through, turns paging
    off: whatever the page, every matching document is handed back. *)
Theorem Find_paging_edges :
  forall (srv : Server) (st : Store) (filter : value) (o : FindOptions),
    (forall page limit : Z,
       1 <= limit <= 100 ->
       Z.of_nat (length (Ref.matching srv filter st)) < 2 ^ 53 ->
       pages_of (Ref.driver srv) st filter o limit < page ->
       limit * (page - 1) <= max_int64 ->
       page_of (Ref.driver srv) st filter o page limit = []) /\
    (forall page : Z,
       page_of (Ref.driver srv) st filter o page 0 =
       Ref.matching srv filter st).
Proof.
  intros srv st filter o. split.
  - intros page limit Hlimit Hcount Hpast Hfits.
    rewrite pages_of_Ref in Hpast by done.
    set (docs := Ref.matching srv filter st) in *.
    pose proof (ceil_div_bounds (Z.of_nat (length docs)) limit ltac:(lia)) as Hc.
    assert (Hpage : 1 <= page).
    { assert (0 <= ceil_div (Z.of_nat (length docs)) limit) by nia. lia. }
    rewrite page_of_Ref_window by done. fold docs.
    rewrite drop_ge by nia. apply take_nil.
  - intros page. rewrite page_of_Ref. cbv zeta.
    unfold Ref.window, SetLimit, SetSkip, Init. cbn [Skip Limit Offset PageLimit].
    change (0 >? 100) with false. cbv iota.
    unfold mul64. rewrite Z.mul_0_l. change (wrap64 0) with 0.
    cbn [default]. by rewrite decide_True.
Qed.

Lemma Find_paging_edges_witness :
  page_of (Ref.driver Sample.srv) Sample.store25 VNull
          (mkFindOptions None None None) 4 10 = [].
Proof.
  refine (proj1 (Find_paging_edges Sample.srv Sample.store25 VNull
                   (mkFindOptions None None None)) 4 10 _ _ _ _).
  - lia.
  - vm_compute. reflexivity.
  - vm_compute. reflexivity.
  - unfold max_int64. lia.
Defined.

(** ** EnsureIndexes, second variant: descriptors without a name *)

(** With one descriptor, and that one without a name, the scan gets
    through only a listing that shows nothing but the primary key. *)
Lemma V2_drop_candidates_unnamed (d : Driver) items idx acc (s : State d) l :
  name_of idx = None ->
  out (run d (V2.drop_candidates items [idx] acc) s) = Returned (Ok l) ->
  l = acc /\
  Forall (fun item => exists i, item = Ok i /\ index_Name i = "_id_"%string) items.
Proof.
  intros Hnone. revert acc.
  induction items as [| [i | e] items IH]; intros acc; simpl.
  - intros [= <-]. by split.
  - destruct (decide (index_Name i = "_id_"%string)) as [Hid | Hid].
    + intros H. destruct (IH acc H) as [-> Hall]. split; [done |].
      constructor; [by exists i | done].
    + by rewrite Hnone.
  - done.
Qed.

(** X25. The second variant needs a name on every descriptor. When one has
    none, nothing is ever dropped; from two descriptors on the run
    panics in the sort, right after the listing; and it returns nil
    only for that single descriptor against a listing that shows
    nothing but the primary key, in which case the descriptor is
    created. *)
Theorem V2_EnsureIndexes_needs_names :
  forall (d : Driver) (s s1 : State d) (sorter : Sorter)
         (indexes : list IndexModel) (cur : Cursor),
    respond d (Indexes_List writeCollection) s = (Ok cur, s1) ->
    Exists (fun idx => name_of idx = None) indexes ->
    let r := run d (V2.EnsureIndexes sorter indexes) s in
    drops (trace r) = [] /\
    ((2 <= length indexes)%nat ->
     r = mkRun (Crashed nil_dereference) s1 [Indexes_List writeCollection]) /\
    (out r = Returned (Ok tt) ->
     length indexes = 1%nat /\
     Forall (fun item => exists i, item = Ok i /\ index_Name i = "_id_"%string)
            (batch cur) /\
     creates (trace r) = indexes).
Proof.
  intros d s s1 sorter indexes cur Hlist Hex r.
  destruct (decide (2 <= length indexes)%nat) as [Hlen | Hlen].
  { pose proof (V2_EnsureIndexes_unnamed_crashes_in_sort d s s1 sorter indexes cur
                  Hlist Hlen Hex) as Hcrash.
    fold r in Hcrash. rewrite Hcrash. simpl.
    split; [done |]. split; [done | discriminate]. }
  destruct indexes as [| idx [| idx' rest]];
    [by apply Exists_nil in Hex | | simpl in Hlen; lia].
  apply Exists_cons in Hex as [Hnone | Hex]; [| by apply Exists_nil in Hex].
  split; [| split; [simpl; lia |]].
  - subst r. unfold V2.EnsureIndexes. simpl. rewrite Hlist. simpl.
    change (bind ?m ?f) with (m ≫= f). rewrite run_bind.
    destruct (V2_drop_candidates_run d (batch cur) [idx] [] s1) as (Htr & Hfin & _).
    rewrite Htr, Hfin.
    destruct (out (run d (V2.drop_candidates (batch cur) [idx] []) s1))
      as [[l | e] | c] eqn:Hout; simpl; [| done | done].
    apply V2_drop_candidates_unnamed in Hout as [-> _]; [| done].
    simpl. destruct (respond d _ s1) as [[name | e] s2]; by simpl.
  - subst r. unfold V2.EnsureIndexes. simpl. rewrite Hlist. simpl.
    change (bind ?m ?f) with (m ≫= f). rewrite run_bind.
    destruct (V2_drop_candidates_run d (batch cur) [idx] [] s1) as (Htr & Hfin & _).
    rewrite Htr, Hfin.
    destruct (out (run d (V2.drop_candidates (batch cur) [idx] []) s1))
      as [[l | e] | c] eqn:Hout; simpl; [| done | done].
    apply V2_drop_candidates_unnamed in Hout as [-> Hall]; [| done].
    simpl. destruct (respond d _ s1) as [[name | e] s2]; simpl; [| done].
    intros _. by repeat split.
Qed.

Lemma V2_EnsureIndexes_needs_names_witness :
  let r := run (Ref.driver Sample.srv)
               (V2.EnsureIndexes Ref.by_name
                  [Sample.unnamed (Sample.key "field" 1);
                   Sample.named "B" (Sample.key "field" (-1))])
               (mkStore [] Sample.live_AC) in
  r = mkRun (Crashed nil_dereference) (mkStore [] Sample.live_AC)
            [Indexes_List writeCollection].
Proof.
  intros r.
  destruct (V2_EnsureIndexes_needs_names (Ref.driver Sample.srv)
              (mkStore [] Sample.live_AC) (mkStore [] Sample.live_AC) Ref.by_name
              [Sample.unnamed (Sample.key "field" 1);
               Sample.named "B" (Sample.key "field" (-1))]
              (mkCursor (map Ok Sample.live_AC) None) eq_refl)
    as (_ & Hsort & _).
  - by apply Exists_cons_hd.
  - apply Hsort. simpl. lia.
Defined.

(** ** EnsureIndexes, first variant: a descriptor without a name, run
    after run *)

(** A run of the first variant that returns nil leaves every
    descriptor settled, named or not. *)
Lemma Ref_V1_EnsureIndexes_settles srv order indexes (st st1 : Store) t1 :
  run (Ref.driver srv) (V1.EnsureIndexes order indexes) st =
    mkRun (Returned (Ok tt)) st1 t1 ->
  forall idx, idx ∈ indexes -> settled idx (live_indexes st1).
Proof.
  intros Hrun. unfold V1.EnsureIndexes in Hrun. simpl in Hrun.
  destruct (V1_existing_names_listing (live_indexes st) ∅) as (existing & Hex & _).
  change (map Ok (live_indexes st)) with (Ok <$> live_indexes st) in Hrun.
  rewrite Hex in Hrun. simpl in Hrun. rewrite run_bind in Hrun.
  set (expected := V1.expected_names indexes ∅) in Hrun.
  set (names := range_keys order (elements existing)) in Hrun.
  destruct (out (run (Ref.driver srv) (V1.drop_unexpected expected names) st))
    as [[[] | e] | c]; simpl in Hrun; [| discriminate | discriminate].
  set (st_d := final (run (Ref.driver srv) (V1.drop_unexpected expected names) st))
    in *.
  pose proof (Ref_create_all_Ok srv indexes st_d) as Hcreate. cbv zeta in Hcreate.
  assert (Hout : out (run (Ref.driver srv) (V1.create_all indexes) st_d) =
                 Returned (Ok tt)) by (by injection Hrun).
  assert (Hfin : final (run (Ref.driver srv) (V1.create_all indexes) st_d) = st1)
    by (by injection Hrun).
  destruct (Hcreate Hout) as (_ & Hsettled & _). by rewrite Hfin in Hsettled.
Qed.

(** The drops and creates of a run of the first variant that returns
    nil. *)
Lemma V1_EnsureIndexes_Ok_trace (d : Driver) (s s1 : State d) order indexes cursor :
  respond d (Indexes_List writeCollection) s = (Ok cursor, s1) ->
  let r := run d (V1.EnsureIndexes order indexes) s in
  out r = Returned (Ok tt) ->
  exists existing,
    V1.existing_names (batch cursor) ∅ = Ok existing /\
    drops (trace r) =
      filter (fun n => n ∉ V1.expected_names indexes ∅)
             (range_keys order (elements existing)) /\
    creates (trace r) = indexes.
Proof.
  intros Hlist r. subst r.
  unfold V1.EnsureIndexes. simpl. rewrite Hlist. simpl.
  destruct (V1.existing_names (batch cursor) ∅) as [existing | e] eqn:Hex;
    simpl; [| discriminate].
  destruct (cursor_Err cursor) as [e |]; simpl; [discriminate |].
  rewrite run_bind.
  set (expected := V1.expected_names indexes ∅).
  set (names := range_keys order (elements existing)).
  destruct (V1_drop_unexpected_run d expected names s1)
    as (ds & Htr & _ & [x Hret] & Hok).
  rewrite Hret, Htr. destruct x as [[] | e]; simpl; [| discriminate].
  destruct (V1_create_all_run d indexes
              (final (run d (V1.drop_unexpected expected names) s1)))
    as (cs & Htc & _ & _ & Hokc).
  rewrite Htc. intros Hout.
  rewrite (Hok Hret), (Hokc Hout).
  change (?c :: ?l) with ([c] ++ l).
  rewrite !drops_app, !creates_app, drops_DropOne, drops_CreateOne,
    creates_DropOne, creates_CreateOne, app_nil_r. simpl.
  by exists existing.
Qed.

(** X26. The first variant rebuilds the index of a descriptor without a name
    on every run. On the reference store, which names such an index
    after its keys, a run that follows one that returned nil finds the
    index under a name no descriptor carries: when it returns nil it has
    dropped that index and created it again. *)
Theorem V1_EnsureIndexes_rebuilds_unnamed :
  forall (srv : Server) (order order' : MapOrder) (indexes : list IndexModel)
         (st st1 : Store) (t1 : list Cmd) (idx : IndexModel),
    idx ∈ indexes -> name_of idx = None ->
    Ref.index_name idx <> "_id_"%string ->
    Some (Ref.index_name idx) ∉ (name_of <$> indexes) ->
    run (Ref.driver srv) (V1.EnsureIndexes order indexes) st =
      mkRun (Returned (Ok tt)) st1 t1 ->
    let r2 := run (Ref.driver srv) (V1.EnsureIndexes order' indexes) st1 in
    out r2 = Returned (Ok tt) ->
    Ref.index_name idx ∈ drops (trace r2) /\ idx ∈ creates (trace r2).
Proof.
  intros srv order order' indexes st st1 t1 idx Hidx Hnone Hid Hfree Hrun1 r2.
  pose proof (Ref_V1_EnsureIndexes_settles srv order indexes st st1 t1 Hrun1 idx Hidx)
    as Hsettled.
  apply settled_present in Hsettled as (i & Hi & Hname & _).
  destruct (V1_existing_names_listing (live_indexes st1) ∅)
    as (existing & Hex & Hspec).
  subst r2. intros Hout.
  destruct (V1_EnsureIndexes_Ok_trace (Ref.driver srv) st1 st1 order' indexes
              (mkCursor (Ok <$> live_indexes st1) None) eq_refl Hout)
    as (existing' & Hex' & -> & ->).
  pose proof (eq_trans (eq_sym Hex) Hex') as Heq. injection Heq as <-.
  split; [| done].
  apply list_elem_of_filter. split.
  - by apply stray_expected.
  - rewrite (range_keys_perm order'). apply elem_of_elements, Hspec.
    right. split; [done |]. by exists i.
Qed.

Lemma V1_EnsureIndexes_rebuilds_unnamed_witness :
  let unnamed := Sample.unnamed (Sample.key "field" 1) in
  let r2 := run (Ref.driver Sample.srv) (V1.EnsureIndexes Ref.in_order [unnamed])
                (mkStore [] [Sample.primary;
                             mkMongoIndex "field_1" (Sample.key "field" 1)]) in
  "field_1"%string ∈ drops (trace r2) /\ unnamed ∈ creates (trace r2).
Proof.
  intros unnamed r2.
  refine (V1_EnsureIndexes_rebuilds_unnamed Sample.srv Ref.in_order Ref.in_order
            [unnamed] (mkStore [] [Sample.primary])
            (mkStore [] [Sample.primary;
                         mkMongoIndex "field_1" (Sample.key "field" 1)])
            [Indexes_List writeCollection; Indexes_CreateOne writeCollection unnamed]
            unnamed _ _ _ _ _ _).
  - by left.
  - reflexivity.
  - vm_compute. discriminate.
  - vm_compute. intros H. apply list_elem_of_singleton in H. discriminate.
  - vm_compute. reflexivity.
  - vm_compute. reflexivity.
Defined.

